(** * Email checker: worker-pool pipeline and streaming I/O

    A shallow embedding of [main.go]: the verdict translation
    ([evaluateResult], [verifyEmail]), the worker pool and the result
    collector of [processEmails] as a labelled transition system over
    two bounded channels, the streaming reader ([readEmailsStreaming])
    over the token stream of [encoding/json]'s decoder, and the
    streaming writer ([writeResultsStreaming]) over a buffered writer. *)

From stdpp Require Import base tactics option list strings numbers pretty
  sorting gmap.

Set Warnings "-register-all".

Open Scope string_scope.
Open Scope list_scope.
Open Scope Z_scope.

(** ** Machine integers

    Go's [int64] (and [int] on 64-bit targets): arithmetic wraps
    around in two's complement. *)

Definition int64_min : Z := - 2 ^ 63.
Definition int64_max : Z := 2 ^ 63 - 1.

Definition wrap64 (z : Z) : Z := (z + 2 ^ 63) mod 2 ^ 64 - 2 ^ 63.

Definition in_int64 (z : Z) : Prop := int64_min ≤ z ≤ int64_max.

(** [atomic.AddInt64(&x, d)]: the new value, wrapped. *)
Definition AddInt64 (x d : Z) : Z := wrap64 (x + d).

(** ** Data model (main.go, lines 20-56) *)

(** [time.Duration]: nanoseconds in an [int64]. *)
Definition Duration := Z.

Record Config := mkConfig {
  InputFile : string;
  OutputFile : string;
  Workers : Z;
  BatchSize : Z;
  RateLimit : Duration;
  EnableSMTP : bool;
  Verbose : bool
}.

Record InvalidEmail := mkInvalidEmail {
  ie_Email : string;
  ie_Reason : string
}.

(** [StartTime] is a reading of the monotonic clock, in nanoseconds. *)
Record Stats := mkStats {
  TotalChecked : Z;
  TotalValid : Z;
  TotalInvalid : Z;
  StartTime : Z
}.

Record EmailJob := mkEmailJob {
  Index : Z;
  job_Email : string
}.

Record EmailResult := mkEmailResult {
  Email : string;
  IsValid : bool;
  Reason : string
}.

Global Instance InvalidEmail_eq_dec : EqDecision InvalidEmail.
Proof. solve_decision. Defined.
Global Instance EmailJob_eq_dec : EqDecision EmailJob.
Proof. solve_decision. Defined.
Global Instance EmailResult_eq_dec : EqDecision EmailResult.
Proof. solve_decision. Defined.

(** ** The verifier adapter's result

    The fields of [emailverifier.Result] that [evaluateResult] reads.
    [SMTP] is a pointer in the library: [None] is the nil pointer. *)

Record Syntax := mkSyntax { Valid : bool }.

Record SMTP := mkSMTP {
  HostExists : bool;
  Deliverable : bool;
  Disabled : bool
}.

Record Result := mkResult {
  res_Syntax : Syntax;
  res_Disposable : bool;
  res_Suggestion : string;
  res_HasMxRecords : bool;
  res_SMTP : option SMTP;
  res_Reachable : string
}.

(** What [verifier.Verify(email)] hands back: a result, or an error
    whose [Error()] text is carried. *)
Inductive VerifyResponse :=
  | VerifyOk (result : Result)
  | VerifyErr (err : string).

(** One verifier instance, as the worker that owns it sees it. *)
Definition Verifier := string → VerifyResponse.

(** ** Verdict translation (main.go, lines 336-376) *)

Definition evaluateResult (result : Result) : bool * string :=
  (* the tail of the function, reached from both arms of the SMTP test *)
  let checkReachable :=
    if String.eqb (res_Reachable result) "no" then
      (false, "email is not reachable")
    else (true, "") in
  if negb (Valid (res_Syntax result)) then
    (false, "invalid email syntax")
  else if res_Disposable result then
    (false, "disposable email address")
  else if negb (String.eqb (res_Suggestion result) "") then
    (false, "possible typo, did you mean: " +:+ res_Suggestion result)
  else if negb (res_HasMxRecords result) then
    (false, "domain has no MX records")
  else
    match res_SMTP result with
    | Some smtp =>
        if negb (HostExists smtp) then (false, "SMTP host does not exist")
        else if negb (Deliverable smtp) then (false, "email is not deliverable")
        else if Disabled smtp then (false, "mailbox is disabled")
        else checkReachable
    | None => checkReachable
    end.

(** ** One verification (main.go, lines 312-333)

    The function's effect on the log is returned next to its value:
    the lines it prints, which are none unless [verbose]. *)

Definition verifyEmail (verifier : Verifier) (email : string) (verbose : bool)
  : EmailResult * list string :=
  match verifier email with
  | VerifyErr err =>
      let reason := "verification error: " +:+ err in
      (mkEmailResult email false reason,
       if verbose then ["  ❌ " +:+ email +:+ " - " +:+ reason] else [])
  | VerifyOk result =>
      let '(isValid, reason) := evaluateResult result in
      (mkEmailResult email isValid reason,
       if verbose then
         if isValid then ["  ✅ " +:+ email]
         else ["  ❌ " +:+ email +:+ " - " +:+ reason]
       else [])
  end.

(** ** Channels

    A buffered Go channel: a FIFO buffer of at most [cap] elements and
    the closed flag.  With capacity 0 nothing can be buffered; the
    program only has such channels when it has no worker at all, so no
    rendezvous is ever possible on them. *)

Record Chan (A : Type) := mkChan {
  buf : list A;
  cap : Z;
  closed : bool
}.
Arguments mkChan {A} _ _ _.
Arguments buf {A} _.
Arguments cap {A} _.
Arguments closed {A} _.

Definition has_room {A} (c : Chan A) : bool := Z.of_nat (length (buf c)) <? cap c.

Definition chan_push {A} (x : A) (c : Chan A) : Chan A :=
  mkChan (buf c ++ [x]) (cap c) (closed c).

Definition chan_set_buf {A} (l : list A) (c : Chan A) : Chan A :=
  mkChan l (cap c) (closed c).

Definition chan_close {A} (c : Chan A) : Chan A :=
  mkChan (buf c) (cap c) true.

(** ** The pipeline of [processEmails] (main.go, lines 216-310) *)

(** Run-time panics the pipeline's statements can raise. *)
Inductive Fault :=
  | ChanSizeOutOfRange    (* make(chan T, n): "makechan: size out of range" *)
  | SendOnClosedChannel   (* ch <- x after close(ch) *)
  | CloseOfClosedChannel  (* close(ch) twice *)
  | NegativeWaitGroup     (* wg.Done() below zero *)
  | IntegerDivideByZero.  (* x % 0 *)

Global Instance Fault_eq_dec : EqDecision Fault.
Proof. solve_decision. Defined.

(** Where a worker goroutine stands in its loop (lines 301-309). *)
Inductive WorkerState :=
  | WIdle                       (* at [for job := range jobs] *)
  | WSending (r : EmailResult)  (* at [results <- result] *)
  | WSleeping                   (* in [time.Sleep(config.RateLimit)] *)
  | WExited.                    (* returned; [wg.Done()] has run *)

Global Instance WorkerState_eq_dec : EqDecision WorkerState.
Proof. solve_decision. Defined.

(** Where the driver (the goroutine running [processEmails]) stands. *)
Inductive DriverPC :=
  | DSend           (* in the loop of line 274, or about to close(jobs) *)
  | DWaitWorkers    (* at wg.Wait() *)
  | DCloseResults   (* at close(results) *)
  | DWaitCollector  (* at collectorWg.Wait() *)
  | DReturned.      (* at return invalidEmails *)

Global Instance DriverPC_eq_dec : EqDecision DriverPC.
Proof. solve_decision. Defined.

Inductive CollectorState :=
  | CRunning                  (* at [for result := range results] *)
  | CReporting (checked : Z)  (* counted an outcome, at the test of line 256 *)
  | CDone.                    (* returned; [collectorWg.Done()] has run *)

Global Instance CollectorState_eq_dec : EqDecision CollectorState.
Proof. solve_decision. Defined.

Record State := mkState {
  todo : list EmailJob;         (* jobs the loop of line 274 still has to send *)
  pc : DriverPC;
  jobs : Chan EmailJob;
  results : Chan EmailResult;
  workers : list WorkerState;   (* worker [id] is the element at index [id] *)
  wg : Z;                       (* the WaitGroup counter *)
  collector : CollectorState;
  stats : Stats;
  invalidEmails : list InvalidEmail;
  lastReport : Z;
  fault : option Fault
}.

Definition set_todo l s := mkState l (pc s) (jobs s) (results s) (workers s)
  (wg s) (collector s) (stats s) (invalidEmails s) (lastReport s) (fault s).
Definition set_pc p s := mkState (todo s) p (jobs s) (results s) (workers s)
  (wg s) (collector s) (stats s) (invalidEmails s) (lastReport s) (fault s).
Definition set_jobs c s := mkState (todo s) (pc s) c (results s) (workers s)
  (wg s) (collector s) (stats s) (invalidEmails s) (lastReport s) (fault s).
Definition set_results c s := mkState (todo s) (pc s) (jobs s) c (workers s)
  (wg s) (collector s) (stats s) (invalidEmails s) (lastReport s) (fault s).
Definition set_worker (id : nat) w s := mkState (todo s) (pc s) (jobs s) (results s)
  (<[id:=w]> (workers s)) (wg s) (collector s) (stats s) (invalidEmails s)
  (lastReport s) (fault s).
Definition set_wg n s := mkState (todo s) (pc s) (jobs s) (results s) (workers s)
  n (collector s) (stats s) (invalidEmails s) (lastReport s) (fault s).
Definition set_collector c s := mkState (todo s) (pc s) (jobs s) (results s)
  (workers s) (wg s) c (stats s) (invalidEmails s) (lastReport s) (fault s).
Definition set_aggregate st inv lr s := mkState (todo s) (pc s) (jobs s) (results s)
  (workers s) (wg s) (collector s) st inv lr (fault s).
Definition panic f s := mkState (todo s) (pc s) (jobs s) (results s) (workers s)
  (wg s) (collector s) (stats s) (invalidEmails s) (lastReport s) (Some f).

(** What a scheduler, the adapter and the clock decide: which goroutine
    takes its next step, how the verifier of the stepping worker
    answers, and what the clock reads. *)
Inductive Action :=
  | ADispatch                       (* driver: jobs <- EmailJob{...} *)
  | ACloseJobs                      (* driver: close(jobs) *)
  | AVerify (id : nat) (v : Verifier) (* worker: receive a job, verifyEmail *)
  | ASend (id : nat)                (* worker: results <- result *)
  | AWake (id : nat)                (* worker: time.Sleep returns *)
  | AExit (id : nat)                (* worker: range over jobs ends, wg.Done() *)
  | AWaitWorkers                    (* driver: wg.Wait() returns *)
  | ACloseResults                   (* driver: close(results) *)
  | ACollect                        (* collector: receive and count an outcome *)
  | AReport (now : Z)               (* collector: the progress test and report *)
  | ACollectorExit                  (* collector: range over results ends *)
  | AReturn.                        (* driver: collectorWg.Wait() returns *)

(** The integers a progress line reports (lines 257-267). *)
Record Progress := mkProgress {
  p_checked : Z;
  p_total : Z;
  p_invalid : Z;
  p_elapsed : Duration
}.

(** What a step does, as an observer of the channels sees it. *)
Inductive Event :=
  | EvEnqueued (j : EmailJob)
  | EvJobsClosed
  | EvVerified (id : nat) (j : EmailJob) (r : EmailResult) (log : list string)
  | EvResultSent (id : nat) (r : EmailResult)
  | EvWorkerExit (id : nat)
  | EvResultsClosed
  | EvCollected (r : EmailResult)
  | EvProgress (p : Progress)
  | EvCollectorExit
  | EvReturned
  | EvPanic (f : Fault)
  | EvSilent.

(** [for i, email := range emails]: the jobs in the order the driver
    sends them. *)
Definition jobsOf (emails : list string) : list EmailJob :=
  imap (λ i email, mkEmailJob (Z.of_nat i) email) emails.

(** [main] hands [processEmails] a fresh [Stats] (lines 83-85). *)
Definition newStats (start : Z) : Stats := mkStats 0 0 0 start.

(** [make(chan T, size)], as [runtime.makechan] has it: the call panics
    when [size] is negative, and when the buffer of [size] elements of
    [elemsize] bytes each is more than the allocator hands out, which is
    [maxAlloc] less the [hchanSize] bytes of the channel's header.  On
    linux/amd64 [maxAlloc] is 2^48, and the header of Go 1.21, the
    version the README asks for at least, takes 96 bytes.  The
    allocation of a buffer within that limit is taken to succeed: a
    machine that has not got the memory ends the program with a fatal
    error of the runtime, which is not modelled. *)
Definition maxAlloc : Z := 2 ^ 48.
Definition hchanSize : Z := 96.

Definition makechan {A} (elemsize size : Z) : option (Chan A) :=
  if (size <? 0) || (maxAlloc - hchanSize <? elemsize * size) then None
  else Some (mkChan [] size false).

(** The bytes of an [EmailJob] (an int and a string header) and of an
    [EmailResult] (a string header, a bool padded to a word, a string
    header). *)
Definition sizeof_EmailJob : Z := 24.
Definition sizeof_EmailResult : Z := 40.

(** A worker count up to which both channels are made, with room to
    spare for a target with fewer address bits or a version of the
    runtime with a larger header: the larger of the two buffers then
    takes 80 * 2^31 bytes, less than 2^38. *)
Definition safe_workers : Z := 2 ^ 31.

(** The state once the workers and the collector are started (line
    272).  A [make] that panics (lines 220-221) does so before any
    goroutine is spawned.  The loop of line 225 spawns no worker when
    the count is not positive. *)
Definition processEmails_init (emails : list string) (config : Config)
    (stats : Stats) (now : Z) : State :=
  let size := wrap64 (Workers config * 2) in
  match makechan sizeof_EmailJob size, makechan sizeof_EmailResult size with
  | Some jobs, Some results =>
      mkState (jobsOf emails) DSend jobs results
        (replicate (Z.to_nat (Workers config)) WIdle) (Z.max 0 (Workers config))
        CRunning stats [] now None
  | _, _ =>
      mkState (jobsOf emails) DSend (mkChan [] 0 false) (mkChan [] 0 false) []
        0 CRunning stats [] now (Some ChanSizeOutOfRange)
  end.

(** The first half of the collector's loop body on [result] (lines
    241-253): the new statistics, the new list, and [checked]. *)
Definition count (result : EmailResult) (st : Stats) (invalid : list InvalidEmail)
  : Stats * list InvalidEmail * Z :=
  let st1 :=
    if IsValid result then
      mkStats (TotalChecked st) (AddInt64 (TotalValid st) 1) (TotalInvalid st)
        (StartTime st)
    else
      mkStats (TotalChecked st) (TotalValid st) (AddInt64 (TotalInvalid st) 1)
        (StartTime st) in
  let invalid1 :=
    if IsValid result then invalid
    else invalid ++ [mkInvalidEmail (Email result) (Reason result)] in
  let checked := AddInt64 (TotalChecked st1) 1 in
  (mkStats checked (TotalValid st1) (TotalInvalid st1) (StartTime st1),
   invalid1, checked).

(** The second half (lines 255-269): [checked % 0] panics; otherwise a
    progress line is printed, and [lastReport] moved, on every batch or
    after five seconds.  The clock is read once. *)
Definition report (totalEmails : Z) (config : Config) (checked now : Z)
    (st : Stats) (last : Z) : Fault + option Progress * Z :=
  if BatchSize config =? 0 then inl IntegerDivideByZero
  else if (Z.rem checked (BatchSize config) =? 0) || (5 * 10 ^ 9 <? now - last) then
    inr (Some (mkProgress checked totalEmails (TotalInvalid st) (now - StartTime st)),
         now)
  else inr (None, last).

Section Step.

Variable totalEmails : Z.
Variable config : Config.

Definition step (a : Action) (s : State) : option (Event * State) :=
  match fault s with
  | Some _ => None   (* a panic ends the process *)
  | None =>
  match a with
  | ADispatch =>
      match pc s, todo s with
      | DSend, j :: rest =>
          if closed (jobs s) then
            Some (EvPanic SendOnClosedChannel, panic SendOnClosedChannel s)
          else if has_room (jobs s) then
            Some (EvEnqueued j, set_todo rest (set_jobs (chan_push j (jobs s)) s))
          else None
      | _, _ => None
      end
  | ACloseJobs =>
      match pc s, todo s with
      | DSend, [] =>
          if closed (jobs s) then
            Some (EvPanic CloseOfClosedChannel, panic CloseOfClosedChannel s)
          else
            Some (EvJobsClosed, set_pc DWaitWorkers (set_jobs (chan_close (jobs s)) s))
      | _, _ => None
      end
  | AVerify id v =>
      match workers s !! id, buf (jobs s) with
      | Some WIdle, j :: rest =>
          let '(r, log) := verifyEmail v (job_Email j) (Verbose config) in
          Some (EvVerified id j r log,
                set_worker id (WSending r) (set_jobs (chan_set_buf rest (jobs s)) s))
      | _, _ => None
      end
  | ASend id =>
      match workers s !! id with
      | Some (WSending r) =>
          if closed (results s) then
            Some (EvPanic SendOnClosedChannel, panic SendOnClosedChannel s)
          else if has_room (results s) then
            Some (EvResultSent id r,
                  set_worker id (if 0 <? RateLimit config then WSleeping else WIdle)
                    (set_results (chan_push r (results s)) s))
          else None
      | _ => None
      end
  | AWake id =>
      match workers s !! id with
      | Some WSleeping => Some (EvSilent, set_worker id WIdle s)
      | _ => None
      end
  | AExit id =>
      match workers s !! id, buf (jobs s), closed (jobs s) with
      | Some WIdle, [], true =>
          if wg s - 1 <? 0 then
            Some (EvPanic NegativeWaitGroup, panic NegativeWaitGroup s)
          else Some (EvWorkerExit id, set_wg (wg s - 1) (set_worker id WExited s))
      | _, _, _ => None
      end
  | AWaitWorkers =>
      match pc s with
      | DWaitWorkers =>
          if wg s =? 0 then Some (EvSilent, set_pc DCloseResults s) else None
      | _ => None
      end
  | ACloseResults =>
      match pc s with
      | DCloseResults =>
          if closed (results s) then
            Some (EvPanic CloseOfClosedChannel, panic CloseOfClosedChannel s)
          else
            Some (EvResultsClosed,
                  set_pc DWaitCollector (set_results (chan_close (results s)) s))
      | _ => None
      end
  | ACollect =>
      match collector s, buf (results s) with
      | CRunning, r :: rest =>
          let '(st, invalid, checked) := count r (stats s) (invalidEmails s) in
          Some (EvCollected r,
                set_collector (CReporting checked)
                  (set_aggregate st invalid (lastReport s)
                     (set_results (chan_set_buf rest (results s)) s)))
      | _, _ => None
      end
  | AReport now =>
      match collector s with
      | CReporting checked =>
          match report totalEmails config checked now (stats s) (lastReport s) with
          | inl f => Some (EvPanic f, panic f s)
          | inr (Some p, last) =>
              Some (EvProgress p,
                    set_collector CRunning
                      (set_aggregate (stats s) (invalidEmails s) last s))
          | inr (None, last) =>
              Some (EvSilent,
                    set_collector CRunning
                      (set_aggregate (stats s) (invalidEmails s) last s))
          end
      | _ => None
      end
  | ACollectorExit =>
      match collector s, buf (results s), closed (results s) with
      | CRunning, [], true => Some (EvCollectorExit, set_collector CDone s)
      | _, _, _ => None
      end
  | AReturn =>
      match pc s, collector s with
      | DWaitCollector, CDone => Some (EvReturned, set_pc DReturned s)
      | _, _ => None
      end
  end
  end.

(** An execution: the actions taken in turn, with the events they
    produce, oldest first.  [None] when an action is not enabled. *)
Fixpoint run (acts : list Action) (s : State) : option (list Event * State) :=
  match acts with
  | [] => Some ([], s)
  | a :: rest =>
      match step a s with
      | Some (e, s') =>
          match run rest s' with
          | Some (es, s'') => Some (e :: es, s'')
          | None => None
          end
      | None => None
      end
  end.

End Step.

(** ** What an execution has done so far, read off its events *)

Definition enqueued (evs : list Event) : list EmailJob :=
  omap (λ e, match e with EvEnqueued j => Some j | _ => None end) evs.

(** The jobs the workers took off the job queue, each with the outcome
    [verifyEmail] gave it, in the order they were taken. *)
Definition verified (evs : list Event) : list (EmailJob * EmailResult) :=
  omap (λ e, match e with EvVerified _ j r _ => Some (j, r) | _ => None end) evs.

Definition sent (evs : list Event) : list EmailResult :=
  omap (λ e, match e with EvResultSent _ r => Some r | _ => None end) evs.

(** The outcomes the collector has taken off the result queue and
    counted. *)
Definition collected (evs : list Event) : list EmailResult :=
  omap (λ e, match e with EvCollected r => Some r | _ => None end) evs.

Definition exited (evs : list Event) : list nat :=
  omap (λ e, match e with EvWorkerExit id => Some id | _ => None end) evs.

Definition held (w : WorkerState) : list EmailResult :=
  match w with WSending r => [r] | _ => [] end.

(** The outcomes the workers hold and have not sent yet. *)
Definition holding (ws : list WorkerState) : list EmailResult :=
  ws ≫= held.

Definition running (w : WorkerState) : Z :=
  match w with WExited => 0 | _ => 1 end.

(** The number of workers that have not returned. *)
Definition active (ws : list WorkerState) : Z :=
  foldr (λ w n, running w + n) 0 ws.

Definition invalid_of (r : EmailResult) : list InvalidEmail :=
  if IsValid r then [] else [mkInvalidEmail (Email r) (Reason r)].

(** The list the collector builds from the outcomes [rs], in order. *)
Definition invalid_list (rs : list EmailResult) : list InvalidEmail :=
  rs ≫= invalid_of.

Definition count_valid (rs : list EmailResult) : Z :=
  foldr (λ r n, (if IsValid r then 1 else 0) + n) 0 rs.

Definition count_invalid (rs : list EmailResult) : Z :=
  foldr (λ r n, (if IsValid r then 0 else 1) + n) 0 rs.

(** The entries the outcomes [outcomes] call for: one for each job whose
    outcome is invalid, with the job's address and the outcome's
    reason. *)
Definition rejected (outcomes : list (EmailJob * EmailResult)) : list InvalidEmail :=
  outcomes ≫= λ jr,
    if IsValid jr.2 then [] else [mkInvalidEmail (job_Email jr.1) (Reason jr.2)].

(** The run is over: [processEmails] has returned. *)
Definition completed (s : State) : Prop := pc s = DReturned ∧ fault s = None.

(** The state [processEmails] starts the dispatch loop from, as [main]
    calls it: fresh statistics, [start] the clock at line 84 and [now]
    the clock when the collector starts. *)
Definition initial (emails : list string) (config : Config) (start now : Z) : State :=
  processEmails_init emails config (newStats start) now.

(** [execution emails config start now acts evs s]: the scheduler's
    choices [acts] are enabled in turn from the initial state, produce
    the events [evs] and lead to [s]. *)
Definition execution (emails : list string) (config : Config) (start now : Z)
    (acts : list Action) (evs : list Event) (s : State) : Prop :=
  run (Z.of_nat (length emails)) config acts (initial emails config start now)
    = Some (evs, s).

(** ** A schedule that runs the pipeline to completion

    One round per job: the driver sends it, worker 0 verifies it and
    sends the outcome (and sleeps if rate-limited), the collector counts
    and reports; then the shutdown: close(jobs), every worker returns,
    wg.Wait(), close(results), the collector returns, the driver
    returns. *)

Definition round (rate_limited : bool) (v : Verifier) (now : Z) : list Action :=
  [ADispatch; AVerify 0 v; ASend 0] ++ (if rate_limited then [AWake 0] else [])
  ++ [ACollect; AReport now].

Definition shutdown (nworkers : nat) : list Action :=
  [ACloseJobs] ++ (AExit <$> seq 0 nworkers)
  ++ [AWaitWorkers; ACloseResults; ACollectorExit; AReturn].

Definition sequential_schedule (config : Config) (v : Verifier) (now : Z)
    (emails : list string) : list Action :=
  concat (replicate (length emails) (round (0 <? RateLimit config) v now))
  ++ shutdown (Z.to_nat (Workers config)).

(** [reaches totalEmails config s acts s']: the actions [acts] are
    enabled in turn from [s] and lead to [s']. *)
Definition reaches (totalEmails : Z) (config : Config) (s : State)
    (acts : list Action) (s' : State) : Prop :=
  ∃ evs, run totalEmails config acts s = Some (evs, s').

(** ** The streaming reader (main.go, lines 379-450) *)

(** A JSON document. *)
Inductive json :=
  | JNull
  | JBool (b : bool)
  | JNumber (literal : string)
  | JString (s : string)
  | JArray (elements : list json)
  | JObject (members : list (string * json)).

(** [json.Delim] and [json.Token]. *)
Inductive Delim := LBrace | RBrace | LBracket | RBracket.

Inductive Token :=
  | TDelim (d : Delim)
  | TBool (b : bool)
  | TNumber (literal : string)
  | TString (s : string)
  | TNull.

Global Instance Delim_eq_dec : EqDecision Delim.
Proof. solve_decision. Defined.
Global Instance Token_eq_dec : EqDecision Token.
Proof. solve_decision. Defined.

(** *** Numbers

    [Decoder.Token] returns a number as a [float64]: it converts the
    literal with [strconv.ParseFloat] and returns the error of the
    conversion when the value is out of range, that is, when it rounds
    to an infinity: from the largest [float64], 2^1024 - 2^971, and
    half a unit in its last place on.  A value too small for a
    [float64] rounds to zero without an error. *)

Definition byte_of (c : Ascii.ascii) : N := Ascii.N_of_ascii c.

(** The value of a decimal digit. *)
Definition digit (c : Ascii.ascii) : option Z :=
  let n := byte_of c in
  if ((48 <=? n) && (n <=? 57))%N then Some (Z.of_N n - 48) else None.

(** The decimal digits [s] starts with: their value, read after those
    of [acc], their number added to [n], and the rest of [s]. *)
Fixpoint leading_digits (acc n : Z) (s : string) : Z * Z * string :=
  match s with
  | EmptyString => (acc, n, s)
  | String c rest =>
      match digit c with
      | Some d => leading_digits (acc * 10 + d) (n + 1) rest
      | None => (acc, n, s)
      end
  end.

Definition starts_with (n : N) (s : string) : bool :=
  match s with
  | String c _ => (byte_of c =? n)%N
  | EmptyString => false
  end.

Definition skip_byte (n : N) (s : string) : string :=
  match s with
  | String c rest => if (byte_of c =? n)%N then rest else s
  | EmptyString => s
  end.

(** The exponent after the letter: an optional sign and one or more
    digits, up to the end of the literal. *)
Definition exponent (s : string) : option Z :=
  let negative := starts_with 45 s in
  let s := if starts_with 43 s then skip_byte 43 s else skip_byte 45 s in
  let '(e, ne, rest) := leading_digits 0 0 s in
  if (0 <? ne) && bool_decide (rest = "")
  then Some (if negative then - e else e) else None.

(** A number of the JSON grammar: an optional minus sign, an integer
    part without a leading zero (unless it is zero), an optional
    fraction and an optional exponent.  [Some (m, e)] stands for the
    magnitude [m * 10 ^ e]. *)
Definition number_literal (s : string) : option (Z * Z) :=
  let s := skip_byte 45 s in
  let '(i, ni, s1) := leading_digits 0 0 s in
  if (ni =? 0) || ((1 <? ni) && starts_with 48 s) then None
  else
    let '(m, nf, s2) :=
      if starts_with 46 s1 then leading_digits i 0 (skip_byte 46 s1)
      else (i, 0, s1) in
    if starts_with 46 s1 && (nf =? 0) then None
    else
      match s2 with
      | EmptyString => Some (m, - nf)
      | String c rest =>
          if ((byte_of c =? 101) || (byte_of c =? 69))%N
          then e ← exponent rest; Some (m, e - nf)
          else None
      end.

Definition float64_limit : Z := 2 ^ 1024 - 2 ^ 970.

(** [strconv.ParseFloat(literal, 64)] returns no error. *)
Definition float64_literal (literal : string) : bool :=
  match number_literal literal with
  | Some (m, e) =>
      if m =? 0 then true
      else if 0 <=? e then m * 10 ^ e <? float64_limit
      else m <? float64_limit * 10 ^ (- e)
  | None => false
  end.

(** [readable t]: the call of [Decoder.Token] that comes to [t] returns
    it, and no error. *)
Definition readable (t : Token) : bool :=
  match t with
  | TNumber literal => float64_literal literal
  | _ => true
  end.

(** What [Decoder.Token] comes to on a well-formed document, in order:
    delimiters, object keys and scalar values (colons and commas are
    skipped by the decoder).  The decoder keeps the open delimiters on
    a stack of its own; a number is returned when it is [readable]. *)
Fixpoint tokens (v : json) : list Token :=
  match v with
  | JNull => [TNull]
  | JBool b => [TBool b]
  | JNumber n => [TNumber n]
  | JString s => [TString s]
  | JArray vs =>
      TDelim LBracket ::
      (fix elements (vs : list json) : list Token :=
         match vs with
         | [] => []
         | v :: vs' => tokens v ++ elements vs'
         end) vs ++ [TDelim RBracket]
  | JObject ms =>
      TDelim LBrace ::
      (fix members (ms : list (string * json)) : list Token :=
         match ms with
         | [] => []
         | (k, v) :: ms' => TString k :: tokens v ++ members ms'
         end) ms ++ [TDelim RBrace]
  end.

(** A [json.Decoder] in the middle of a well-formed document: the
    tokens it has not read yet. *)
Definition Decoder := list Token.

(** [Decoder.More]: the next byte that is not white space is neither
    [']'] nor ['}'] (and the input has not ended). *)
Definition More (dec : Decoder) : bool :=
  match dec with
  | [] => false
  | TDelim RBrace :: _ => false
  | TDelim RBracket :: _ => false
  | _ :: _ => true
  end.

(** [decoder.Decode(&email)] with [email] a fresh string, on a scalar
    token: a JSON string is stored, [null] leaves the variable empty,
    anything else (also the start of an array or object) is an
    [UnmarshalTypeError]. *)
Definition decodeString (t : Token) : option string :=
  match t with
  | TString s => Some s
  | TNull => Some ""
  | _ => None
  end.

Record File := mkFile {
  file_size : Z;     (* [stat.Size()] *)
  file_doc : json    (* the document the file holds *)
}.

(** The [fmt.Errorf] sites of the function. *)
Inductive ReadError :=
  | FailedToOpen            (* line 382 *)
  | FailedToReadJSON        (* line 408 *)
  | ExpectedObjectStart (got : Token)  (* line 411 *)
  | FailedToReadToken       (* line 418 *)
  | FailedToReadArrayStart  (* line 425 *)
  | ExpectedArrayStart (got : Token)   (* line 428 *)
  | FailedToDecodeEmail     (* line 435 *)
  | FailedToReadArrayEnd    (* line 442 *)
  | MakeSlicePanic.         (* make([]string, 0, n) out of range *)

(** Lines 392-399. *)
Definition estimatedCapacity (size : Z) : Z :=
  let estimatedCapacity := Z.quot size 35 in
  let estimatedCapacity := if estimatedCapacity <? 100 then 100 else estimatedCapacity in
  if estimatedCapacity >? 10000000 then 10000000 else estimatedCapacity.

(** [make([]string, len, cap)]: panics unless [0 <= len <= cap].  The
    capacity of a slice is not part of its contents. *)
Definition make_strings (len cap : Z) : option (list string) :=
  if (0 <=? len) && (len <=? cap) then Some (replicate (Z.to_nat len) "") else None.

(** The loop of lines 432-438, on the rest of the document: the
    addresses appended to [emails], and the decoder after them. *)
Fixpoint readArray (emails : list string) (dec : Decoder)
  : ReadError + list string * Decoder :=
  if More dec then
    match dec with
    | [] => inl FailedToDecodeEmail
    | v :: dec' =>
        match decodeString v with
        | Some email => readArray (emails ++ [email]) dec'
        | None => inl FailedToDecodeEmail
        end
    end
  else inr (emails, dec).

(** The loop of lines 415-446. *)
Fixpoint scanForEmails (emails : list string) (dec : Decoder)
  : ReadError + list string :=
  if More dec then
    match dec with
    | [] => inl FailedToReadToken
    | token :: dec1 =>
        if negb (readable token) then inl FailedToReadToken
        else if decide (token = TString "emails") then
          match dec1 with
          | [] => inl FailedToReadArrayStart
          | token :: dec2 =>
              if negb (readable token) then inl FailedToReadArrayStart
              else if decide (token ≠ TDelim LBracket)
              then inl (ExpectedArrayStart token)
              else
                match readArray emails dec2 with
                | inl err => inl err
                | inr (emails, dec3) =>
                    match dec3 with
                    | [] => inl FailedToReadArrayEnd
                    | _ :: _ => inr emails      (* break *)
                    end
                end
          end
        else scanForEmails emails dec1
    end
  else inr emails.

(** [readEmailsStreaming(filename)] when opening [filename] gives
    [file] ([None]: it cannot be opened). *)
Definition readEmailsStreaming (file : option File) : ReadError + list string :=
  match file with
  | None => inl FailedToOpen
  | Some file =>
      match make_strings 0 (estimatedCapacity (file_size file)) with
      | None => inl MakeSlicePanic
      | Some emails =>
          match tokens (file_doc file) with
          | [] => inl FailedToReadJSON
          | token :: dec =>
              if negb (readable token) then inl FailedToReadJSON
              else if decide (token ≠ TDelim LBrace)
              then inl (ExpectedObjectStart token)
              else scanForEmails emails dec
          end
      end
  end.

(** A value that is one token. *)
Definition scalar (v : json) : bool :=
  match v with
  | JArray _ | JObject _ => false
  | _ => true
  end.

(** The first token of a value. *)
Definition first_token (v : json) : Token :=
  match v with
  | JNull => TNull
  | JBool b => TBool b
  | JNumber n => TNumber n
  | JString s => TString s
  | JArray _ => TDelim LBracket
  | JObject _ => TDelim LBrace
  end.

(** A member the scan passes over as the code intends: its key is not
    "emails", and its value is one token, which [Decoder.Token] returns
    without an error and which is not the string "emails". *)
Definition plain_member (m : string * json) : Prop :=
  m.1 ≠ "emails" ∧ scalar m.2 = true ∧ m.2 ≠ JString "emails" ∧
  readable (first_token m.2) = true.

Definition member_tokens (m : string * json) : list Token :=
  TString m.1 :: tokens m.2.

(** Documents the reader is tried on: the "emails" array after a member
    whose value is an object, after one whose value is an array, and no
    "emails" member but a string value that reads "emails". *)
Definition doc_object_first : json :=
  JObject [("meta", JObject [("source", JString "crm")]);
           ("emails", JArray [JString "first@example.com"; JString "second@example.com"])].

Definition doc_array_first : json :=
  JObject [("tags", JArray []);
           ("emails", JArray [JString "first@example.com"; JString "second@example.com"])].

Definition doc_emails_value : json :=
  JObject [("note", JString "emails")].

(** ** The streaming writer (main.go, lines 453-492) *)

Definition bytes := list Ascii.ascii.

Definition bytes_of (s : string) : bytes := String.list_ascii_of_string s.

Definition len (p : bytes) : Z := Z.of_nat (length p).

Inductive IOError :=
  | ENOSPC          (* the device is full *)
  | ErrShortWrite.  (* io.ErrShortWrite *)

(** The output file: what it holds, and how many more bytes the device
    takes before its writes fail. *)
Record OutFile := mkOutFile {
  contents : bytes;
  free : Z
}.

(** [file.Write(p)]: the bytes that fit are written; a write that does
    not fit whole fails. *)
Definition file_Write (p : bytes) (f : OutFile) : OutFile * Z * option IOError :=
  if len p <=? free f then
    (mkOutFile (contents f ++ p) (free f - len p), len p, None)
  else
    let written := take (Z.to_nat (free f)) p in
    (mkOutFile (contents f ++ written) (free f - len written), len written, Some ENOSPC).

(** [bufio.Writer]. *)
Record Writer := mkWriter {
  wr : OutFile;
  wbuf : bytes;         (* b.buf[0:b.n] *)
  wsize : Z;            (* len(b.buf) *)
  werr : option IOError
}.

Definition NewWriterSize (file : OutFile) (size : Z) : Writer :=
  mkWriter file [] (if size <=? 0 then 4096 else size) None.

Definition Available (b : Writer) : Z := wsize b - len (wbuf b).
Definition Buffered (b : Writer) : Z := len (wbuf b).

(** [b.Flush()]. *)
Definition Flush (b : Writer) : Writer * option IOError :=
  match werr b with
  | Some err => (b, Some err)
  | None =>
      if Buffered b =? 0 then (b, None)
      else
        let '(file, n, err) := file_Write (wbuf b) (wr b) in
        let err :=
          match err with
          | None => if n <? Buffered b then Some ErrShortWrite else None
          | Some _ => err
          end in
        match err with
        | Some e => (mkWriter file (drop (Z.to_nat n) (wbuf b)) (wsize b) (Some e), Some e)
        | None => (mkWriter file [] (wsize b) None, None)
        end
  end.

(** The loop of [b.Write(p)] and [b.WriteString(s)]: while [p] does not
    fit in the buffer and no write has failed, hand [p] to the file if
    the buffer is empty, else fill the buffer and flush it.  The loop
    body runs at most twice; [fuel] bounds it. *)
Fixpoint Write_loop (fuel : nat) (p : bytes) (b : Writer) : bytes * Writer :=
  match fuel with
  | O => (p, b)
  | S fuel =>
      if (Available b <? len p) && bool_decide (werr b = None) then
        if Buffered b =? 0 then
          let '(file, n, err) := file_Write p (wr b) in
          Write_loop fuel (drop (Z.to_nat n) p) (mkWriter file (wbuf b) (wsize b) err)
        else
          let n := Z.to_nat (Available b) in
          let b := mkWriter (wr b) (wbuf b ++ take n p) (wsize b) (werr b) in
          Write_loop fuel (drop n p) (Flush b).1
      else (p, b)
  end.

Definition Write (p : bytes) (b : Writer) : Writer * option IOError :=
  let '(p, b) := Write_loop 2 p b in
  match werr b with
  | Some err => (b, Some err)
  | None => (mkWriter (wr b) (wbuf b ++ p) (wsize b) None, None)
  end.

Definition WriteString (s : string) (b : Writer) : Writer * option IOError :=
  Write (bytes_of s) b.

(** A call whose error result the caller drops. *)
Definition ignoring_error {A E} (r : A * E) : A := r.1.

Definition nl : string := String (Ascii.ascii_of_nat 10) "".
Definition dq : string := String (Ascii.ascii_of_nat 34) "".

(** [json.Marshal(email)].  [encodeString] is the encoder's rendering
    of a Go string as a JSON string literal, quotes included; a struct
    of two strings never fails to marshal. *)
Definition Marshal (encodeString : string → string) (email : InvalidEmail)
  : string + bytes :=
  inr (bytes_of ("{" +:+ dq +:+ "email" +:+ dq +:+ ":" +:+ encodeString (ie_Email email)
                 +:+ "," +:+ dq +:+ "reason" +:+ dq +:+ ":"
                 +:+ encodeString (ie_Reason email) +:+ "}")).

(** [%d] of an [int64]. *)
Definition fmt_d (n : Z) : string := pretty n.

(** [%q] of a string with nothing to escape, as the RFC 3339 rendering
    of a time is. *)
Definition fmt_q (s : string) : string := dq +:+ s +:+ dq.

Inductive WriteError :=
  | FailedToCreate    (* line 456 *)
  | FailedToMarshal.  (* line 471 *)

(** The loop of lines 468-480, from index [i] on. *)
Fixpoint writeInvalidEmails (encodeString : string → string) (total : Z) (i : Z)
    (invalidEmails : list InvalidEmail) (writer : Writer) : WriteError * Writer + Writer :=
  match invalidEmails with
  | [] => inr writer
  | email :: rest =>
      match Marshal encodeString email with
      | inl _ => inl (FailedToMarshal, writer)
      | inr emailJSON =>
          let writer := ignoring_error (WriteString "    " writer) in
          let writer := ignoring_error (Write emailJSON writer) in
          let writer :=
            if i <? total - 1 then ignoring_error (WriteString "," writer)
            else writer in
          let writer := ignoring_error (WriteString nl writer) in
          writeInvalidEmails encodeString total (i + 1) rest writer
      end
  end.

(** The clock readings of lines 484 and 488, as they are printed:
    [time.Now().Format(time.RFC3339)] and the [%.2f] rendering of the
    seconds since [StartTime]. *)
Record Timestamps := mkTimestamps {
  checked_at : string;
  processing_time_seconds : string
}.

(** [writeResultsStreaming(filename, invalidEmails, stats)] when
    creating [filename] gives [created] ([None]: it cannot be created):
    the error returned, and the file as the deferred [Flush] and
    [Close] leave it. *)
Definition writeResultsStreaming (encodeString : string → string)
    (created : option OutFile) (times : Timestamps)
    (invalidEmails : list InvalidEmail) (stats : Stats)
  : option WriteError * option OutFile :=
  match created with
  | None => (Some FailedToCreate, None)
  | Some file =>
      let writer := NewWriterSize file (1024 * 1024) in
      let writer := ignoring_error (WriteString ("{" +:+ nl) writer) in
      let writer := ignoring_error
        (WriteString ("  " +:+ dq +:+ "invalid_emails" +:+ dq +:+ ": [" +:+ nl) writer) in
      match writeInvalidEmails encodeString (Z.of_nat (length invalidEmails)) 0
              invalidEmails writer with
      | inl (err, writer) =>
          (Some err, Some (wr (ignoring_error (Flush writer))))
      | inr writer =>
          let writer := ignoring_error (WriteString ("  ]," +:+ nl) writer) in
          let writer := ignoring_error
            (WriteString ("  " +:+ dq +:+ "checked_at" +:+ dq +:+ ": "
                          +:+ fmt_q (checked_at times) +:+ "," +:+ nl) writer) in
          let writer := ignoring_error
            (WriteString ("  " +:+ dq +:+ "total_checked" +:+ dq +:+ ": "
                          +:+ fmt_d (TotalChecked stats) +:+ "," +:+ nl) writer) in
          let writer := ignoring_error
            (WriteString ("  " +:+ dq +:+ "total_valid" +:+ dq +:+ ": "
                          +:+ fmt_d (TotalValid stats) +:+ "," +:+ nl) writer) in
          let writer := ignoring_error
            (WriteString ("  " +:+ dq +:+ "total_invalid" +:+ dq +:+ ": "
                          +:+ fmt_d (TotalInvalid stats) +:+ "," +:+ nl) writer) in
          let writer := ignoring_error
            (WriteString ("  " +:+ dq +:+ "processing_time_seconds" +:+ dq +:+ ": "
                          +:+ processing_time_seconds times +:+ nl) writer) in
          let writer := ignoring_error (WriteString ("}" +:+ nl) writer) in
          (None, Some (wr (ignoring_error (Flush writer))))
      end
  end.

(** The whole document, as the calls above emit it in turn. *)
Definition invalidEmailLine (encodeString : string → string) (last : bool)
    (email : InvalidEmail) : bytes :=
  bytes_of "    " ++
  match Marshal encodeString email with inl _ => [] | inr emailJSON => emailJSON end ++
  (if last then [] else bytes_of ",") ++ bytes_of nl.

Fixpoint invalidEmailLines (encodeString : string → string)
    (invalidEmails : list InvalidEmail) : bytes :=
  match invalidEmails with
  | [] => []
  | email :: rest =>
      invalidEmailLine encodeString (bool_decide (rest = [])) email
      ++ invalidEmailLines encodeString rest
  end.

Definition document (encodeString : string → string) (times : Timestamps)
    (invalidEmails : list InvalidEmail) (stats : Stats) : bytes :=
  bytes_of ("{" +:+ nl) ++
  bytes_of ("  " +:+ dq +:+ "invalid_emails" +:+ dq +:+ ": [" +:+ nl) ++
  invalidEmailLines encodeString invalidEmails ++
  bytes_of ("  ]," +:+ nl) ++
  bytes_of ("  " +:+ dq +:+ "checked_at" +:+ dq +:+ ": "
            +:+ fmt_q (checked_at times) +:+ "," +:+ nl) ++
  bytes_of ("  " +:+ dq +:+ "total_checked" +:+ dq +:+ ": "
            +:+ fmt_d (TotalChecked stats) +:+ "," +:+ nl) ++
  bytes_of ("  " +:+ dq +:+ "total_valid" +:+ dq +:+ ": "
            +:+ fmt_d (TotalValid stats) +:+ "," +:+ nl) ++
  bytes_of ("  " +:+ dq +:+ "total_invalid" +:+ dq +:+ ": "
            +:+ fmt_d (TotalInvalid stats) +:+ "," +:+ nl) ++
  bytes_of ("  " +:+ dq +:+ "processing_time_seconds" +:+ dq +:+ ": "
            +:+ processing_time_seconds times +:+ nl) ++
  bytes_of ("}" +:+ nl).

(** Everything the writer has been handed so far and has not lost: the
    bytes in the file followed by those in the buffer. *)
Definition emitted (b : Writer) : bytes := contents (wr b) ++ wbuf b.




(** ** The summary of [main] (lines 95-97) *)

(** A [float64] quotient of two integers, as far as it is defined: a
    zero divisor gives NaN or an infinity and no panic. *)
Inductive Quotient :=
  | QNaN
  | QInf
  | QRatio (dividend divisor : Z).

Definition float_div (dividend divisor : Z) : Quotient :=
  if divisor =? 0 then (if dividend =? 0 then QNaN else QInf)
  else QRatio dividend divisor.

(** [emailsPerSecond], with [elapsed] in nanoseconds: the quotient of
    [TotalChecked * 1e9] by [elapsed]. *)
Definition emailsPerSecond (stats : Stats) (now : Z) : Quotient :=
  let elapsed := now - StartTime stats in
  float_div (TotalChecked stats * 10 ^ 9) elapsed.

(** ** The verdict policy, rule by rule

    The seven rules of the policy as a list in their order; a rule
    gives the reason it rejects with, if it applies.  The verdict is
    that of the first rule that applies. *)

Definition Rule := Result → option string.

Definition rule_syntax : Rule := λ r,
  if Valid (res_Syntax r) then None else Some "invalid email syntax".
Definition rule_disposable : Rule := λ r,
  if res_Disposable r then Some "disposable email address" else None.
Definition rule_suggestion : Rule := λ r,
  if decide (res_Suggestion r = "") then None
  else Some ("possible typo, did you mean: " +:+ res_Suggestion r).
Definition rule_mx : Rule := λ r,
  if res_HasMxRecords r then None else Some "domain has no MX records".
Definition rule_smtp_host : Rule := λ r,
  match res_SMTP r with
  | Some smtp => if HostExists smtp then None else Some "SMTP host does not exist"
  | None => None
  end.
Definition rule_smtp_deliverable : Rule := λ r,
  match res_SMTP r with
  | Some smtp => if Deliverable smtp then None else Some "email is not deliverable"
  | None => None
  end.
Definition rule_smtp_disabled : Rule := λ r,
  match res_SMTP r with
  | Some smtp => if Disabled smtp then Some "mailbox is disabled" else None
  | None => None
  end.
Definition rule_reachable : Rule := λ r,
  if decide (res_Reachable r = "no") then Some "email is not reachable" else None.

(** Rules 1 to 4 let the result through. *)
Definition passes_basic (r : Result) : bool :=
  Valid (res_Syntax r) && negb (res_Disposable r)
  && bool_decide (res_Suggestion r = "") && res_HasMxRecords r.

(** Rule 5 lets the result through: no SMTP sub-result, or one that
    passes its three tests. *)
Definition passes_smtp (r : Result) : bool :=
  match res_SMTP r with
  | Some smtp => HostExists smtp && Deliverable smtp && negb (Disabled smtp)
  | None => true
  end.

Definition verdict_rules : list Rule :=
  [rule_syntax; rule_disposable; rule_suggestion; rule_mx;
   rule_smtp_host; rule_smtp_deliverable; rule_smtp_disabled; rule_reachable].

Fixpoint first_match (rules : list Rule) (r : Result) : bool * string :=
  match rules with
  | [] => (true, "")
  | rule :: rules' =>
      match rule r with
      | Some reason => (false, reason)
      | None => first_match rules' r
      end
  end.


(** ** Sample inputs *)

Definition sample_times : Timestamps := mkTimestamps "2025-12-30T10:16:40Z" "1.50".

Definition sample_invalid : list InvalidEmail :=
  [mkInvalidEmail "bad-syntax" "invalid email syntax";
   mkInvalidEmail "user@disposable-domain.test" "disposable email address"].

Definition sample_stats : Stats := mkStats 3 1 2 0.

(** A device with ten bytes left. *)
Definition nearly_full : OutFile := mkOutFile [] 10.

(** A run of four addresses on two workers, interleaved: the second
    address has invalid syntax, the third is disposable, and the
    adapter fails on the fourth. *)
Definition demo_config : Config :=
  mkConfig "data/data.json" "data/invalid_emails.json" 2 1000 10000000 true false.

Definition demo_emails : list string :=
  ["good@example.com"; "bad-syntax"; "user@disposable-domain.test"; "down@example.com"].

Definition demo_verifier : Verifier := λ email,
  if String.eqb email "bad-syntax" then
    VerifyOk (mkResult (mkSyntax false) true "" false None "unknown")
  else if String.eqb email "user@disposable-domain.test" then
    VerifyOk (mkResult (mkSyntax true) true "" true None "unknown")
  else if String.eqb email "down@example.com" then
    VerifyErr "dial tcp: i/o timeout"
  else VerifyOk (mkResult (mkSyntax true) false "" true None "yes").

(** The steps up to the driver's wg.Wait(), then the rest. *)
Definition demo_acts_before : list Action :=
  [ADispatch; ADispatch; AVerify 0 demo_verifier; AVerify 1 demo_verifier;
   ADispatch; ASend 1; ASend 0; ACollect; AReport 1; AWake 1;
   AVerify 1 demo_verifier; ADispatch; ACloseJobs; AWake 0;
   AVerify 0 demo_verifier; ASend 0; ASend 1; ACollect; AReport 2;
   ACollect; AReport 3; AWake 0; AWake 1; AExit 1; ACollect; AReport 4;
   AExit 0; AWaitWorkers].

Definition demo_acts_after : list Action :=
  [ACloseResults; ACollectorExit; AReturn].

Definition demo_acts : list Action := demo_acts_before ++ demo_acts_after.

Definition demo_before : list Event * State :=
  Eval vm_compute in
    default ([], initial demo_emails demo_config 0 0)
      (run 4 demo_config demo_acts_before (initial demo_emails demo_config 0 0)).

Definition demo_run : list Event * State :=
  Eval vm_compute in
    default ([], initial demo_emails demo_config 0 0)
      (run 4 demo_config demo_acts (initial demo_emails demo_config 0 0)).


(** ** The invariant of the pipeline

    What holds of the events [evs] of an execution and the state [s] it
    has reached: where every job and every outcome is, what the
    counters count, and how far the shutdown has got. *)
Record Inv (emails : list string) (start : Z) (evs : list Event) (s : State)
  : Prop := mkInv {
  inv_todo : jobsOf emails = enqueued evs ++ todo s;
  inv_jobs_fifo : enqueued evs = (verified evs).*1 ++ buf (jobs s);
  inv_holding : (verified evs).*2 ≡ₚ sent evs ++ holding (workers s);
  inv_results_fifo : sent evs = collected evs ++ buf (results s);
  inv_stats :
    stats s = mkStats (wrap64 (Z.of_nat (length (collected evs))))
                (wrap64 (count_valid (collected evs)))
                (wrap64 (count_invalid (collected evs))) start;
  inv_invalid : invalidEmails s = invalid_list (collected evs);
  inv_sending : pc s = DSend → closed (jobs s) = false;
  inv_sent_all : pc s ≠ DSend → closed (jobs s) = true ∧ todo s = [];
  inv_wg : wg s = active (workers s);
  inv_exited : WExited ∈ workers s → closed (jobs s) = true ∧ buf (jobs s) = [];
  inv_waited : pc s = DSend ∨ pc s = DWaitWorkers ∨ wg s = 0;
  inv_results_closed :
    closed (results s) = true ↔ pc s = DWaitCollector ∨ pc s = DReturned;
  inv_collector_done :
    collector s = CDone → closed (results s) = true ∧ buf (results s) = [];
  inv_returned : pc s = DReturned → collector s = CDone;
  inv_jobs_cap :
    cap (jobs s) = 2 * Z.of_nat (length (workers s)) ∧
    Z.of_nat (length (buf (jobs s))) ≤ cap (jobs s);
  inv_results_cap :
    cap (results s) = cap (jobs s) ∧
    Z.of_nat (length (buf (results s))) ≤ cap (results s);
  inv_fault :
    fault s = None ∨ fault s = Some IntegerDivideByZero ∨
    fault s = Some ChanSizeOutOfRange;
  inv_email : Forall (λ jr, Email jr.2 = job_Email jr.1) (verified evs);
  inv_exits : Z.of_nat (length (exited evs)) + wg s = Z.of_nat (length (workers s));
  inv_jobs_closed_ev : EvJobsClosed ∈ evs ↔ closed (jobs s) = true;
  inv_results_closed_ev : EvResultsClosed ∈ evs ↔ closed (results s) = true
}.

(** What holds along a run in which no job is ever taken off the job
    queue, because the pool has no worker or because no job is ever
    sent: nothing is verified, sent or counted, and the collector's
    loop body is never entered. *)
Definition quiet (start : Z) (acts : list Action) (evs : list Event)
    (s : State) : Prop :=
  (workers s = [] ∨ (todo s = [] ∧ buf (jobs s) = [])) ∧
  Forall (λ w, w = WIdle ∨ w = WExited) (workers s) ∧
  buf (results s) = [] ∧
  verified evs = [] ∧ sent evs = [] ∧ collected evs = [] ∧
  stats s = newStats start ∧ invalidEmails s = [] ∧
  (ACollect ∉ acts) ∧ (∀ now, AReport now ∉ acts) ∧
  (∀ checked, collector s ≠ CReporting checked) ∧
  (∀ p, EvProgress p ∉ evs) ∧ (EvPanic IntegerDivideByZero ∉ evs) ∧
  fault s ≠ Some IntegerDivideByZero.

(** ** How many steps a state has left

    Every job costs the pipeline five steps (it is sent, verified, its
    outcome sent, counted and reported), and a sixth when the workers
    are rate-limited (the sleep); every worker costs one (it returns),
    and the shutdown five.  A panic is one step. *)

Definition sleeps (config : Config) : Z := if 0 <? RateLimit config then 1 else 0.

Definition worker_steps (config : Config) (w : WorkerState) : Z :=
  match w with
  | WIdle => 1
  | WSending _ => 4 + sleeps config
  | WSleeping => 2
  | WExited => 0
  end.

Definition driver_steps (p : DriverPC) : Z :=
  match p with
  | DSend => 4
  | DWaitWorkers => 3
  | DCloseResults => 2
  | DWaitCollector => 1
  | DReturned => 0
  end.

Definition collector_steps (c : CollectorState) : Z :=
  match c with
  | CRunning => 1
  | CReporting _ => 2
  | CDone => 0
  end.

Definition pool_steps (config : Config) (ws : list WorkerState) : Z :=
  foldr (λ w n, worker_steps config w + n) 0 ws.

Definition steps_left (config : Config) (s : State) : Z :=
  (5 + sleeps config) * Z.of_nat (length (todo s))
  + (4 + sleeps config) * Z.of_nat (length (buf (jobs s)))
  + 2 * Z.of_nat (length (buf (results s))) + pool_steps config (workers s)
  + driver_steps (pc s) + collector_steps (collector s)
  + match fault s with None => 1 | Some _ => 0 end.

Definition panics (evs : list Event) : list Fault :=
  omap (λ e, match e with EvPanic f => Some f | _ => None end) evs.

Definition progress (evs : list Event) : list Progress :=
  omap (λ e, match e with EvProgress p => Some p | _ => None end) evs.

(** The number of outcomes the collector has gone through the progress
    test with. *)
Definition reported (evs : list Event) (s : State) : Z :=
  Z.of_nat (length (collected evs))
  - match collector s with CReporting _ => 1 | _ => 0 end.

(** What a progress line may say when [n] outcomes have been through the
    progress test, of [total] addresses. *)
Definition progress_ok (total n : Z) (p : Progress) : Prop :=
  1 ≤ p_checked p ≤ n ∧ n ≤ total ∧ p_total p = total ∧
  0 ≤ p_invalid p ≤ p_checked p.

Record ProgressInv (config : Config) (total : Z) (evs : list Event) (s : State)
  : Prop := mkProgressInv {
  pi_checked : ∀ c, collector s = CReporting c →
    c = Z.of_nat (length (collected evs)) ∧ collected evs ≠ [];
  pi_ok : Forall (progress_ok total (reported evs s)) (progress evs);
  pi_sorted : StronglySorted (λ p q, p_checked p < p_checked q) (progress evs);
  pi_batches : ∀ m, 1 ≤ m ≤ reported evs s → Z.rem m (BatchSize config) = 0 →
    ∃ p, p ∈ progress evs ∧ p_checked p = m
}.

Definition collected_of (e : Event) : list EmailResult :=
  match e with EvCollected r => [r] | _ => [] end.

Definition progress_of (e : Event) : list Progress :=
  match e with EvProgress p => [p] | _ => [] end.

(** An outcome is valid and gives no reason, or invalid and gives one. *)
Definition reason_ok (r : EmailResult) : Prop :=
  (IsValid r = true ∧ Reason r = "") ∨ (IsValid r = false ∧ Reason r ≠ "").

Definition verified_of (e : Event) : list (EmailJob * EmailResult) :=
  match e with EvVerified _ j r _ => [(j, r)] | _ => [] end.

Definition exited_of (e : Event) : list nat :=
  match e with EvWorkerExit id => [id] | _ => [] end.

(** How many jobs worker [id] has taken and how many outcomes it has
    sent, in the events [evs], and how often it has woken from its
    sleep, in the actions [acts]. *)
Definition tally {A} (f : A → bool) (l : list A) : Z :=
  foldr (λ a n, (if f a then 1 else 0) + n) 0 l.

Definition verified_by (id : nat) (e : Event) : bool :=
  match e with EvVerified i _ _ _ => bool_decide (i = id) | _ => false end.

Definition sent_by (id : nat) (e : Event) : bool :=
  match e with EvResultSent i _ => bool_decide (i = id) | _ => false end.

Definition wake_of (id : nat) (a : Action) : bool :=
  match a with AWake i => bool_decide (i = id) | _ => false end.

Definition sending (w : option WorkerState) : Z :=
  match w with Some (WSending _) => 1 | _ => 0 end.

Definition sleeping (w : option WorkerState) : Z :=
  match w with Some WSleeping => 1 | _ => 0 end.

(** The bytes the file holds when the device is full. *)
Definition quota (f : OutFile) : Z := len (contents f) + free f.

(** The buffer is within its size, and the device's room is not
    negative. *)
Definition shaped (b : Writer) : Prop :=
  0 < wsize b ∧ len (wbuf b) ≤ wsize b ∧ 0 ≤ free (wr b).

(** The state of a writer on the file [f0] that has been handed [data]:
    while no write has failed nothing is lost; once one has, the device
    is full and the file holds what fitted. *)
Definition kept (f0 : OutFile) (data : bytes) (b : Writer) : Prop :=
  shaped b ∧ quota (wr b) = quota f0 ∧
  match werr b with
  | None => emitted b = contents f0 ++ data
  | Some _ =>
      free (wr b) = 0 ∧ quota f0 < len (contents f0 ++ data) ∧
      contents (wr b) = take (Z.to_nat (quota f0)) (contents f0 ++ data)
  end.

(** One turn of the loop of [Write], when its test holds. *)
Definition turn (p : bytes) (b : Writer) : bytes * Writer :=
  if Buffered b =? 0 then
    let '(file, n, err) := file_Write p (wr b) in
    (drop (Z.to_nat n) p, mkWriter file (wbuf b) (wsize b) err)
  else
    let n := Z.to_nat (Available b) in
    (drop n p, (Flush (mkWriter (wr b) (wbuf b ++ take n p) (wsize b) (werr b))).1).

(** An element of the "emails" array that [Decode] accepts: a string,
    or [null] ([None]). *)
Definition element (e : option string) : json :=
  match e with Some s => JString s | None => JNull end.

Definition element_token (e : option string) : Token :=
  match e with Some s => TString s | None => TNull end.

(** ** The process environment and the .env file (main.go, lines 110-179) *)

(** The environment of the process: the variables that are set, each
    with its value. *)
Abbreviation Env := (gmap string string).

Definition has_byte (n : N) (s : string) : bool :=
  existsb (λ c, (byte_of c =? n)%N) (String.list_ascii_of_string s).

(** [os.Getenv(key)]: the value, or the empty string when the variable
    is not set (or the key is empty). *)
Definition Getenv (key : string) (env : Env) : string :=
  if decide (key = "") then "" else default "" (env !! key).

(** [os.Setenv(key, value)]: EINVAL ([None]) on an empty key, on a key
    that holds '=' or a NUL byte, and on a value that holds a NUL byte. *)
Definition Setenv (key value : string) (env : Env) : option Env :=
  if bool_decide (key = "") || has_byte 61 key || has_byte 0 key || has_byte 0 value
  then None
  else Some (<[key:=value]> env).

(** [unicode.IsSpace] on the bytes of a string: the six ASCII white
    space characters, and the UTF-8 encodings of U+0085, U+00A0, U+1680,
    U+2000 to U+200A, U+2028, U+2029, U+202F, U+205F and U+3000. *)
Definition space1 (c : Ascii.ascii) : bool :=
  let n := byte_of c in ((9 <=? n) && (n <=? 13) || (n =? 32))%N.

Definition space2 (c1 c2 : Ascii.ascii) : bool :=
  ((byte_of c1 =? 194) && ((byte_of c2 =? 133) || (byte_of c2 =? 160)))%N.

Definition space3 (c1 c2 c3 : Ascii.ascii) : bool :=
  let '(n1, n2, n3) := (byte_of c1, byte_of c2, byte_of c3) in
  ((n1 =? 225) && (n2 =? 154) && (n3 =? 128)
   || (n1 =? 226) && (n2 =? 128)
      && ((128 <=? n3) && (n3 <=? 138) || (n3 =? 168) || (n3 =? 169) || (n3 =? 175))
   || (n1 =? 226) && (n2 =? 129) && (n3 =? 159)
   || (n1 =? 227) && (n2 =? 128) && (n3 =? 128))%N.

(** [strings.TrimLeftFunc(s, unicode.IsSpace)], and the same from the
    right on the reversed bytes. *)
Fixpoint trim_left (backwards : bool) (l : list Ascii.ascii) : list Ascii.ascii :=
  match l with
  | [] => []
  | c1 :: l1 =>
      if space1 c1 then trim_left backwards l1
      else
        match l1 with
        | [] => l
        | c2 :: l2 =>
            if (if backwards then space2 c2 c1 else space2 c1 c2)
            then trim_left backwards l2
            else
              match l2 with
              | [] => l
              | c3 :: l3 =>
                  if (if backwards then space3 c3 c2 c1 else space3 c1 c2 c3)
                  then trim_left backwards l3
                  else l
              end
        end
  end.

Definition trim_space (l : list Ascii.ascii) : list Ascii.ascii :=
  rev (trim_left true (rev (trim_left false l))).

(** [strings.TrimSpace(s)]. *)
Definition TrimSpace (s : string) : string :=
  String.string_of_list_ascii (trim_space (String.list_ascii_of_string s)).

(** [strings.HasPrefix(s, "#")]. *)
Definition is_comment (s : string) : bool :=
  match s with
  | String c _ => (byte_of c =? 35)%N
  | EmptyString => false
  end.

(** [strings.SplitN(s, "=", 2)]: the text before the first '=' and the
    text after it; [None] when there is no '=' (one part). *)
Fixpoint SplitN2 (s : string) : option (string * string) :=
  match s with
  | EmptyString => None
  | String c rest =>
      if (byte_of c =? 61)%N then Some ("", rest)
      else
        match SplitN2 rest with
        | Some (before, after) => Some (String c before, after)
        | None => None
        end
  end.

(** Lines 121-135: the key and the value a line of the file assigns,
    if it is an assignment. *)
Definition assignment (text : string) : option (string * string) :=
  let line := TrimSpace text in
  if bool_decide (line = "") || is_comment line then None
  else
    match SplitN2 line with
    | Some (before, after) => Some (TrimSpace before, TrimSpace after)
    | None => None
    end.

(** Lines 138-140: the variable is set, unless it has a value already;
    the error of [os.Setenv] is dropped. *)
Definition set_if_unset (key value : string) (env : Env) : Env :=
  if decide (Getenv key env = "") then default env (Setenv key value env) else env.

(** [loadEnvFile(filename)] when opening [filename] gives a file whose
    lines, as the scanner yields them, are [file] ([None]: it cannot be
    opened), on the environment [env]: the environment afterwards. *)
Definition loadEnvFile (file : option (list string)) (env : Env) : Env :=
  match file with
  | None => env
  | Some lines =>
      foldl (λ env text,
               match assignment text with
               | Some (key, value) => set_if_unset key value env
               | None => env
               end) env lines
  end.

Definition getEnvString (key defaultValue : string) (env : Env) : string :=
  let value := Getenv key env in
  if decide (value ≠ "") then value else defaultValue.

(** [strconv.Atoi] on a 64-bit target: an optional sign and one or more
    decimal digits, of a value within the range of [int]. *)
Fixpoint digits (acc : Z) (s : string) : option Z :=
  match s with
  | EmptyString => Some acc
  | String c rest =>
      match digit c with
      | Some d => digits (acc * 10 + d) rest
      | None => None
      end
  end.

Definition in_range (n : Z) : option Z :=
  if (int64_min <=? n) && (n <=? int64_max) then Some n else None.

Definition Atoi (s : string) : option Z :=
  match s with
  | EmptyString => None
  | String c rest =>
      if (byte_of c =? 43)%N then
        if bool_decide (rest = "") then None else digits 0 rest ≫= in_range
      else if (byte_of c =? 45)%N then
        if bool_decide (rest = "") then None
        else digits 0 rest ≫= λ n, in_range (- n)
      else digits 0 s ≫= in_range
  end.

Definition getEnvInt (key : string) (defaultValue : Z) (env : Env) : Z :=
  let value := Getenv key env in
  if decide (value ≠ "") then
    match Atoi value with
    | Some intVal => intVal
    | None => defaultValue
    end
  else defaultValue.

(** [strings.ToLower] as far as the comparisons of [getEnvBool] can
    tell: the letters A to Z are lowered.  (The only other characters
    that Unicode lowers to ASCII letters are U+0130 and U+212A, to i and
    k, which none of "true", "1" and "yes" holds.) *)
Definition lower (c : Ascii.ascii) : Ascii.ascii :=
  let n := byte_of c in
  if ((65 <=? n) && (n <=? 90))%N then Ascii.ascii_of_N (n + 32) else c.

Fixpoint ToLower (s : string) : string :=
  match s with
  | EmptyString => EmptyString
  | String c rest => String (lower c) (ToLower rest)
  end.

Definition getEnvBool (key : string) (defaultValue : bool) (env : Env) : bool :=
  let value := Getenv key env in
  if decide (value ≠ "") then
    let value := ToLower value in
    bool_decide (value = "true") || bool_decide (value = "1")
    || bool_decide (value = "yes")
  else defaultValue.

(** Flags as [flag.Parse] found them on the command line: [None] for a
    flag that was not given. *)
Record Flags := mkFlags {
  flag_input : option string;
  flag_output : option string;
  flag_workers : option Z;
  flag_batch : option Z;
  flag_rate : option Duration;
  flag_smtp : option bool;
  flag_verbose : option bool
}.

Definition dataDir : string := "data".

Section Config.

(** [runtime.NumCPU()] and [time.ParseDuration]. *)
Variable NumCPU : Z.

Variable ParseDuration : string → option Duration.

Definition getEnvDuration (key : string) (defaultValue : Duration) (env : Env)
  : Duration :=
  let value := Getenv key env in
  if decide (value ≠ "") then
    match ParseDuration value with
    | Some duration => duration
    | None => defaultValue
    end
  else defaultValue.

(** [parseConfig()] on the environment [env], the flags [flags] and the
    positional arguments [args] of the command line. *)
Definition parseConfig (env : Env) (flags : Flags) (args : list string) : Config :=
  let defaultWorkers := getEnvInt "WORKERS" (wrap64 (NumCPU * 2)) env in
  let defaultBatchSize := getEnvInt "BATCH_SIZE" 1000 env in
  let defaultRateLimit := getEnvDuration "RATE_LIMIT" (10 * 10 ^ 6) env in
  let defaultEnableSMTP := getEnvBool "ENABLE_SMTP" true env in
  let defaultVerbose := getEnvBool "VERBOSE" false env in
  let defaultInputFile := getEnvString "INPUT_FILE" (dataDir +:+ "/data.json") env in
  let defaultOutputFile :=
    getEnvString "OUTPUT_FILE" (dataDir +:+ "/invalid_emails.json") env in
  let config :=
    mkConfig (default defaultInputFile (flag_input flags))
      (default defaultOutputFile (flag_output flags))
      (default defaultWorkers (flag_workers flags))
      (default defaultBatchSize (flag_batch flags))
      (default defaultRateLimit (flag_rate flags))
      (default defaultEnableSMTP (flag_smtp flags))
      (default defaultVerbose (flag_verbose flags)) in
  let config :=
    match args with
    | input :: _ =>
        mkConfig input (OutputFile config) (Workers config) (BatchSize config)
          (RateLimit config) (EnableSMTP config) (Verbose config)
    | [] => config
    end in
  match args with
  | _ :: output :: _ =>
      mkConfig (InputFile config) output (Workers config) (BatchSize config)
        (RateLimit config) (EnableSMTP config) (Verbose config)
  | _ => config
  end.

End Config.

(** The value a line gives [key], if it is an assignment to [key] that
    [os.Setenv] accepts and that is not empty. *)
Definition gives (key : string) (text : string) : option string :=
  match assignment text with
  | Some (k, v) =>
      if bool_decide (k = key) && bool_decide (v ≠ "")
         && bool_decide (is_Some (Setenv k v ∅))
      then Some v else None
  | None => None
  end.

(** The first such value in the file. *)
Definition file_value (key : string) (lines : list string) : string :=
  default "" (head (omap (gives key) lines)).

(** ** The environment and the .env file *)

(** Whether [os.Setenv] accepts the pair does not depend on the
    environment. *)
Definition accepted (key value : string) : bool :=
  bool_decide (is_Some (Setenv key value ∅)).

(** ** The lines of the .env file *)

(** Blanks: ASCII white space. *)
Definition blank (l : list Ascii.ascii) : Prop := Forall (λ c, space1 c = true) l.

(** A printable ASCII character that is not a space. *)
Definition visible (c : Ascii.ascii) : bool :=
  ((33 <=? byte_of c) && (byte_of c <=? 126))%N.

(** Text that does not start or end with white space, as far as one can
    tell from printable ASCII: its first and its last character are
    visible. *)
Definition tight (l : list Ascii.ascii) : Prop :=
  (∀ c, head l = Some c → visible c = true) ∧ (∀ c, last l = Some c → visible c = true).

Definition no_byte (n : N) (l : list Ascii.ascii) : Prop :=
  Forall (λ c, byte_of c ≠ n) l.

Definition text_of (l : list Ascii.ascii) : string := String.string_of_list_ascii l.

(** The text a setting is read from once the file is loaded: the
    variable of the process, if it is set and not empty, and else the
    first value the file gives it; empty when neither has one. *)
Definition setting (key : string) (lines : list string) (env : Env) : string :=
  if decide (Getenv key env = "") then file_value key lines else Getenv key env.

(** [strings.ToLower(value)] is one of "true", "1" and "yes". *)
Definition truthy (value : string) : bool :=
  bool_decide (ToLower value = "true") || bool_decide (ToLower value = "1")
  || bool_decide (ToLower value = "yes").

(** ** The program (main.go, lines 60-108) *)

(** What the program finds outside itself: whether the data directory
    can be made, the files its paths name, the encoder of JSON strings,
    the clock when the statistics start, when the collector starts and
    when the summary is printed, and the timestamps the writer prints. *)
Record World := mkWorld {
  dir_made : bool;
  fs_open : string → option File;
  fs_create : string → option OutFile;
  json_string : string → string;
  clock_start : Z;
  clock_collector : Z;
  clock_summary : Z;
  stamps : Timestamps
}.

(** How the program ends: one of its three [log.Fatalf], a panic of the
    pipeline, or the summary, with the output file as written. *)
Inductive Exit :=
  | FatalMkdir
  | FatalRead (err : ReadError)
  | FatalWrite (err : WriteError)
  | Panicked (f : Fault)
  | Summary (output : option OutFile) (stats : Stats) (emailsPerSecond : Quotient).

(** Lines 66-108, for the configuration [config] and the schedule
    [acts] of the pipeline: [None] when [acts] is not a whole run (it
    is not enabled, or leaves the pipeline running). *)
Definition main_body (config : Config) (w : World) (acts : list Action)
  : option Exit :=
  if negb (dir_made w) then Some FatalMkdir
  else
    match readEmailsStreaming (fs_open w (InputFile config)) with
    | inl err => Some (FatalRead err)
    | inr emails =>
        let totalEmails := Z.of_nat (length emails) in
        match run totalEmails config acts
                (initial emails config (clock_start w) (clock_collector w)) with
        | None => None
        | Some (_, s) =>
            match fault s with
            | Some f => Some (Panicked f)
            | None =>
                if decide (pc s = DReturned) then
                  match writeResultsStreaming (json_string w)
                          (fs_create w (OutputFile config)) (stamps w)
                          (invalidEmails s) (stats s) with
                  | (Some err, _) => Some (FatalWrite err)
                  | (None, output) =>
                      Some (Summary output (stats s)
                              (emailsPerSecond (stats s) (clock_summary w)))
                  end
                else None
            end
        end
    end.

(** [main()]: the .env file is loaded, the configuration parsed, and
    the rest run with it. *)
Definition main (NumCPU : Z) (ParseDuration : string → option Duration)
    (env_file : option (list string)) (env : Env) (flags : Flags)
    (args : list string) (w : World) (acts : list Action) : option Exit :=
  let env := loadEnvFile env_file env in
  let config := parseConfig NumCPU ParseDuration env flags args in
  main_body config w acts.

(** ** More sample inputs *)

(** The sample run with a batch size of zero, up to the first outcome
    the collector counts. *)
Definition zero_batch_config : Config :=
  mkConfig "data/data.json" "data/invalid_emails.json" 2 0 10000000 true false.

Definition zero_batch_acts : list Action :=
  [ADispatch; AVerify 0 demo_verifier; ASend 0; ACollect].

Definition zero_batch_run : list Event * State :=
  Eval vm_compute in
    default ([], initial demo_emails zero_batch_config 0 0)
      (run 4 zero_batch_config zero_batch_acts
         (initial demo_emails zero_batch_config 0 0)).

(** A worker count below -2^62: doubled, it wraps around to a channel
    size of two, and the loop of line 225 spawns no worker.  The two
    addresses fit the buffer, and the run ends with nothing checked. *)
Definition wrapped_config : Config :=
  mkConfig "data/data.json" "data/invalid_emails.json" (int64_min + 1) 1000
    10000000 true false.

Definition wrapped_emails : list string := ["good@example.com"; "bad-syntax"].

Definition wrapped_acts : list Action :=
  [ADispatch; ADispatch; ACloseJobs; AWaitWorkers; ACloseResults;
   ACollectorExit; AReturn].

Definition wrapped_run : list Event * State :=
  Eval vm_compute in
    default ([], initial wrapped_emails wrapped_config 0 0)
      (run 2 wrapped_config wrapped_acts (initial wrapped_emails wrapped_config 0 0)).

(** No worker at all. *)
Definition no_workers_config : Config :=
  mkConfig "data/data.json" "data/invalid_emails.json" 0 1000 10000000 true false.

(** The sample run with a progress line after every second outcome. *)
Definition batch_config : Config :=
  mkConfig "data/data.json" "data/invalid_emails.json" 2 2 10000000 true false.

Definition batch_run : list Event * State :=
  Eval vm_compute in
    default ([], initial demo_emails batch_config 0 0)
      (run 4 batch_config demo_acts (initial demo_emails batch_config 0 0)).

(** The sample addresses as an input document, after a member the scan
    passes over, with a null among them, and inside the object of an
    earlier member. *)
Definition demo_elements : list (option string) := Some <$> demo_emails.

Definition demo_document : json :=
  JObject ([("version", JNumber "1")]
           ++ ("emails", JArray (element <$> demo_elements)) :: [("count", JNumber "4")]).

Definition null_document : json :=
  JObject ([] ++ ("emails", JArray (element <$> [Some "good@example.com"; None])) :: []).

Definition nested_document : json :=
  JObject ([("version", JNumber "1")]
           ++ ("archive",
               JObject ([("year", JNumber "2024")]
                        ++ ("emails", JArray (element <$> [Some "old@example.com"]))
                           :: []))
              :: [("emails", JArray [JString "good@example.com"])]).


(** A .env file and an environment of the process. *)
Definition demo_env_file : list string :=
  ["# settings"; ""; "  WORKERS = 8  "; "BATCH_SIZE=50"; "WORKERS=16"; "VERBOSE"].

Definition demo_env : Env := <["WORKERS" := "2"]> ∅.


(** * Properties *)

(** ** Lists updated at one index *)

Lemma insert_split {A} (ws : list A) (i : nat) (w w' : A) :
  ws !! i = Some w →
  ∃ l1 l2, ws = l1 ++ w :: l2 ∧ <[i:=w']> ws = l1 ++ w' :: l2.
Proof.
  intros Hi. exists (take i ws), (drop (S i) ws). split.
  - symmetry. by apply take_drop_middle.
  - apply insert_take_drop. by eapply lookup_lt_Some.
Qed.

Lemma holding_app l1 l2 : holding (l1 ++ l2) = holding l1 ++ holding l2.
Proof. unfold holding. apply bind_app. Qed.

Lemma holding_insert ws i w w' :
  ws !! i = Some w →
  held w' ++ holding ws ≡ₚ held w ++ holding (<[i:=w']> ws).
Proof.
  intros (l1 & l2 & -> & ->)%(insert_split _ _ _ w').
  rewrite !holding_app. unfold holding at 2 4. simpl.
  fold (holding l2). solve_Permutation.
Qed.

Lemma active_app l1 l2 : active (l1 ++ l2) = active l1 + active l2.
Proof. unfold active. induction l1 as [|w l1 IH]; simpl; lia. Qed.

Lemma active_insert ws i w w' :
  ws !! i = Some w →
  active (<[i:=w']> ws) = active ws - running w + running w'.
Proof.
  intros (l1 & l2 & -> & ->)%(insert_split _ _ _ w').
  rewrite !active_app. simpl. lia.
Qed.

Lemma active_nonneg ws : 0 ≤ active ws.
Proof. induction ws as [|[] ws IH]; simpl; lia. Qed.

Lemma active_zero ws : active ws = 0 → ∀ w, w ∈ ws → w = WExited.
Proof.
  induction ws as [|w ws IH]; intros H0 w' Hin.
  - by apply elem_of_nil in Hin.
  - simpl in H0. pose proof (active_nonneg ws).
    apply elem_of_cons in Hin as [->|Hin].
    + destruct w; simpl in H0; try lia. done.
    + apply IH; [|done]. destruct w; simpl in H0; lia.
Qed.

Lemma holding_exited ws : (∀ w, w ∈ ws → w = WExited) → holding ws = [].
Proof.
  induction ws as [|w ws IH]; intros H; [done|].
  unfold holding. simpl. rewrite (H w) by apply list_elem_of_here. simpl.
  apply IH. intros w' Hw'. apply H. by apply list_elem_of_further.
Qed.

Lemma active_replicate_idle n : active (replicate n WIdle) = Z.of_nat n.
Proof. induction n as [|n IH]; simpl; [done|]. rewrite IH. lia. Qed.

Lemma holding_replicate_idle n : holding (replicate n WIdle) = [].
Proof. induction n as [|n IH]; [done|]. unfold holding in *. simpl. done. Qed.

Lemma elem_of_insert_inv {A} (l : list A) (i : nat) (x y : A) :
  x ∈ <[i:=y]> l → x = y ∨ x ∈ l.
Proof.
  intros (j & Hj)%list_elem_of_lookup_1.
  apply list_lookup_insert_Some in Hj as [(-> & -> & _)|[_ Hj]];
    [left|right]; eauto using list_elem_of_lookup_2.
Qed.

Lemma active_lookup ws (i : nat) w : ws !! i = Some w → running w ≤ active ws.
Proof.
  intros <-%take_drop_middle. rewrite active_app. simpl.
  pose proof (active_nonneg (take i ws)).
  pose proof (active_nonneg (drop (S i) ws)). lia.
Qed.

Lemma verifyEmail_Email v email verbose : Email (verifyEmail v email verbose).1 = email.
Proof.
  unfold verifyEmail. destruct (v email); [|done].
  by destruct (evaluateResult result).
Qed.

(** ** Wrap-around and counting *)

Lemma wrap64_small z : in_int64 z → wrap64 z = z.
Proof.
  unfold in_int64, int64_min, int64_max, wrap64. intros H.
  rewrite Z.mod_small by lia. lia.
Qed.

Lemma wrap64_succ z : AddInt64 (wrap64 z) 1 = wrap64 (z + 1).
Proof.
  unfold AddInt64, wrap64.
  replace ((z + 2 ^ 63) mod 2 ^ 64 - 2 ^ 63 + 1 + 2 ^ 63)
    with ((z + 2 ^ 63) mod 2 ^ 64 + 1) by lia.
  replace (z + 1 + 2 ^ 63) with ((z + 2 ^ 63) + 1) by lia.
  by rewrite Zplus_mod_idemp_l.
Qed.

Lemma count_valid_snoc rs r :
  count_valid (rs ++ [r]) = count_valid rs + (if IsValid r then 1 else 0).
Proof. unfold count_valid. induction rs as [|r' rs IH]; simpl; repeat case_match; lia. Qed.

Lemma count_invalid_snoc rs r :
  count_invalid (rs ++ [r]) = count_invalid rs + (if IsValid r then 0 else 1).
Proof. unfold count_invalid. induction rs as [|r' rs IH]; simpl; repeat case_match; lia. Qed.

Lemma count_split rs : count_valid rs + count_invalid rs = Z.of_nat (length rs).
Proof.
  induction rs as [|r rs IH]; [done|].
  simpl. destruct (IsValid r); lia.
Qed.

Lemma count_valid_nonneg rs : 0 ≤ count_valid rs.
Proof. induction rs as [|r rs IH]; simpl; [lia|]. destruct (IsValid r); lia. Qed.

Lemma count_invalid_nonneg rs : 0 ≤ count_invalid rs.
Proof. induction rs as [|r rs IH]; simpl; [lia|]. destruct (IsValid r); lia. Qed.

Lemma count_invalid_length rs :
  count_invalid rs = Z.of_nat (length (invalid_list rs)).
Proof.
  induction rs as [|r rs IH]; [done|].
  unfold invalid_list in *. cbn [mbind list_bind count_invalid foldr] in *.
  rewrite length_app. fold (count_invalid rs). rewrite IH.
  unfold invalid_of. destruct (IsValid r); simpl; lia.
Qed.

Lemma invalid_list_snoc rs r : invalid_list (rs ++ [r]) = invalid_list rs ++ invalid_of r.
Proof. unfold invalid_list. rewrite bind_app. simpl. by rewrite app_nil_r. Qed.

Lemma invalid_list_perm rs rs' : rs ≡ₚ rs' → invalid_list rs ≡ₚ invalid_list rs'.
Proof. intros H. unfold invalid_list. by rewrite H. Qed.

Ltac bool_to_Z :=
  repeat match goal with
  | H : (_ <? _) = true |- _ => apply Z.ltb_lt in H
  | H : (_ <? _) = false |- _ => apply Z.ltb_ge in H
  | H : (_ =? _) = true |- _ => apply Z.eqb_eq in H
  | H : (_ =? _) = false |- _ => apply Z.eqb_neq in H
  | H : has_room _ = true |- _ => unfold has_room in H
  | H : has_room _ = false |- _ => unfold has_room in H
  end.

(** Run [tac] on the hypothesis that tells where the stepping worker
    stands. *)
Ltac worker_at tac :=
  match goal with
  | H : workers _ !! _ = Some _ |- _ => tac H
  end.

(** ** The invariant holds along every execution *)

(** The fields of the invariant, by name. *)
Ltac inv_open H :=
  destruct H as [inv_todo0 inv_jobs_fifo0 inv_holding0 inv_results_fifo0
                 inv_stats0 inv_invalid0 inv_sending0 inv_sent_all0 inv_wg0
                 inv_exited0 inv_waited0 inv_results_closed0
                 inv_collector_done0 inv_returned0 inv_jobs_cap0
                 inv_results_cap0 inv_fault0 inv_email0 inv_exits0
                 inv_jobs_closed_ev0 inv_results_closed_ev0].

Ltac inv_open' H :=
  destruct H as [inv_todo1 inv_jobs_fifo1 inv_holding1 inv_results_fifo1
                 inv_stats1 inv_invalid1 inv_sending1 inv_sent_all1 inv_wg1
                 inv_exited1 inv_waited1 inv_results_closed1
                 inv_collector_done1 inv_returned1 inv_jobs_cap1
                 inv_results_cap1 inv_fault1 inv_email1 inv_exits1
                 inv_jobs_closed_ev1 inv_results_closed_ev1].

Section Invariant.

Variable emails : list string.
Variable config : Config.
Variables start t0 : Z.

Local Abbreviation total := (Z.of_nat (length emails)).
Local Abbreviation init := (initial emails config start t0).
Local Abbreviation inv := (Inv emails start).
Local Abbreviation exec := (execution emails config start t0).

(** The worker count is a count, and an [int]. *)
Hypothesis workers_nonneg : 0 ≤ Workers config.
Hypothesis workers_int : in_int64 (Workers config).

Lemma Inv_initial : inv [] init.
Proof.
  unfold initial, processEmails_init, makechan.
  assert (Hsz : ¬ wrap64 (Workers config * 2) < 0 →
                wrap64 (Workers config * 2) = 2 * Workers config).
  { unfold wrap64, in_int64, int64_min, int64_max in *. intros H.
    destruct (decide (Workers config * 2 < 2 ^ 63)).
    - rewrite Z.mod_small by lia. lia.
    - exfalso. apply H.
      replace (Workers config * 2 + 2 ^ 63)
        with (Workers config * 2 - 2 ^ 63 + 1 * 2 ^ 64) by lia.
      rewrite Z_mod_plus_full, Z.mod_small by lia. lia. }
  assert (Hnil : ∀ e : Event, e ∈ @nil Event ↔ false = true).
  { intros e. split; [intros []%elem_of_nil|intros [=]]. }
  assert (Hfaulted :
    Inv emails start []
      (mkState (jobsOf emails) DSend (mkChan [] 0 false) (mkChan [] 0 false) []
         0 CRunning (newStats start) [] t0 (Some ChanSizeOutOfRange))).
  { constructor; simpl; try done; try lia; eauto.
    - intros []%elem_of_nil.
    - split; [intros [=]|intros [[=]|[=]]]. }
  destruct (wrap64 (Workers config * 2) <? 0) eqn:Hneg; [done|]. cbn [orb].
  destruct (_ <? sizeof_EmailJob * _); [done|].
  destruct (_ <? sizeof_EmailResult * _); [done|].
  apply Z.ltb_ge in Hneg. rewrite Hsz by lia.
  constructor; simpl; rewrite ?length_replicate, ?app_nil_r; try done;
    try lia; eauto.
  - by rewrite holding_replicate_idle.
  - rewrite active_replicate_idle. lia.
  - intros ?%elem_of_replicate_inv. done.
  - split; [intros [=]|intros [[=]|[=]]].
Qed.

Lemma Inv_step evs s a e s' :
  inv evs s → step total config a s = Some (e, s') → inv (evs ++ [e]) s'.
Proof.
  intros HI Hstep. inv_open HI. unfold step in Hstep.
  destruct (fault s) eqn:Hf; [done|].
  destruct a; repeat case_match; simplify_eq;
    constructor; simpl;
    unfold enqueued, verified, sent, collected, exited;
    rewrite ?omap_app; simpl; rewrite ?app_nil_r;
    fold (enqueued evs) (verified evs) (sent evs) (collected evs) (exited evs);
    rewrite ?elem_of_app, ?list_elem_of_singleton;
    try done; eauto.
  all: try (intuition congruence).
  all: try (intuition discriminate).
  all: try by rewrite ?fmap_app, <- ?app_assoc.
  all: try by rewrite ?inv_jobs_fifo0, ?inv_results_fifo0, <- ?app_assoc.
  all: bool_to_Z.
  all: try (rewrite ?length_insert, ?length_app in *; simpl in *; lia).
  all: try (worker_at ltac:(fun H => rewrite (active_insert _ _ _ _ H); simpl; lia)).
  all: try (worker_at ltac:(fun H =>
    match goal with
    | |- context [holding (<[_:=?w']> _)] =>
        pose proof (holding_insert _ _ _ w' H) as Hh
    end;
    simpl in Hh; rewrite ?fmap_app; simpl; rewrite inv_holding0;
    first [rewrite <- Hh | rewrite Hh]; solve_Permutation)).
  all: try (intros [?|Hin]%elem_of_insert_inv; [done|];
            apply inv_exited0 in Hin as [? ?]; by simplify_eq).
  all: try (apply Forall_app_2; [done|]; constructor; [|done]; simpl;
            match goal with
            | H : verifyEmail _ _ _ = _ |- _ =>
                apply (f_equal (λ p, Email p.1)) in H;
                by rewrite verifyEmail_Email in H
            end).
  all: try (exfalso; worker_at ltac:(fun H => apply active_lookup in H);
            simpl in *; intuition (try congruence; try lia); fail).
  all: try (worker_at ltac:(fun H => apply active_lookup in H);
            simpl in *; intuition (try congruence; try lia); fail).
  all: try (match goal with H : count _ _ _ = _ |- _ => unfold count in H end;
            simplify_eq; rewrite ?inv_stats0; simpl;
            rewrite ?length_app, ?count_valid_snoc, ?count_invalid_snoc,
              ?invalid_list_snoc, ?inv_invalid0;
            unfold invalid_of; destruct (IsValid _); simpl;
            rewrite ?wrap64_succ, ?Z.add_0_r, ?app_nil_r; try done;
            f_equal; f_equal; lia).
  all: try (match goal with H : report _ _ _ _ _ _ = _ |- _ => unfold report in H end;
            repeat case_match; simplify_eq; eauto; fail).
  rewrite length_insert, H1. simpl in *. lia.
Qed.

Lemma Inv_run acts : ∀ evs s evs' s',
  inv evs s → run total config acts s = Some (evs', s') → inv (evs ++ evs') s'.
Proof.
  induction acts as [|a acts IH]; intros evs s evs' s' HI Hrun; simpl in Hrun.
  - simplify_eq. by rewrite app_nil_r.
  - destruct (step total config a s) as [[e s1]|] eqn:Hstep; [|done].
    destruct (run total config acts s1) as [[es s2]|] eqn:Hrest; [|done].
    simplify_eq. change (e :: es) with ([e] ++ es). rewrite (assoc_L (++)).
    eapply IH; [|done]. by eapply Inv_step.
Qed.

(** Every state an execution reaches satisfies the invariant. *)
Lemma Inv_execution acts evs s : exec acts evs s → inv evs s.
Proof. intros Hrun. apply (Inv_run acts [] init evs s Inv_initial Hrun). Qed.

End Invariant.

(** ** Verdict translation *)

Lemma andb_prop_3 (a b c d : bool) :
  a && b && c && d = true → ((a = true ∧ b = true) ∧ c = true) ∧ d = true.
Proof. by destruct a, b, c, d. Qed.

Lemma eqb_empty_decide (s t : string) :
  String.eqb s t = bool_decide (s = t).
Proof.
  destruct (String.eqb_spec s t) as [->|Hne].
  - by rewrite bool_decide_eq_true_2.
  - by rewrite bool_decide_eq_false_2.
Qed.

(** The code and the ordered rule list give the same verdict. *)
Lemma evaluateResult_first_match r : evaluateResult r = first_match verdict_rules r.
Proof.
  unfold evaluateResult, verdict_rules, first_match, rule_syntax, rule_disposable,
    rule_suggestion, rule_mx, rule_smtp_host, rule_smtp_deliverable,
    rule_smtp_disabled, rule_reachable.
  rewrite !eqb_empty_decide.
  destruct (Valid (res_Syntax r)); simpl; [|done].
  destruct (res_Disposable r); simpl; [done|].
  destruct (decide (res_Suggestion r = "")) as [Hs|Hs].
  2: { by rewrite bool_decide_eq_false_2. }
  rewrite bool_decide_eq_true_2 by done. simpl.
  destruct (res_HasMxRecords r); simpl; [|done].
  destruct (res_SMTP r) as [[[] [] []]|]; simpl; try done;
    destruct (decide (res_Reachable r = "no"));
    by rewrite ?bool_decide_eq_true_2, ?bool_decide_eq_false_2 by done.
Qed.

(** C1. [evaluateResult] applies the seven rules in order and the first
    rule that matches decides: it is the first match of the ordered
    rule list, and, rule by rule, invalid syntax gives "invalid email
    syntax" whatever the other flags are (disposable or not); else a
    disposable address gives "disposable email address"; else a
    non-empty suggestion gives "possible typo, did you mean: " followed
    by the suggestion; else a domain without MX records gives "domain
    has no MX records"; else, with an SMTP sub-result, a host that does
    not exist, then an undeliverable address, then a disabled mailbox,
    in that order; else reachable "no" gives "email is not reachable";
    else the address is valid. *)
Theorem evaluateResult_rules (r : Result) :
  evaluateResult r = first_match verdict_rules r ∧
  (Valid (res_Syntax r) = false →
   evaluateResult r = (false, "invalid email syntax")) ∧
  (Valid (res_Syntax r) = true → res_Disposable r = true →
   evaluateResult r = (false, "disposable email address")) ∧
  (Valid (res_Syntax r) = true → res_Disposable r = false →
   res_Suggestion r ≠ "" →
   evaluateResult r = (false, "possible typo, did you mean: " +:+ res_Suggestion r)) ∧
  (Valid (res_Syntax r) = true → res_Disposable r = false →
   res_Suggestion r = "" → res_HasMxRecords r = false →
   evaluateResult r = (false, "domain has no MX records")) ∧
  (passes_basic r = true →
   (∀ smtp, res_SMTP r = Some smtp → HostExists smtp = false →
      evaluateResult r = (false, "SMTP host does not exist")) ∧
   (∀ smtp, res_SMTP r = Some smtp → HostExists smtp = true →
      Deliverable smtp = false →
      evaluateResult r = (false, "email is not deliverable")) ∧
   (∀ smtp, res_SMTP r = Some smtp → HostExists smtp = true →
      Deliverable smtp = true → Disabled smtp = true →
      evaluateResult r = (false, "mailbox is disabled")) ∧
   (passes_smtp r = true → res_Reachable r = "no" →
      evaluateResult r = (false, "email is not reachable")) ∧
   (passes_smtp r = true → res_Reachable r ≠ "no" →
      evaluateResult r = (true, ""))).
Proof.
  split; [apply evaluateResult_first_match|].
  unfold evaluateResult, passes_basic, passes_smtp. rewrite !eqb_empty_decide.
  split; [by intros ->|].
  split; [by intros -> ->|].
  split; [intros -> -> Hs; by rewrite bool_decide_eq_false_2|].
  split; [by intros -> -> -> ->|].
  intros (((-> & ->%negb_true_iff) & ->) & ->)%andb_prop_3. simpl.
  split; [by intros smtp -> ->|].
  split; [by intros smtp -> -> ->|].
  split; [by intros smtp -> -> -> ->|].
  split.
  - intros Hsmtp ->. destruct (res_SMTP r) as [smtp|]; [|done].
    apply andb_prop in Hsmtp as [[-> ->]%andb_prop ->%negb_true_iff]. done.
  - intros Hsmtp Hno. rewrite bool_decide_eq_false_2 by done.
    destruct (res_SMTP r) as [smtp|]; [|done].
    apply andb_prop in Hsmtp as [[-> ->]%andb_prop ->%negb_true_iff]. done.
Qed.

Lemma evaluateResult_rules_witness :
  evaluateResult (mkResult (mkSyntax false) true "gmail.com" false None "no")
  = (false, "invalid email syntax").
Proof.
  exact (proj1 (proj2 (evaluateResult_rules
    (mkResult (mkSyntax false) true "gmail.com" false None "no"))) eq_refl).
Defined.

(** ** What a run of the pipeline guarantees *)

Lemma jobsOf_length emails : length (jobsOf emails) = length emails.
Proof. unfold jobsOf. apply length_imap. Qed.

Lemma jobsOf_emails emails : job_Email <$> jobsOf emails = emails.
Proof.
  unfold jobsOf. rewrite fmap_imap. simpl.
  induction emails as [|e emails IH] using rev_ind; [done|].
  rewrite imap_app. simpl. by rewrite IH.
Qed.

(** ** Executions exist *)

Section Schedule.
Variable totalEmails : Z.
Variable config : Config.

Lemma run_app acts1 acts2 s :
  run totalEmails config (acts1 ++ acts2) s =
  match run totalEmails config acts1 s with
  | Some (evs1, s1) =>
      match run totalEmails config acts2 s1 with
      | Some (evs2, s2) => Some (evs1 ++ evs2, s2)
      | None => None
      end
  | None => None
  end.
Proof.
  revert s. induction acts1 as [|a acts1 IH]; intros s; simpl.
  - by destruct (run totalEmails config acts2 s) as [[]|].
  - destruct (step totalEmails config a s) as [[e s1]|]; [|done].
    rewrite IH. destruct (run totalEmails config acts1 s1) as [[evs1 s2]|]; [|done].
    by destruct (run totalEmails config acts2 s2) as [[]|].
Qed.

(** *** When each action is enabled, and what it does *)

Lemma step_dispatch s j rest :
  fault s = None → pc s = DSend → todo s = j :: rest →
  closed (jobs s) = false → has_room (jobs s) = true →
  step totalEmails config ADispatch s
  = Some (EvEnqueued j, set_todo rest (set_jobs (chan_push j (jobs s)) s)).
Proof. intros Hf Hpc Ht Hc Hr. unfold step. by rewrite Hf, Hpc, Ht, Hc, Hr. Qed.

Lemma step_close_jobs s :
  fault s = None → pc s = DSend → todo s = [] → closed (jobs s) = false →
  step totalEmails config ACloseJobs s
  = Some (EvJobsClosed, set_pc DWaitWorkers (set_jobs (chan_close (jobs s)) s)).
Proof. intros Hf Hpc Ht Hc. unfold step. by rewrite Hf, Hpc, Ht, Hc. Qed.

Lemma step_verify s id v j rest :
  fault s = None → workers s !! id = Some WIdle → buf (jobs s) = j :: rest →
  step totalEmails config (AVerify id v) s
  = Some (EvVerified id j (verifyEmail v (job_Email j) (Verbose config)).1
            (verifyEmail v (job_Email j) (Verbose config)).2,
          set_worker id (WSending (verifyEmail v (job_Email j) (Verbose config)).1)
            (set_jobs (chan_set_buf rest (jobs s)) s)).
Proof.
  intros Hf Hw Hj. unfold step. rewrite Hf, Hw, Hj.
  by destruct (verifyEmail v (job_Email j) (Verbose config)).
Qed.

Lemma step_send s id r :
  fault s = None → workers s !! id = Some (WSending r) →
  closed (results s) = false → has_room (results s) = true →
  step totalEmails config (ASend id) s
  = Some (EvResultSent id r,
          set_worker id (if 0 <? RateLimit config then WSleeping else WIdle)
            (set_results (chan_push r (results s)) s)).
Proof. intros Hf Hw Hc Hr. unfold step. by rewrite Hf, Hw, Hc, Hr. Qed.

Lemma step_wake s id :
  fault s = None → workers s !! id = Some WSleeping →
  step totalEmails config (AWake id) s = Some (EvSilent, set_worker id WIdle s).
Proof. intros Hf Hw. unfold step. by rewrite Hf, Hw. Qed.

Lemma step_exit s id :
  fault s = None → workers s !! id = Some WIdle →
  buf (jobs s) = [] → closed (jobs s) = true → 0 < wg s →
  step totalEmails config (AExit id) s
  = Some (EvWorkerExit id, set_wg (wg s - 1) (set_worker id WExited s)).
Proof.
  intros Hf Hw Hj Hc Hwg. unfold step. rewrite Hf, Hw, Hj, Hc.
  destruct (wg s - 1 <? 0) eqn:Hneg; [apply Z.ltb_lt in Hneg; lia|done].
Qed.

Lemma step_wait_workers s :
  fault s = None → pc s = DWaitWorkers → wg s = 0 →
  step totalEmails config AWaitWorkers s = Some (EvSilent, set_pc DCloseResults s).
Proof. intros Hf Hpc Hwg. unfold step. by rewrite Hf, Hpc, Hwg. Qed.

Lemma step_close_results s :
  fault s = None → pc s = DCloseResults → closed (results s) = false →
  step totalEmails config ACloseResults s
  = Some (EvResultsClosed,
          set_pc DWaitCollector (set_results (chan_close (results s)) s)).
Proof. intros Hf Hpc Hc. unfold step. by rewrite Hf, Hpc, Hc. Qed.

Lemma step_collect s r rest :
  fault s = None → collector s = CRunning → buf (results s) = r :: rest →
  step totalEmails config ACollect s
  = Some (EvCollected r,
          set_collector (CReporting (count r (stats s) (invalidEmails s)).2)
            (set_aggregate (count r (stats s) (invalidEmails s)).1.1
               (count r (stats s) (invalidEmails s)).1.2 (lastReport s)
               (set_results (chan_set_buf rest (results s)) s))).
Proof.
  intros Hf Hc Hr. unfold step. rewrite Hf, Hc, Hr.
  by destruct (count r (stats s) (invalidEmails s)) as [[] ?].
Qed.

Lemma step_report s checked now :
  fault s = None → collector s = CReporting checked → BatchSize config ≠ 0 →
  ∃ e last,
    step totalEmails config (AReport now) s
    = Some (e, set_collector CRunning
                 (set_aggregate (stats s) (invalidEmails s) last s)).
Proof.
  intros Hf Hc Hb%Z.eqb_neq. unfold step, report. rewrite Hf, Hc, Hb.
  destruct (_ || _); simpl; eauto.
Qed.

Lemma step_collector_exit s :
  fault s = None → collector s = CRunning →
  buf (results s) = [] → closed (results s) = true →
  step totalEmails config ACollectorExit s = Some (EvCollectorExit, set_collector CDone s).
Proof. intros Hf Hc Hr Hcl. unfold step. by rewrite Hf, Hc, Hr, Hcl. Qed.

Lemma step_return s :
  fault s = None → pc s = DWaitCollector → collector s = CDone →
  step totalEmails config AReturn s = Some (EvReturned, set_pc DReturned s).
Proof. intros Hf Hpc Hc. unfold step. by rewrite Hf, Hpc, Hc. Qed.

Local Abbreviation reaches := (reaches totalEmails config).

Lemma reaches_nil s : reaches s [] s.
Proof. by exists []. Qed.

Lemma reaches_cons s a e s1 acts s' :
  step totalEmails config a s = Some (e, s1) → reaches s1 acts s' →
  reaches s (a :: acts) s'.
Proof. intros Hs [evs Hr]. exists (e :: evs). simpl. by rewrite Hs, Hr. Qed.

Lemma reaches_app s acts1 s1 acts2 s' :
  reaches s acts1 s1 → reaches s1 acts2 s' → reaches s (acts1 ++ acts2) s'.
Proof.
  intros [evs1 H1] [evs2 H2]. exists (evs1 ++ evs2). by rewrite run_app, H1, H2.
Qed.

Hypothesis batch_nonzero : BatchSize config ≠ 0.

Ltac enabled :=
  first [ done
        | unfold has_room; apply Z.ltb_lt; cbn; lia ].

Ltac norm_state :=
  cbn [set_todo set_pc set_jobs set_results set_worker set_wg set_collector
       set_aggregate panic chan_push chan_set_buf chan_close
       todo pc jobs results workers wg collector stats invalidEmails lastReport
       fault buf cap closed app insert list_insert fst snd].

Tactic Notation "take_step" uconstr(lem) :=
  eapply reaches_cons; [apply lem; enabled|]; norm_state.

Lemma round_reaches v now j rest size ws n st inv lr :
  0 < size →
  ∃ st' inv' lr',
    reaches
      (mkState (j :: rest) DSend (mkChan [] size false) (mkChan [] size false)
         (WIdle :: ws) n CRunning st inv lr None)
      (round (0 <? RateLimit config) v now)
      (mkState rest DSend (mkChan [] size false) (mkChan [] size false)
         (WIdle :: ws) n CRunning st' inv' lr' None).
Proof.
  intros Hsize. unfold round.
  set (r := (verifyEmail v (job_Email j) (Verbose config)).1).
  pose proof (step_report
    (mkState rest DSend (mkChan [] size false) (mkChan [] size false)
       (WIdle :: ws) n (CReporting (count r st inv).2)
       (count r st inv).1.1 (count r st inv).1.2 lr None)
    _ now eq_refl eq_refl batch_nonzero) as (e & last & Hrep).
  eexists _, _, last.
  take_step (step_dispatch _ j rest).
  take_step (step_verify _ 0%nat v j []). fold r.
  take_step (step_send _ 0%nat r).
  destruct (0 <? RateLimit config) eqn:Hrate; cbn [app].
  - take_step (step_wake _ 0%nat).
    take_step (step_collect _ r []).
    eapply reaches_cons; [exact Hrep|]. norm_state. apply reaches_nil.
  - take_step (step_collect _ r []).
    eapply reaches_cons; [exact Hrep|]. norm_state. apply reaches_nil.
Qed.

Lemma rounds_reaches v now size ws n : 0 < size →
  ∀ todo st inv lr,
  ∃ st' inv' lr',
    reaches
      (mkState todo DSend (mkChan [] size false) (mkChan [] size false)
         (WIdle :: ws) n CRunning st inv lr None)
      (concat (replicate (length todo) (round (0 <? RateLimit config) v now)))
      (mkState [] DSend (mkChan [] size false) (mkChan [] size false)
         (WIdle :: ws) n CRunning st' inv' lr' None).
Proof.
  intros Hsize todo. induction todo as [|j rest IH]; intros st inv lr.
  - eexists _, _, _. apply reaches_nil.
  - cbn [length replicate concat].
    destruct (round_reaches v now j rest size ws n st inv lr Hsize)
      as (st1 & inv1 & lr1 & H1).
    destruct (IH st1 inv1 lr1) as (st2 & inv2 & lr2 & H2).
    eexists _, _, _. eapply reaches_app; [exact H1|exact H2].
Qed.

Lemma insert_exited k m :
  <[k:=WExited]> (replicate k WExited ++ replicate (S m) WIdle)
  = replicate (S k) WExited ++ replicate m WIdle.
Proof.
  rewrite insert_app_r_alt by (rewrite length_replicate; lia).
  rewrite length_replicate, Nat.sub_diag. simpl.
  induction k as [|k IH]; simpl; [done|by rewrite IH].
Qed.

Lemma lookup_exited k m :
  (replicate k WExited ++ replicate (S m) WIdle) !! k = Some WIdle.
Proof. induction k as [|k IH]; [done|]. exact IH. Qed.

Lemma exits_reaches m : ∀ k tds jb rs st inv lr cs p,
  reaches
    (mkState tds p (mkChan [] jb true) rs
       (replicate k WExited ++ replicate m WIdle) (Z.of_nat m) cs st inv lr None)
    (AExit <$> seq k m)
    (mkState tds p (mkChan [] jb true) rs
       (replicate (k + m) WExited) 0 cs st inv lr None).
Proof.
  induction m as [|m IH]; intros k tds jb rs st inv lr cs p.
  - simpl. rewrite app_nil_r, Nat.add_0_r. apply reaches_nil.
  - cbn [seq fmap list_fmap].
    eapply reaches_cons.
    { apply step_exit; cbn [fault workers jobs buf closed wg];
        [done|apply lookup_exited|done|done|lia]. }
    unfold set_wg, set_worker.
    cbn [todo pc jobs results workers wg collector stats invalidEmails
         lastReport fault].
    rewrite insert_exited.
    replace (Z.of_nat (S m) - 1) with (Z.of_nat m) by lia.
    replace (k + S m)%nat with (S k + m)%nat by lia. apply IH.
Qed.

Lemma shutdown_reaches n size st inv lr :
  reaches
    (mkState [] DSend (mkChan [] size false) (mkChan [] size false)
       (replicate n WIdle) (Z.of_nat n) CRunning st inv lr None)
    (shutdown n)
    (mkState [] DReturned (mkChan [] size true) (mkChan [] size true)
       (replicate n WExited) 0 CDone st inv lr None).
Proof.
  unfold shutdown.
  eapply reaches_cons; [by apply step_close_jobs|]. norm_state.
  eapply reaches_app; [apply (exits_reaches n 0)|]. cbn [Nat.add].
  take_step step_wait_workers.
  take_step step_close_results.
  take_step step_collector_exit.
  take_step step_return.
  apply reaches_nil.
Qed.

End Schedule.

(** Every property of the actions taken, the events and the state that
    holds initially and that every step keeps holds along every run. *)
Lemma run_invariant_acts totalEmails config
    (P : list Action → list Event → State → Prop) :
  (∀ acts evs s a e s',
     P acts evs s → step totalEmails config a s = Some (e, s') →
     P (acts ++ [a]) (evs ++ [e]) s') →
  ∀ acts pre evs0 s evs s',
    P pre evs0 s → run totalEmails config acts s = Some (evs, s') →
    P (pre ++ acts) (evs0 ++ evs) s'.
Proof.
  intros Hstep acts. induction acts as [|a acts IH]; intros pre evs0 s evs s' HP Hrun.
  - simpl in Hrun. simplify_eq. by rewrite !app_nil_r.
  - cbn [run] in Hrun.
    destruct (step totalEmails config a s) as [[e s1]|] eqn:Hs; [|done].
    destruct (run totalEmails config acts s1) as [[es s2]|] eqn:Hrest; [|done].
    simplify_eq. change (a :: acts) with ([a] ++ acts).
    change (e :: es) with ([e] ++ es). rewrite !(assoc_L (++)).
    eapply IH; [|done]. by eapply Hstep.
Qed.

(** The initial state when both channels are made, and when one of
    them is not. *)
Lemma safe_workers_value : safe_workers = 2147483648.
Proof. reflexivity. Qed.

Lemma initial_cases emails config start t0 :
  fault (initial emails config start t0) = None ∨
  initial emails config start t0
  = mkState (jobsOf emails) DSend (mkChan [] 0 false) (mkChan [] 0 false) []
      0 CRunning (newStats start) [] t0 (Some ChanSizeOutOfRange).
Proof.
  unfold initial, processEmails_init. repeat case_match; auto.
Qed.

Lemma initial_unfaulted emails config start t0 :
  0 ≤ Workers config → in_int64 (Workers config) →
  fault (initial emails config start t0) = None →
  Workers config * 2 ≤ int64_max ∧
  initial emails config start t0
  = mkState (jobsOf emails) DSend (mkChan [] (Workers config * 2) false)
      (mkChan [] (Workers config * 2) false)
      (replicate (Z.to_nat (Workers config)) WIdle) (Workers config)
      CRunning (newStats start) [] t0 None.
Proof.
  intros H0 H1. unfold initial, processEmails_init, makechan.
  destruct (decide (Workers config * 2 ≤ int64_max)) as [Hfit|Hfit].
  - rewrite wrap64_small by (unfold in_int64, int64_min, int64_max in *; lia).
    repeat case_match; simplify_eq; try done. intros _. split; [done|].
    f_equal. lia.
  - assert (wrap64 (Workers config * 2) < 0) as Hneg.
    { unfold wrap64, in_int64, int64_min, int64_max in *.
      replace (Workers config * 2 + 2 ^ 63)
        with (Workers config * 2 - 2 ^ 63 + 1 * 2 ^ 64) by lia.
      rewrite Z_mod_plus_full, Z.mod_small by lia. lia. }
    apply Z.ltb_lt in Hneg. by rewrite Hneg.
Qed.

Lemma initial_safe emails config start t0 :
  0 ≤ Workers config ≤ safe_workers →
  fault (initial emails config start t0) = None.
Proof.
  rewrite safe_workers_value. intros Hw.
  unfold initial, processEmails_init, makechan.
  rewrite wrap64_small by (unfold in_int64, int64_min, int64_max; lia).
  unfold maxAlloc, hchanSize, sizeof_EmailJob, sizeof_EmailResult.
  destruct (Workers config * 2 <? 0) eqn:H0; [apply Z.ltb_lt in H0; lia|].
  destruct (2 ^ 48 - 96 <? 24 * (Workers config * 2)) eqn:H1;
    [apply Z.ltb_lt in H1; lia|].
  destruct (2 ^ 48 - 96 <? 40 * (Workers config * 2)) eqn:H2;
    [apply Z.ltb_lt in H2; lia|].
  done.
Qed.

Lemma safe_workers_int config :
  0 ≤ Workers config ≤ safe_workers → in_int64 (Workers config).
Proof.
  rewrite safe_workers_value. unfold in_int64, int64_min, int64_max. lia.
Qed.

Lemma initial_made emails config start t0 :
  0 ≤ Workers config ≤ safe_workers →
  initial emails config start t0
  = mkState (jobsOf emails) DSend (mkChan [] (Workers config * 2) false)
      (mkChan [] (Workers config * 2) false)
      (replicate (Z.to_nat (Workers config)) WIdle) (Workers config)
      CRunning (newStats start) [] t0 None.
Proof.
  intros Hw. apply initial_unfaulted; [lia|by apply safe_workers_int|].
  by apply initial_safe.
Qed.

(** A state with a fault takes no step. *)
Lemma faulted_run totalEmails config acts s evs s' :
  fault s ≠ None → run totalEmails config acts s = Some (evs, s') →
  acts = [] ∧ evs = [] ∧ s' = s.
Proof.
  intros Hf Hrun. destruct acts as [|a acts]; simpl in Hrun; [by simplify_eq|].
  unfold step in Hrun. by destruct (fault s).
Qed.

(** A run to completion exists: the sequential schedule, in which worker
    0 takes every job and the collector counts each outcome before the
    next job is sent, then the shutdown. *)
Lemma sequential_schedule_completes emails config start t0 v now :
  0 ≤ Workers config ≤ safe_workers →
  (emails ≠ [] → 0 < Workers config ∧ BatchSize config ≠ 0) →
  ∃ evs s,
    execution emails config start t0 (sequential_schedule config v now emails) evs s
    ∧ completed s.
Proof.
  intros Hw Hne. unfold execution. rewrite initial_made by done.
  unfold sequential_schedule.
  set (T := Z.of_nat (length emails)). set (n := Z.to_nat (Workers config)).
  assert (Hreach : ∃ s, reaches T config
    (mkState (jobsOf emails) DSend (mkChan [] (Workers config * 2) false)
       (mkChan [] (Workers config * 2) false) (replicate n WIdle) (Z.of_nat n)
       CRunning (newStats start) [] t0 None)
    (concat (replicate (length emails) (round (0 <? RateLimit config) v now))
     ++ shutdown n) s ∧ completed s).
  { destruct emails as [|email emails'] eqn:Hemails.
    - eexists. split; [apply shutdown_reaches|done].
    - destruct Hne as [Hpos Hbatch]; [done|].
      destruct n as [|n'] eqn:Hn; [lia|].
      rewrite <- Hemails, <- (jobsOf_length emails).
      destruct (rounds_reaches T config Hbatch v now (Workers config * 2)
                  (replicate n' WIdle) (Z.of_nat (S n')) ltac:(lia)
                  (jobsOf emails) (newStats start) [] t0)
        as (st' & inv' & lr' & H1).
      eexists. split; [|shelve].
      eapply reaches_app; [exact H1|].
      apply (shutdown_reaches T config (S n')). Unshelve. done. }
  destruct Hreach as (s & [evs Hrun] & Hdone).
  replace (Z.of_nat n) with (Workers config) in Hrun by lia. eauto.
Qed.

Section Runs.

Variable emails : list string.
Variable config : Config.
Variables start t0 : Z.

Local Abbreviation total := (Z.of_nat (length emails)).
Local Abbreviation init := (initial emails config start t0).
Local Abbreviation inv := (Inv emails start).
Local Abbreviation exec := (execution emails config start t0).

(** The worker count is a count, and an [int]; a slice has at most
    [int64_max] elements. *)
Hypothesis workers_nonneg : 0 ≤ Workers config.
Hypothesis workers_int : in_int64 (Workers config).
Hypothesis emails_int : Z.of_nat (length emails) ≤ int64_max.

(** No job and no outcome is lost or made up: the outcomes counted so
    far are at most as many as the addresses. *)
Lemma collected_bound acts evs s :
  exec acts evs s → (length (collected evs) ≤ length emails)%nat.
Proof.
  intros HInv%(Inv_execution _ _ _ _ workers_nonneg workers_int). inv_open HInv.
  rewrite <- (jobsOf_length emails), inv_todo0, inv_jobs_fifo0.
  rewrite !length_app, length_fmap, <- (length_fmap snd (verified evs)).
  rewrite inv_holding0, length_app, inv_results_fifo0, length_app. lia.
Qed.

(** When [processEmails] has returned, every queue is empty and every
    worker has returned. *)
Lemma completed_quiet acts evs s :
  exec acts evs s → completed s →
  todo s = [] ∧ buf (jobs s) = [] ∧ buf (results s) = [] ∧
  holding (workers s) = [] ∧ (∀ w, w ∈ workers s → w = WExited).
Proof.
  intros HInv%(Inv_execution _ _ _ _ workers_nonneg workers_int) [Hpc Hf].
  inv_open HInv.
  assert (Hex : ∀ w, w ∈ workers s → w = WExited).
  { apply active_zero. rewrite <- inv_wg0.
    destruct inv_waited0 as [?|[?|?]]; congruence. }
  split_and!; try done.
  - apply inv_sent_all0. congruence.
  - destruct (workers s) as [|w ws] eqn:Hws.
    + simpl in *. destruct (buf (jobs s)); [done|simpl in *; lia].
    + apply inv_exited0. rewrite <- (Hex w) at 1; apply list_elem_of_here.
  - apply inv_collector_done0. auto.
  - by apply holding_exited.
Qed.

(** In a completed run the jobs taken off the job queue are the input
    jobs in input order, and the outcomes counted are their outcomes. *)
Lemma completed_flow acts evs s :
  exec acts evs s → completed s →
  (verified evs).*1 = jobsOf emails ∧
  sent evs = collected evs ∧
  (verified evs).*2 ≡ₚ collected evs.
Proof.
  intros Hexec Hdone.
  destruct (completed_quiet _ _ _ Hexec Hdone) as (Ht & Hj & Hr & Hh & _).
  pose proof (Inv_execution _ _ _ _ workers_nonneg workers_int _ _ _ Hexec) as HInv. inv_open HInv.
  rewrite Ht, app_nil_r in inv_todo0. rewrite Hj, app_nil_r in inv_jobs_fifo0.
  rewrite Hr, app_nil_r in inv_results_fifo0. rewrite Hh, app_nil_r in inv_holding0.
  split_and!; congruence.
Qed.

Lemma rejected_invalid_list outcomes :
  Forall (λ jr, Email jr.2 = job_Email jr.1) outcomes →
  rejected outcomes = invalid_list outcomes.*2.
Proof.
  induction 1 as [|[j r] outcomes Hjr _ IH]; [done|].
  unfold rejected, invalid_list in *. cbn [mbind list_bind fmap list_fmap] in *.
  rewrite IH. unfold invalid_of. simpl in *. by rewrite Hjr.
Qed.

(** With a worker count that is not negative: the outcomes counted are
    a prefix of the outcome stream, total_checked is their number and
    equals total_valid + total_invalid, and when the run is completed
    all three agree with the number of input addresses. *)
Lemma stats_count acts evs s :
  exec acts evs s →
  collected evs `prefix_of` sent evs ∧
  TotalChecked (stats s) = Z.of_nat (length (collected evs)) ∧
  TotalChecked (stats s) = TotalValid (stats s) + TotalInvalid (stats s) ∧
  (completed s →
   TotalChecked (stats s) = Z.of_nat (length emails) ∧
   TotalValid (stats s) + TotalInvalid (stats s) = Z.of_nat (length emails)).
Proof.
  intros Hexec.
  pose proof (collected_bound _ _ _ Hexec) as Hle.
  pose proof (Inv_execution _ _ _ _ workers_nonneg workers_int _ _ _ Hexec) as HInv.
  inv_open HInv.
  pose proof (count_split (collected evs)) as Hsplit.
  pose proof (count_valid_nonneg (collected evs)).
  pose proof (count_invalid_nonneg (collected evs)).
  assert (Hsmall : ∀ z, 0 ≤ z ≤ Z.of_nat (length (collected evs)) → wrap64 z = z).
  { intros z Hz. apply wrap64_small. unfold in_int64, int64_min, int64_max in *. lia. }
  rewrite inv_stats0. simpl. rewrite !Hsmall by lia.
  split; [rewrite inv_results_fifo0; by apply prefix_app_r|].
  split; [done|]. split; [lia|]. intros Hdone.
  destruct (completed_flow _ _ _ Hexec Hdone) as (Hjobs & _ & Hperm).
  assert (length (collected evs) = length emails) as Hlen; [|lia].
  by rewrite <- Hperm, length_fmap, <- (length_fmap fst), Hjobs, jobsOf_length.
Qed.

(** With a worker count that is not negative: total_invalid is the
    length of the list of invalid entries; the jobs taken off the job
    queue are the first of the input, in order; and when the run is
    completed each input address has exactly one outcome, and the list
    holds exactly one entry for each outcome that is invalid. *)
Lemma invalid_count acts evs s :
  exec acts evs s →
  TotalInvalid (stats s) = Z.of_nat (length (invalidEmails s)) ∧
  (verified evs).*1 `prefix_of` jobsOf emails ∧
  (completed s →
   job_Email <$> (verified evs).*1 = emails ∧
   (verified evs).*1 = jobsOf emails ∧
   invalidEmails s ≡ₚ rejected (verified evs)).
Proof.
  intros Hexec. pose proof (collected_bound _ _ _ Hexec) as Hle.
  pose proof (Inv_execution _ _ _ _ workers_nonneg workers_int _ _ _ Hexec) as HInv.
  inv_open HInv.
  pose proof (count_split (collected evs)) as Hsplit.
  pose proof (count_valid_nonneg (collected evs)).
  pose proof (count_invalid_nonneg (collected evs)).
  split_and!.
  - rewrite inv_stats0, inv_invalid0, <- count_invalid_length. cbn [TotalInvalid].
    apply wrap64_small. unfold in_int64, int64_min, int64_max in *. lia.
  - rewrite inv_todo0, inv_jobs_fifo0, <- app_assoc. by apply prefix_app_r.
  - intros Hdone.
    destruct (completed_flow _ _ _ Hexec Hdone) as (Hjobs & _ & Hperm).
    rewrite Hjobs, jobsOf_emails, inv_invalid0, rejected_invalid_list by done.
    split_and!; [done..|]. by apply invalid_list_perm.
Qed.

(** Every property that holds initially and that every step keeps holds
    along every execution. *)
Lemma run_invariant (P : list Event → State → Prop) :
  (∀ evs s a e s', P evs s → step total config a s = Some (e, s') → P (evs ++ [e]) s') →
  ∀ acts evs s evs' s',
    P evs s → run total config acts s = Some (evs', s') → P (evs ++ evs') s'.
Proof.
  intros Hstep acts. induction acts as [|a acts IH]; intros evs s evs' s' HP Hrun.
  - simpl in Hrun. simplify_eq. by rewrite app_nil_r.
  - simpl in Hrun.
    destruct (step total config a s) as [[e s1]|] eqn:Hs; [|done].
    destruct (run total config acts s1) as [[es s2]|] eqn:Hrest; [|done].
    simplify_eq. change (e :: es) with ([e] ++ es). rewrite (assoc_L (++)).
    eapply IH; [|done]. by eapply Hstep.
Qed.

(** The pool has as many workers as the configuration asks for. *)
Lemma workers_count acts evs s :
  exec acts evs s → fault s = None →
  Z.of_nat (length (workers s)) = Workers config.
Proof.
  intros Hexec.
  apply (run_invariant (λ _ s, fault s = None →
           Z.of_nat (length (workers s)) = Workers config)
           ) with (acts := acts) (evs := []) (s := init) (evs' := evs); [| |done].
  - clear. intros _ s a e s' IH Hstep Hf. unfold step in Hstep.
    destruct (fault s) eqn:Hfs; [done|]. specialize (IH eq_refl).
    destruct a; repeat case_match; simplify_eq; simpl in *;
      rewrite ?length_insert; done.
  - unfold initial, processEmails_init. repeat case_match; simpl; try done.
    intros _. rewrite length_replicate. lia.
Qed.

(** C9. In every execution, at every step: the job queue is closed by
    the driver's close(jobs) alone, when every job has been enqueued,
    and nothing is enqueued after it; the result queue is closed by the
    driver's close(results) alone, when every worker has returned, and
    no outcome is sent after it; no send on a closed queue and no
    second close ever happens; and the collector returns only when the
    result queue is closed and every outcome sent has been counted. *)
Theorem shutdown_order acts evs s a e s' :
  exec acts evs s → step total config a s = Some (e, s') →
  (e = EvJobsClosed → a = ACloseJobs ∧ todo s = [] ∧ enqueued evs = jobsOf emails) ∧
  (closed (jobs s') ≠ closed (jobs s) → e = EvJobsClosed) ∧
  (∀ j, e = EvEnqueued j → a = ADispatch ∧ EvJobsClosed ∉ evs) ∧
  (e = EvResultsClosed →
     a = ACloseResults ∧ (∀ w, w ∈ workers s → w = WExited) ∧
     Z.of_nat (length (exited evs)) = Workers config) ∧
  (closed (results s') ≠ closed (results s) → e = EvResultsClosed) ∧
  (∀ id r, e = EvResultSent id r → a = ASend id ∧ EvResultsClosed ∉ evs) ∧
  e ≠ EvPanic SendOnClosedChannel ∧ e ≠ EvPanic CloseOfClosedChannel ∧
  (e = EvCollectorExit →
     EvResultsClosed ∈ evs ∧ buf (results s) = [] ∧ collected evs = sent evs).
Proof.
  intros Hexec Hstep.
  pose proof (Inv_execution _ _ _ _ workers_nonneg workers_int _ _ _ Hexec) as HI.
  assert (HI' : inv (evs ++ [e]) s') by (by eapply Inv_step).
  pose proof (workers_count _ _ _ Hexec) as Hcount.
  inv_open HI. unfold step in Hstep.
  destruct (fault s) eqn:Hf; [done|]. specialize (Hcount eq_refl).
  assert (Hfault : e ≠ EvPanic SendOnClosedChannel ∧ e ≠ EvPanic CloseOfClosedChannel).
  { inv_open' HI'.
    destruct a; repeat case_match; simplify_eq; simpl in *; split; try done;
      intros [=]; subst; destruct inv_fault1 as [?|[?|?]]; simplify_eq. }
  destruct Hfault as [Hf1 Hf2].
  destruct a; repeat case_match; simplify_eq; simpl;
    (split_and!; [| | | | | |done|done|]); try done; try (intros; simplify_eq; fail).
  all: try (intros; simplify_eq; split; [done|]).
  - rewrite inv_jobs_closed_ev0. congruence.
  - split; [done|]. by rewrite inv_todo0, app_nil_r.
  - rewrite inv_results_closed_ev0. congruence.
  - rewrite inv_results_closed_ev0. congruence.
  - assert (wg s = 0) as Hwg by (destruct inv_waited0 as [?|[?|?]]; congruence).
    split; [|lia]. apply active_zero. congruence.
  - intros _. split_and!; [by apply inv_results_closed_ev0|done|].
    by rewrite inv_results_fifo0, app_nil_r.
Qed.


End Runs.

(** ** Runs in which no job is taken off the job queue *)

Lemma quiet_step totalEmails config start acts evs s a e s' :
  quiet start acts evs s → step totalEmails config a s = Some (e, s') →
  quiet start (acts ++ [a]) (evs ++ [e]) s'.
Proof.
  intros (Hidle & Hw & Hbuf & Hver & Hsent & Hcol & Hstats & Hinv & Ha1 & Ha2
          & Hrep & Hp & Hz & Hf) Hstep.
  unfold step in Hstep. destruct (fault s) eqn:Hfs; [done|].
  assert (Hlook : ∀ id w, workers s !! id = Some w → w = WIdle ∨ w = WExited).
  { intros id w Hl. by eapply (Forall_lookup_1 _ _ _ _ Hw). }
  assert (Hevs : ∀ f : Event → option EmailResult, f e = None →
                 ∀ l, omap f evs = l → omap f (evs ++ [e]) = l).
  { intros f He l <-. rewrite omap_app. simpl. rewrite He. by rewrite app_nil_r. }
  assert (Hnot : ∀ x : Action, x ∉ acts → x ≠ a → x ∉ acts ++ [a]).
  { intros x H1 H2. rewrite elem_of_app, list_elem_of_singleton. by intros [?|?]. }
  assert (Hnote : ∀ x : Event, x ∉ evs → x ≠ e → x ∉ evs ++ [e]).
  { intros x H1 H2. rewrite elem_of_app, list_elem_of_singleton. by intros [?|?]. }
  unfold quiet, verified, sent, collected in *.
  destruct a; repeat case_match; simplify_eq; simpl in *;
    try (by destruct Hidle as [Hnil|[? ?]];
           [rewrite Hnil in *; simplify_eq|simplify_eq]);
    try (by match goal with
            | H : workers s !! _ = Some _ |- _ => destruct (Hlook _ _ H)
            end);
    try (exfalso; by eapply Hrep).
  all: rewrite ?omap_app; simpl; rewrite ?Hver, ?Hsent, ?Hcol.
  all: split_and!; try done; try (apply Hnot; [auto|done]);
    try (intros; apply Hnot; [auto|done]);
    try (apply Hnote; [auto|done]); try (intros; apply Hnote; [auto|done]).
  all: try (by rewrite Hfs).
  all: try (apply Forall_insert; [done|by right]).
  all: try (destruct Hidle as [Hnil|[? ?]];
            [by (left || (rewrite Hnil in *; simplify_eq))|right; split; congruence]).
  - destruct Hidle as [Hnil|[? ?]]; [by rewrite Hnil in *|by right].
  - intros checked. congruence.
Qed.

Lemma quiet_initial emails config start t0 :
  Workers config ≤ 0 ∨ emails = [] →
  quiet start [] [] (initial emails config start t0).
Proof.
  intros Hcase. unfold initial, processEmails_init, makechan, quiet.
  assert (Hnil : ∀ x : Action, x ∉ @nil Action) by (intros x; apply not_elem_of_nil).
  assert (Hnile : ∀ x : Event, x ∉ @nil Event) by (intros x; apply not_elem_of_nil).
  repeat case_match; simplify_eq; simpl; split_and!; try done; auto.
  - destruct Hcase as [Hw| ->]; [left|by right].
    by replace (Z.to_nat (Workers config)) with 0%nat by lia.
  - apply Forall_replicate. by left.
Qed.

(** With no worker, or on no address, every execution is quiet. *)
Lemma quiet_execution emails config start t0 acts evs s :
  Workers config ≤ 0 ∨ emails = [] →
  execution emails config start t0 acts evs s → quiet start acts evs s.
Proof.
  intros Hcase Hexec.
  apply (run_invariant_acts (Z.of_nat (length emails)) config (quiet start))
    with (acts := acts) (pre := []) (evs0 := []) (s := initial emails config start t0)
         (evs := evs).
  - intros. by eapply quiet_step.
  - by apply quiet_initial.
  - done.
Qed.

(** ** The statistics and the list of invalid entries *)

(** C3. At every point of an execution the outcomes the collector has
    counted are a prefix of the outcome stream and total_checked is
    their number and equals total_valid + total_invalid; when a run
    with a worker count that is not negative is completed, all three
    agree with the number of input addresses.  Runs that complete
    exist: for a worker count from zero to [safe_workers], with at
    least one worker and a batch size that is not zero (or with no
    address at all), the sequential schedule is one. *)
Theorem stats_add_up emails config start t0 acts evs s :
  in_int64 (Workers config) → Z.of_nat (length emails) ≤ int64_max →
  execution emails config start t0 acts evs s →
  collected evs `prefix_of` sent evs ∧
  TotalChecked (stats s) = Z.of_nat (length (collected evs)) ∧
  TotalChecked (stats s) = TotalValid (stats s) + TotalInvalid (stats s) ∧
  (0 ≤ Workers config → completed s →
   TotalChecked (stats s) = Z.of_nat (length emails) ∧
   TotalValid (stats s) + TotalInvalid (stats s) = Z.of_nat (length emails)) ∧
  (0 ≤ Workers config ≤ safe_workers →
   (emails ≠ [] → 0 < Workers config ∧ BatchSize config ≠ 0) →
   ∀ v now, ∃ evs' s',
     execution emails config start t0 (sequential_schedule config v now emails)
       evs' s' ∧ completed s').
Proof.
  intros Hint Hn Hexec.
  rewrite !(assoc (∧)). split.
  2: { intros Hw Hne v now. by apply sequential_schedule_completes. }
  rewrite <- !(assoc (∧)).
  destruct (decide (0 ≤ Workers config)) as [Hw|Hw].
  - destruct (stats_count emails config start t0 Hw Hint Hn acts evs s Hexec)
      as (H1 & H2 & H3 & H4).
    by split_and!.
  - destruct (quiet_execution emails config start t0 acts evs s ltac:(left; lia) Hexec)
      as (_ & _ & _ & _ & Hsent & Hcol & Hstats & _).
    rewrite Hcol, Hsent, Hstats. by split_and!.
Qed.

(** C4. At every point of an execution total_invalid is the length of
    the list of invalid entries, and no job is taken off the job queue
    twice: the jobs taken are the first of the input, in order.  When
    the run is completed the list holds exactly one entry, with the
    address and the reason, for each outcome that is invalid, and
    nothing else; and, the worker count not being negative, each input
    address has exactly one outcome.  Runs that complete exist: for a
    worker count from zero to [safe_workers], with at least one worker
    and a batch size that is not zero when there is an address, the
    sequential schedule is one. *)
Theorem invalid_list_exact emails config start t0 acts evs s :
  in_int64 (Workers config) → Z.of_nat (length emails) ≤ int64_max →
  execution emails config start t0 acts evs s →
  TotalInvalid (stats s) = Z.of_nat (length (invalidEmails s)) ∧
  (verified evs).*1 `prefix_of` jobsOf emails ∧
  (completed s →
   invalidEmails s ≡ₚ rejected (verified evs) ∧
   (0 ≤ Workers config →
    job_Email <$> (verified evs).*1 = emails ∧
    (verified evs).*1 = jobsOf emails)) ∧
  (0 ≤ Workers config ≤ safe_workers →
   (emails ≠ [] → 0 < Workers config ∧ BatchSize config ≠ 0) →
   ∀ v now, ∃ evs' s',
     execution emails config start t0 (sequential_schedule config v now emails)
       evs' s' ∧ completed s').
Proof.
  intros Hint Hn Hexec.
  rewrite !(assoc (∧)). split.
  2: { intros Hw Hne v now. by apply sequential_schedule_completes. }
  rewrite <- !(assoc (∧)).
  destruct (decide (0 ≤ Workers config)) as [Hw|Hw].
  - destruct (invalid_count emails config start t0 Hw Hint Hn acts evs s Hexec)
      as (H1 & H2 & H3).
    split_and!; try done. intros Hdone. destruct (H3 Hdone) as (H4 & H5 & H6).
    by split.
  - destruct (quiet_execution emails config start t0 acts evs s ltac:(left; lia) Hexec)
      as (_ & _ & _ & Hver & _ & _ & Hstats & Hinv & _).
    rewrite Hver, Hstats, Hinv. split_and!; try done.
    apply prefix_nil.
Qed.

(** ** The streaming reader *)

Lemma estimatedCapacity_bounds size : 100 ≤ estimatedCapacity size ≤ 10000000.
Proof. unfold estimatedCapacity. repeat case_match; lia. Qed.

(** The allocation of line 401 never panics. *)
Lemma make_strings_estimate size : make_strings 0 (estimatedCapacity size) = Some [].
Proof.
  pose proof (estimatedCapacity_bounds size). unfold make_strings.
  destruct (0 <=? estimatedCapacity size) eqn:H0; [done|]. apply Z.leb_gt in H0. lia.
Qed.

Lemma tokens_object ms :
  tokens (JObject ms) = TDelim LBrace :: (ms ≫= member_tokens) ++ [TDelim RBrace].
Proof.
  cbn [tokens]. f_equal. f_equal.
  induction ms as [|[k v] ms IH]; [done|].
  cbn [mbind list_bind member_tokens fst snd]. rewrite <- IH. done.
Qed.

Lemma tokens_strings es :
  tokens (JArray (JString <$> es)) = TDelim LBracket :: (TString <$> es) ++ [TDelim RBracket].
Proof.
  cbn [tokens]. f_equal. f_equal.
  induction es as [|e es IH]; [done|]. cbn [fmap list_fmap tokens app]. by rewrite <- IH.
Qed.

Lemma readArray_strings es : ∀ emails rest,
  readArray emails ((TString <$> es) ++ TDelim RBracket :: rest)
  = inr (emails ++ es, TDelim RBracket :: rest).
Proof.
  induction es as [|e es IH]; intros emails rest.
  - simpl. by rewrite app_nil_r.
  - cbn [fmap list_fmap app readArray More decodeString].
    rewrite IH. by rewrite <- app_assoc.
Qed.

Lemma scan_plain_member m emails rest :
  plain_member m →
  scanForEmails emails (member_tokens m ++ rest) = scanForEmails emails rest.
Proof.
  destruct m as [k v]. intros (Hk & Hs & Hv & Hr). simpl in *.
  unfold member_tokens. cbn [fst snd app scanForEmails More readable negb].
  rewrite decide_False by congruence.
  destruct v; try done; cbn [tokens app scanForEmails More first_token] in *;
    rewrite ?Hr; cbn [readable negb]; rewrite decide_False by congruence; done.
Qed.

Lemma scan_plain_members ms emails rest :
  Forall plain_member ms →
  scanForEmails emails ((ms ≫= member_tokens) ++ rest) = scanForEmails emails rest.
Proof.
  induction 1 as [|m ms Hm _ IH]; [done|].
  cbn [mbind list_bind]. rewrite <- app_assoc, scan_plain_member by done. apply IH.
Qed.

(** Where the scan works as intended: when every member before "emails"
    is plain, the addresses are returned in order, whatever follows. *)
Lemma readEmails_plain size before es after :
  Forall plain_member before →
  readEmailsStreaming
    (Some (mkFile size (JObject (before ++ ("emails", JArray (JString <$> es)) :: after))))
  = inr es.
Proof.
  intros Hplain. unfold readEmailsStreaming. cbn [file_size file_doc].
  rewrite make_strings_estimate.
  rewrite tokens_object. cbn [readable negb]. rewrite decide_False by (by intros []).
  rewrite bind_app, <- app_assoc, scan_plain_members by done.
  cbn [mbind list_bind]. unfold member_tokens at 1. cbn [fst snd].
  rewrite tokens_strings.
  cbn [app scanForEmails More readable negb]. rewrite decide_True by done.
  rewrite decide_False by (by intros []).
  rewrite <- !app_assoc. cbn [app]. rewrite readArray_strings. done.
Qed.

(** With no "emails" member, and only plain members, the list is
    empty and there is no error. *)
Lemma readEmails_plain_absent size ms :
  Forall plain_member ms →
  readEmailsStreaming (Some (mkFile size (JObject ms))) = inr [].
Proof.
  intros Hplain. unfold readEmailsStreaming. cbn [file_size file_doc].
  rewrite make_strings_estimate.
  rewrite tokens_object. cbn [readable negb]. rewrite decide_False by (by intros []).
  rewrite scan_plain_members by done. done.
Qed.

(** C6. The pre-allocation hint is file_size / 35 clamped to the
    interval from 100 to 10,000,000: it lies in that interval for every
    size, a 1-byte file gives 100 and a 10 GB file 10,000,000; the
    allocation it sizes never panics, and what the reader returns does
    not depend on it. *)
Theorem estimatedCapacity_clamped :
  (∀ size,
     estimatedCapacity size = Z.max 100 (Z.min 10000000 (Z.quot size 35)) ∧
     100 ≤ estimatedCapacity size ≤ 10000000 ∧
     make_strings 0 (estimatedCapacity size) = Some []) ∧
  estimatedCapacity 1 = 100 ∧
  estimatedCapacity (10 * 1024 * 1024 * 1024) = 10000000 ∧
  estimatedCapacity (10 * 1000 * 1000 * 1000) = 10000000 ∧
  (∀ size1 size2 doc,
     readEmailsStreaming (Some (mkFile size1 doc))
     = readEmailsStreaming (Some (mkFile size2 doc))).
Proof.
  split_and!; try done.
  - intros size. split_and!.
    + unfold estimatedCapacity. repeat case_match; lia.
    + apply estimatedCapacity_bounds.
    + apply estimatedCapacity_bounds.
    + apply make_strings_estimate.
  - intros size1 size2 doc. unfold readEmailsStreaming. cbn [file_size file_doc].
    by rewrite !make_strings_estimate.
Qed.

(** C5, at documents where it fails. The claim: whatever precedes the
    "emails" member, its strings are returned.  The code: when a member
    whose value is an object or an array comes first, the scan stops at
    the end of that value, and the reader returns no address and no
    error. *)
Theorem readEmails_nested_member_first size :
  readEmailsStreaming (Some (mkFile size doc_object_first)) = inr [] ∧
  readEmailsStreaming (Some (mkFile size doc_array_first)) = inr [].
Proof.
  unfold readEmailsStreaming. cbn [file_size file_doc].
  rewrite make_strings_estimate. split; reflexivity.
Qed.

(** C10, at a document where it fails. The claim: with no member named
    "emails" the reader returns an empty list and no error.  The code:
    a string value that reads "emails" is taken for the key, and the
    reader fails on the token that follows it. *)
Theorem readEmails_emails_value size :
  readEmailsStreaming (Some (mkFile size doc_emails_value))
  = inl (ExpectedArrayStart (TDelim RBrace)).
Proof.
  unfold readEmailsStreaming. cbn [file_size file_doc].
  rewrite make_strings_estimate. reflexivity.
Qed.

(** ** The streaming writer *)

Lemma len_app p q : len (p ++ q) = len p + len q.
Proof. unfold len. rewrite length_app. lia. Qed.

Lemma len_nonneg p : 0 ≤ len p.
Proof. unfold len. lia. Qed.

Lemma len_nil_inv p : len p = 0 → p = [].
Proof. unfold len. destruct p; [done|simpl; lia]. Qed.

Lemma len_take n p : 0 ≤ n → len (take (Z.to_nat n) p) = Z.min n (len p).
Proof. intros Hn. unfold len. rewrite length_take. lia. Qed.

Lemma len_drop n p : 0 ≤ n → len (drop (Z.to_nat n) p) = Z.max 0 (len p - n).
Proof. intros Hn. unfold len. rewrite length_drop. lia. Qed.




















Lemma writeInvalidEmails_inr enc total invalidEmails : ∀ i b,
  ∃ b', writeInvalidEmails enc total i invalidEmails b = inr b'.
Proof.
  induction invalidEmails as [|email rest IH]; intros i b; [by eexists|].
  cbn [writeInvalidEmails Marshal]. apply IH.
Qed.

(** Whatever happens to the writes, the function returns nil once the
    file is created. *)
Lemma writeResultsStreaming_nil enc file times invalidEmails stats :
  (writeResultsStreaming enc (Some file) times invalidEmails stats).1 = None.
Proof.
  unfold writeResultsStreaming.
  match goal with
  | |- context [writeInvalidEmails ?e ?t ?i ?l ?b] =>
      destruct (writeInvalidEmails_inr e t l i b) as [b' ->]
  end.
  done.
Qed.

(** C7, where it fails. The claim: an error is returned when the file
    cannot be created, and also whenever a write fails partway.  The
    code: the first holds; but on a device with ten bytes left the
    deferred flush fails, ten bytes of the document reach the file, and
    the function returns nil. *)
Theorem writeResultsStreaming_write_failure :
  (∀ enc times invalidEmails stats,
     writeResultsStreaming enc None times invalidEmails stats
     = (Some FailedToCreate, None)) ∧
  writeResultsStreaming fmt_q (Some nearly_full) sample_times sample_invalid sample_stats
  = (None,
     Some (mkOutFile
             (take 10 (document fmt_q sample_times sample_invalid sample_stats)) 0)) ∧
  10 < len (document fmt_q sample_times sample_invalid sample_stats).
Proof. split_and!; [done|by vm_compute|by vm_compute]. Qed.

(** ** The run on no address, and what is written after it *)




(** ** The claims on a sample run *)

Lemma demo_execution :
  execution demo_emails demo_config 0 0 demo_acts demo_run.1 demo_run.2.
Proof. by vm_compute. Qed.

Lemma demo_execution_before :
  execution demo_emails demo_config 0 0 demo_acts_before demo_before.1 demo_before.2.
Proof. by vm_compute. Qed.


Lemma demo_workers : 0 ≤ Workers demo_config ∧ in_int64 (Workers demo_config).
Proof. by vm_compute. Qed.

Lemma demo_emails_int : Z.of_nat (length demo_emails) ≤ int64_max.
Proof. by vm_compute. Qed.

Lemma demo_completed : completed demo_run.2.
Proof. by vm_compute. Qed.

Lemma stats_add_up_witness :
  TotalChecked (stats demo_run.2) = 4 ∧
  TotalValid (stats demo_run.2) + TotalInvalid (stats demo_run.2) = 4.
Proof.
  exact (proj1 (proj2 (proj2 (proj2
    (stats_add_up demo_emails demo_config 0 0 demo_acts demo_run.1 demo_run.2
       (proj2 demo_workers) demo_emails_int demo_execution))))
    (proj1 demo_workers) demo_completed).
Defined.

(** Where C3 fails as it is stated: with a worker count of -2^63 + 1 the
    run on two addresses is completed and nothing has been checked. *)
Lemma stats_short_of_input :
  execution wrapped_emails wrapped_config 0 0 wrapped_acts wrapped_run.1
    wrapped_run.2 ∧
  completed wrapped_run.2 ∧
  TotalChecked (stats wrapped_run.2) = 0 ∧
  TotalChecked (stats wrapped_run.2) ≠ Z.of_nat (length wrapped_emails).
Proof. by vm_compute. Qed.

Lemma invalid_list_exact_witness :
  invalidEmails demo_run.2 ≡ₚ rejected (verified demo_run.1) ∧
  (job_Email <$> (verified demo_run.1).*1 = demo_emails ∧
   (verified demo_run.1).*1 = jobsOf demo_emails).
Proof.
  destruct (proj1 (proj2 (proj2
    (invalid_list_exact demo_emails demo_config 0 0 demo_acts demo_run.1 demo_run.2
       (proj2 demo_workers) demo_emails_int demo_execution))) demo_completed)
    as [Hlist Hall].
  exact (conj Hlist (Hall (proj1 demo_workers))).
Defined.

Lemma shutdown_order_witness :
  (∀ w, w ∈ workers demo_before.2 → w = WExited) ∧
  Z.of_nat (length (exited demo_before.1)) = Workers demo_config.
Proof.
  refine (proj2 (proj1 (proj2 (proj2 (proj2
    (shutdown_order demo_emails demo_config 0 0 (proj1 demo_workers)
       (proj2 demo_workers) demo_acts_before demo_before.1 demo_before.2
       ACloseResults EvResultsClosed _ demo_execution_before _)))) eq_refl)).
  by vm_compute.
Defined.




(** ** The number of steps of a run *)

Lemma sleeps_cases config : sleeps config = 0 ∨ sleeps config = 1.
Proof. unfold sleeps. case_match; auto. Qed.

Lemma pool_steps_app config l1 l2 :
  pool_steps config (l1 ++ l2) = pool_steps config l1 + pool_steps config l2.
Proof. unfold pool_steps. induction l1 as [|w l1 IH]; simpl; lia. Qed.

Lemma pool_steps_insert config ws i w w' :
  ws !! i = Some w →
  pool_steps config (<[i:=w']> ws)
  = pool_steps config ws - worker_steps config w + worker_steps config w'.
Proof.
  intros (l1 & l2 & -> & ->)%(insert_split _ _ _ w').
  rewrite !pool_steps_app. simpl. lia.
Qed.

Lemma pool_steps_nonneg config ws : 0 ≤ pool_steps config ws.
Proof.
  destruct (sleeps_cases config).
  all: induction ws as [|[] ws IH]; simpl; lia.
Qed.

Lemma pool_steps_replicate_idle config n :
  pool_steps config (replicate n WIdle) = Z.of_nat n.
Proof. induction n as [|n IH]; simpl; [done|]. rewrite IH. lia. Qed.

Lemma pool_steps_exited config ws :
  (∀ w, w ∈ ws → w = WExited) → pool_steps config ws = 0.
Proof.
  induction ws as [|w ws IH]; intros H; [done|]. simpl.
  rewrite (H w) by apply list_elem_of_here. rewrite IH; [done|].
  intros w' Hin. apply H. by apply list_elem_of_further.
Qed.

Lemma steps_left_nonneg config s : 0 ≤ steps_left config s.
Proof.
  unfold steps_left. pose proof (pool_steps_nonneg config (workers s)).
  destruct (sleeps_cases config).
  all: destruct (pc s), (collector s), (fault s); simpl; lia.
Qed.

(** Every step uses up exactly one. *)
Lemma steps_left_step totalEmails config a s e s' :
  step totalEmails config a s = Some (e, s') →
  steps_left config s' + 1 = steps_left config s.
Proof.
  intros Hstep. unfold step in Hstep.
  destruct (fault s) eqn:Hf; [done|].
  destruct (0 <? RateLimit config) eqn:Hrate.
  all: destruct a; repeat case_match; simplify_eq.
  all: unfold steps_left, sleeps; simpl; rewrite Hf, Hrate.
  all: rewrite ?length_app; simpl.
  all: try (worker_at ltac:(fun H => rewrite (pool_steps_insert _ _ _ _ _ H)); simpl).
  all: repeat match goal with H : pc _ = _ |- _ => rewrite H end.
  all: repeat match goal with H : collector _ = _ |- _ => rewrite H end.
  all: repeat match goal with H : todo _ = _ |- _ => rewrite H end.
  all: repeat match goal with H : buf _ = _ |- _ => rewrite H end.
  all: simpl; unfold sleeps; rewrite ?Hrate; lia.
Qed.

Lemma steps_left_run totalEmails config acts : ∀ s evs s',
  run totalEmails config acts s = Some (evs, s') →
  steps_left config s' + Z.of_nat (length acts) = steps_left config s.
Proof.
  induction acts as [|a acts IH]; intros s evs s' Hrun; cbn [run] in Hrun.
  - simplify_eq. simpl. lia.
  - destruct (step totalEmails config a s) as [[e s1]|] eqn:Hstep; [|done].
    destruct (run totalEmails config acts s1) as [[es s2]|] eqn:Hrest; [|done].
    simplify_eq. apply steps_left_step in Hstep. apply IH in Hrest.
    rewrite length_cons. lia.
Qed.

(** ** Runs are never stuck *)

Lemma pool_cases (ws : list WorkerState) :
  (∃ id r, ws !! id = Some (WSending r)) ∨ (∃ id, ws !! id = Some WSleeping) ∨
  (∃ id, ws !! id = Some WIdle) ∨ (∀ w, w ∈ ws → w = WExited).
Proof.
  induction ws as [|w ws IH].
  - do 3 right. by intros w ?%elem_of_nil.
  - destruct w as [|r| |].
    + right. right. left. by exists 0%nat.
    + left. by exists 0%nat, r.
    + right. left. by exists 0%nat.
    + destruct IH as [(id & r & H)|[(id & H)|[(id & H)|H]]].
      * left. by exists (S id), r.
      * right. left. by exists (S id).
      * right. right. left. by exists (S id).
      * do 3 right. intros w [->|?]%elem_of_cons; auto.
Qed.

Lemma active_exited ws : (∀ w, w ∈ ws → w = WExited) → active ws = 0.
Proof.
  induction ws as [|w ws IH]; intros H; [done|]. simpl.
  rewrite (H w) by apply list_elem_of_here. rewrite IH; [done|].
  intros w' Hin. apply H. by apply list_elem_of_further.
Qed.

Ltac inv_fields H :=
  destruct H as [I_todo I_jobs_fifo I_holding I_results_fifo I_stats I_invalid
                 I_sending I_sent_all I_wg I_exited I_waited I_results_closed
                 I_collector_done I_returned I_jobs_cap I_results_cap I_fault
                 I_email I_exits I_jobs_closed_ev I_results_closed_ev].

Section Enabled.

Variable emails : list string.

Variable config : Config.

Variables start t0 : Z.

Local Abbreviation total := (Z.of_nat (length emails)).

Local Abbreviation exec := (execution emails config start t0).

Hypothesis workers_nonneg : 0 ≤ Workers config.

Hypothesis workers_int : in_int64 (Workers config).

Hypothesis workers_some : emails ≠ [] → 0 < Workers config.

Lemma step_enabled acts evs s :
  exec acts evs s → fault s = None → pc s ≠ DReturned →
  ∃ a e s', step total config a s = Some (e, s').
Proof.
  intros Hexec Hf Hpc.
  pose proof (Inv_execution _ _ _ _ workers_nonneg workers_int _ _ _ Hexec) as HI.
  inv_fields HI.
  pose proof (workers_count _ _ _ _ workers_nonneg _ _ _ Hexec Hf) as Hcount.
  assert (Hroom : ∀ id w, workers s !! id = Some w → 0 < cap (jobs s)).
  { intros id w Hw%lookup_lt_Some. lia. }
  assert (Hactive : ∀ id w, workers s !! id = Some w → w ≠ WExited → 0 < wg s).
  { intros id w Hw Hne. apply active_lookup in Hw. destruct w; simpl in *; try done; lia. }
  assert (Hopen : 0 < wg s → closed (results s) = false).
  { intros Hwg. apply not_true_is_false. intros Hc.
    apply I_results_closed in Hc.
    destruct I_waited as [?|[?|?]], Hc; (congruence || lia). }
  destruct (collector s) as [|checked|] eqn:Hcol.
  - destruct (buf (results s)) as [|r rest] eqn:Hres.
    2: { eexists ACollect, _, _. by apply step_collect. }
    destruct (pool_cases (workers s)) as [(id & r & H)|[(id & H)|[(id & H)|H]]].
    + eexists (ASend id), _, _. apply step_send; [done|done|..].
      * eapply Hopen, Hactive; done.
      * unfold has_room. rewrite Hres. apply Z.ltb_lt. simpl.
        destruct I_results_cap as [-> _]. by eapply Hroom.
    + eexists (AWake id), _, _. by apply step_wake.
    + destruct (buf (jobs s)) as [|j rest] eqn:Hjobs.
      2: { eexists (AVerify id (λ _, VerifyErr "")), _, _. by eapply step_verify. }
      destruct (closed (jobs s)) eqn:Hcl.
      * eexists (AExit id), _, _. apply step_exit; try done. by eapply Hactive.
      * assert (pc s = DSend) as Hsend.
        { destruct (decide (pc s = DSend)) as [|Hne]; [done|].
          apply I_sent_all in Hne as [? _]. congruence. }
        destruct (todo s) as [|j rest] eqn:Htodo.
        -- eexists ACloseJobs, _, _. by apply step_close_jobs.
        -- eexists ADispatch, _, _. eapply step_dispatch; try done.
           unfold has_room. rewrite Hjobs. apply Z.ltb_lt. simpl. by eapply Hroom.
    + assert (wg s = 0) as Hwg by (rewrite I_wg; by apply active_exited).
      destruct (pc s) eqn:Hp; [| | | |done].
      * assert (workers s = []) as Hws.
        { destruct (workers s) as [|w ws] eqn:Hws; [done|].
          destruct I_exited as [Hc _].
          { rewrite <- (H w) at 1; apply list_elem_of_here. }
          rewrite I_sending in Hc; done. }
        assert (emails = []) as Hem.
        { destruct emails as [|x l]; [done|]. rewrite Hws in Hcount. simpl in Hcount.
          specialize (workers_some ltac:(done)). lia. }
        eexists ACloseJobs, _, _. apply step_close_jobs; auto.
        rewrite Hem in I_todo. symmetry in I_todo.
        by apply app_eq_nil in I_todo as [_ ?].
      * eexists AWaitWorkers, _, _. by apply step_wait_workers.
      * eexists ACloseResults, _, _. apply step_close_results; try done.
        apply not_true_is_false. intros Hc.
        apply I_results_closed in Hc as [?|?]; congruence.
      * eexists ACollectorExit, _, _. apply step_collector_exit; try done.
        apply I_results_closed. auto.
  - exists (AReport 0). unfold step. rewrite Hf, Hcol.
    destruct (report _ _ _ _ _ _) as [f|[[p|] last]]; eauto.
  - eexists AReturn, _, _. apply step_return; try done.
    destruct (I_collector_done eq_refl) as [Hc _].
    apply I_results_closed in Hc as [?|?]; done.
Qed.

End Enabled.

(** The two states a pipeline with a worker count that is not negative
    starts from: the channels made, or the panic of [make], which takes
    more than [safe_workers] workers. *)
Lemma initial_shape emails config start t0 :
  0 ≤ Workers config → in_int64 (Workers config) →
  (fault (initial emails config start t0) = None ∧
   initial emails config start t0
   = mkState (jobsOf emails) DSend (mkChan [] (Workers config * 2) false)
       (mkChan [] (Workers config * 2) false)
       (replicate (Z.to_nat (Workers config)) WIdle) (Workers config)
       CRunning (newStats start) [] t0 None) ∨
  (safe_workers < Workers config ∧
   initial emails config start t0
   = mkState (jobsOf emails) DSend (mkChan [] 0 false) (mkChan [] 0 false) []
       0 CRunning (newStats start) [] t0 (Some ChanSizeOutOfRange)).
Proof.
  intros H0 H1. destruct (initial_cases emails config start t0) as [Hf|Hinit].
  - left. split; [done|]. by apply initial_unfaulted.
  - right. split; [|done].
    destruct (decide (Workers config ≤ safe_workers)) as [Hm|Hm]; [|lia].
    pose proof (initial_safe emails config start t0 (conj H0 Hm)) as Hf.
    by rewrite Hinit in Hf.
Qed.

Section Liveness.

Variable emails : list string.
Variable config : Config.
Variables start t0 : Z.

Local Abbreviation total := (Z.of_nat (length emails)).
Local Abbreviation init := (initial emails config start t0).
Local Abbreviation exec := (execution emails config start t0).

Hypothesis workers_nonneg : 0 ≤ Workers config.
Hypothesis workers_fit : Workers config * 2 ≤ int64_max.

Lemma workers_in_int64 : in_int64 (Workers config).
Proof. unfold in_int64, int64_min, int64_max in *. lia. Qed.

Local Abbreviation workers_int := workers_in_int64.

(** A property that holds initially, and that every step from a state
    satisfying the invariant keeps, holds along every execution. *)
Lemma exec_invariant (P : list Event → State → Prop) :
  P [] init →
  (∀ evs s a e s',
     Inv emails start evs s → P evs s → step total config a s = Some (e, s') →
     P (evs ++ [e]) s') →
  ∀ acts evs s, exec acts evs s → P evs s.
Proof.
  intros H0 Hstep acts evs s Hexec.
  apply (run_invariant emails config (λ evs s, Inv emails start evs s ∧ P evs s))
    with (acts := acts) (evs := []) (s := init) (evs' := evs) (s' := s); [| |done].
  - intros evs1 s1 a e s2 [HI HP] Hs. split.
    + by eapply Inv_step.
    + by eapply Hstep.
  - split; [|done]. apply Inv_initial; [done|apply workers_int].
Qed.

(** When [make] panics nothing happens. *)
Lemma faulted_execution acts evs s :
  exec acts evs s → fault init ≠ None → acts = [] ∧ evs = [] ∧ s = init.
Proof. intros Hexec Hf. by eapply faulted_run. Qed.

Lemma steps_left_initial :
  steps_left config init ≤ (5 + sleeps config) * total + Workers config + 6 ∧
  (fault init = None →
   steps_left config init = (5 + sleeps config) * total + Workers config + 6).
Proof.
  destruct (initial_shape emails config start t0 workers_nonneg workers_int)
    as [[_ ->]|[_ ->]]; unfold steps_left; simpl;
    rewrite jobsOf_length, ?pool_steps_replicate_idle; split; try done; lia.
Qed.

Lemma steps_left_completed acts evs s :
  exec acts evs s → completed s → steps_left config s = 1.
Proof.
  intros Hexec Hdone.
  destruct (completed_quiet _ _ _ _ workers_nonneg workers_int _ _ _ Hexec Hdone)
    as (Ht & Hj & Hr & _ & Hw).
  pose proof (Inv_execution _ _ _ _ workers_nonneg workers_int _ _ _ Hexec) as HI.
  inv_fields HI. destruct Hdone as [Hpc Hf].
  unfold steps_left. rewrite Ht, Hj, Hr, Hpc, Hf, (I_returned Hpc).
  rewrite pool_steps_exited by done. simpl. lia.
Qed.

(** X1. The number of steps of a run is bounded by the input: a job costs
    five steps (six when the workers are rate-limited), a worker one,
    the shutdown five and a panic one; and a completed run takes
    exactly that many, whatever the interleaving. *)
Theorem pipeline_step_count acts evs s :
  exec acts evs s →
  Z.of_nat (length acts) ≤ (5 + sleeps config) * total + Workers config + 6 ∧
  (completed s →
   Z.of_nat (length acts) = (5 + sleeps config) * total + Workers config + 5).
Proof.
  intros Hexec. pose proof Hexec as Hrun. apply steps_left_run in Hrun.
  destruct steps_left_initial as [Hle Heq].
  pose proof (steps_left_nonneg config s). split; [lia|].
  intros Hdone. rewrite (steps_left_completed _ _ _ Hexec Hdone) in Hrun.
  rewrite Heq in Hrun; [lia|].
  destruct (fault init) eqn:Hf; [|done].
  destruct (faulted_execution _ _ _ Hexec) as (_ & _ & ->); [by rewrite Hf|].
  destruct Hdone as [_ Hnone]. by rewrite Hf in Hnone.
Qed.

End Liveness.

Lemma panics_nil evs f : panics evs = [] → EvPanic f ∉ evs.
Proof.
  intros Hp Hin. assert (f ∈ panics evs) as Hf; [|rewrite Hp in Hf; by apply elem_of_nil in Hf].
  unfold panics. apply list_elem_of_omap. by exists (EvPanic f).
Qed.

Lemma collected_snoc evs e : collected (evs ++ [e]) = collected evs ++ collected_of e.
Proof. unfold collected. rewrite omap_app. by destruct e. Qed.

Section Unfaulted.

Variable emails : list string.
Variable config : Config.
Variables start t0 : Z.

Local Abbreviation init := (initial emails config start t0).
Local Abbreviation exec := (execution emails config start t0).

(** Both channels were made. *)
Hypothesis workers_nonneg : 0 ≤ Workers config.
Hypothesis workers_int : in_int64 (Workers config).
Hypothesis channels_made : fault init = None.

Lemma unfaulted_fit : Workers config * 2 ≤ int64_max.
Proof.
  by destruct (initial_unfaulted emails config start t0 workers_nonneg workers_int
                 channels_made).
Qed.

(** The only panic a run can end in is the division by a zero batch
    size, and it is the last thing that happens. *)
Lemma fault_cases acts evs s :
  exec acts evs s →
  (fault s = None ∧ panics evs = []) ∨
  (BatchSize config = 0 ∧ fault s = Some IntegerDivideByZero).
Proof.
  apply (exec_invariant emails config start t0 workers_nonneg unfaulted_fit
    (λ evs s,
      (fault s = None ∧ panics evs = []) ∨
      (BatchSize config = 0 ∧ fault s = Some IntegerDivideByZero))).
  { by left. }
  intros evs1 s1 a e s2 HI HP Hs.
  assert (HI' : Inv emails start (evs1 ++ [e]) s2) by (by eapply Inv_step).
  inv_fields HI'.
  unfold step in Hs. destruct (fault s1) eqn:Hf; [done|].
  destruct HP as [[_ Hp]|[_ ?]]; [|done].
  unfold panics in *. rewrite omap_app, Hp.
  destruct a; repeat case_match; simplify_eq; simpl in *; auto.
  all: try (destruct I_fault as [?|[?|?]]; simplify_eq; fail).
  match goal with H : report _ _ _ _ _ _ = _ |- _ => unfold report in H end.
  repeat case_match; simplify_eq. right. split; [|done]. by apply Z.eqb_eq.
Qed.


End Unfaulted.

Section Made.

Variable emails : list string.
Variable config : Config.
Variables start t0 : Z.

Local Abbreviation total := (Z.of_nat (length emails)).
Local Abbreviation init := (initial emails config start t0).
Local Abbreviation exec := (execution emails config start t0).

(** The worker count is one both channels are made for. *)
Hypothesis workers_nonneg : 0 ≤ Workers config.
Hypothesis workers_made : Workers config ≤ safe_workers.

Lemma workers_made_fit : Workers config * 2 ≤ int64_max.
Proof. rewrite safe_workers_value in workers_made. unfold int64_max. lia. Qed.

Local Abbreviation workers_int :=
  (workers_in_int64 config workers_nonneg workers_made_fit).

Lemma made_fault_cases acts evs s :
  exec acts evs s →
  (fault s = None ∧ panics evs = []) ∨
  (BatchSize config = 0 ∧ fault s = Some IntegerDivideByZero).
Proof.
  apply fault_cases; [done|apply workers_int|].
  apply initial_safe. by split.
Qed.

Lemma no_fault acts evs s :
  BatchSize config ≠ 0 → exec acts evs s → fault s = None.
Proof.
  intros Hb Hexec. by destruct (made_fault_cases _ _ _ Hexec) as [[Hf _]|[? _]].
Qed.

(** X2. For a worker count from zero to [safe_workers], for which both
    channels are made, and a batch size that is not zero, no run panics:
    no state has a fault and no event is a panic, so no [make] out of
    range, no send on a closed queue, no second close and no division
    by zero ever happens. *)
Theorem pipeline_never_panics acts evs s :
  BatchSize config ≠ 0 → execution emails config start t0 acts evs s →
  fault s = None ∧ panics evs = [] ∧ ∀ f, EvPanic f ∉ evs.
Proof.
  intros Hb Hexec. destruct (made_fault_cases _ _ _ Hexec) as [[Hf Hp]|[? _]]; [|done].
  split_and!; [done..|]. intros f. by apply panics_nil.
Qed.

Lemma exec_snoc acts evs s a e s' :
  exec acts evs s → step total config a s = Some (e, s') →
  exec (acts ++ [a]) (evs ++ [e]) s'.
Proof.
  unfold execution. intros Hrun Hstep. rewrite run_app, Hrun. simpl. by rewrite Hstep.
Qed.

Lemma exec_app acts evs s acts' evs' s' :
  exec acts evs s → run total config acts' s = Some (evs', s') →
  exec (acts ++ acts') (evs ++ evs') s'.
Proof. unfold execution. intros Hrun Hrest. by rewrite run_app, Hrun, Hrest. Qed.

Hypothesis workers_some : emails ≠ [] → 0 < Workers config.

Lemma completion_reachable_aux (n : nat) : ∀ acts evs s,
  BatchSize config ≠ 0 → exec acts evs s → steps_left config s ≤ Z.of_nat n →
  ∃ acts' evs' s', exec (acts ++ acts') (evs ++ evs') s' ∧ completed s'.
Proof.
  induction n as [|n IH]; intros acts evs s Hb Hexec Hn.
  - pose proof (no_fault _ _ _ Hb Hexec) as Hf.
    unfold steps_left in Hn. rewrite Hf in Hn.
    pose proof (pool_steps_nonneg config (workers s)).
    destruct (sleeps_cases config); destruct (pc s), (collector s); simpl in Hn; lia.
  - pose proof (no_fault _ _ _ Hb Hexec) as Hf.
    destruct (decide (pc s = DReturned)) as [Hpc|Hpc].
    { exists [], [], s. rewrite !app_nil_r. by split. }
    destruct (step_enabled _ _ _ _ workers_nonneg workers_int workers_some
                _ _ _ Hexec Hf Hpc) as (a & e & s1 & Hstep).
    pose proof (steps_left_step _ _ _ _ _ _ Hstep) as Hdec.
    destruct (IH (acts ++ [a]) (evs ++ [e]) s1 Hb) as (acts' & evs' & s' & Hex' & Hdone).
    { by eapply exec_snoc. }
    { lia. }
    exists (a :: acts'), (e :: evs'), s'. split; [|done].
    by rewrite <- !(assoc_L (++)) in Hex'.
Qed.

(** X3. For a worker count from zero to [safe_workers], for which both
    channels are made, with at least one worker when there is an
    address: a run that has not panicked and has not returned is never
    stuck, and with a batch size that is not zero it can always be
    carried on to completion. *)
Theorem pipeline_never_stuck acts evs s :
  exec acts evs s →
  (fault s = None → ¬ completed s → ∃ a e s', step total config a s = Some (e, s')) ∧
  (BatchSize config ≠ 0 →
   ∃ acts' evs' s', exec (acts ++ acts') (evs ++ evs') s' ∧ completed s').
Proof.
  intros Hexec. split.
  - intros Hf Hnot. eapply step_enabled; try done; [apply workers_int|].
    intros Hpc. by apply Hnot.
  - intros Hb. pose proof (steps_left_nonneg config s).
    apply (completion_reachable_aux (Z.to_nat (steps_left config s)) acts evs s);
      [done..|lia].
Qed.

End Made.

Section ZeroBatch.

Variable emails : list string.
Variable config : Config.
Variables start t0 : Z.

Local Abbreviation total := (Z.of_nat (length emails)).
Local Abbreviation init := (initial emails config start t0).
Local Abbreviation exec := (execution emails config start t0).

Hypothesis workers_nonneg : 0 ≤ Workers config.
Hypothesis workers_made : Workers config ≤ safe_workers.
Hypothesis batch_zero : BatchSize config = 0.

Local Abbreviation workers_fit :=
  (workers_made_fit config workers_made).

Lemma zero_batch_collected acts evs s :
  exec acts evs s → (∀ c, collector s ≠ CReporting c) → collected evs = [].
Proof.
  apply (exec_invariant emails config start t0 workers_nonneg workers_fit
    (λ evs s, (∀ c, collector s ≠ CReporting c) → collected evs = [])); [done|].
  intros evs1 s1 a e s2 _ IH Hs. unfold step in Hs.
  destruct (fault s1) eqn:Hf; [done|].
  unfold collected in *. rewrite omap_app.
  destruct a; repeat case_match; simplify_eq; simpl in *; rewrite ?app_nil_r;
    try (by apply IH); try (intros Hc; by destruct (Hc _)).
  all: try (intros _; apply IH; congruence).
  all: try (match goal with H : report _ _ _ _ _ _ = _ |- _ => unfold report in H end;
    by rewrite batch_zero in * ).
  all: intros Hc; exfalso; by eapply Hc.
Qed.

(** X4. For a worker count from zero to [safe_workers], for which both
    channels are made: with a batch size of zero and at least one
    address the run never completes; the progress test after an
    outcome is counted divides by zero and panics; and with at least
    one worker that panic is the only way the run stops. *)
Theorem zero_batch_panics acts evs s :
  emails ≠ [] → exec acts evs s →
  ¬ completed s ∧
  (∀ checked now,
     fault s = None → collector s = CReporting checked →
     step total config (AReport now) s
     = Some (EvPanic IntegerDivideByZero, panic IntegerDivideByZero s)) ∧
  (0 < Workers config → (∀ a, step total config a s = None) →
   fault s = Some IntegerDivideByZero).
Proof.
  intros Hne Hexec.
  pose proof (workers_in_int64 config workers_nonneg workers_fit) as workers_int.
  assert (Hnot : ¬ completed s).
  { intros Hdone.
    destruct (completed_flow _ _ _ _ workers_nonneg workers_int _ _ _ Hexec Hdone)
      as (Hjobs & _ & Hperm).
    pose proof (Inv_execution _ _ _ _ workers_nonneg workers_int _ _ _ Hexec) as HI.
    inv_fields HI. destruct Hdone as [Hpc _].
    rewrite (zero_batch_collected _ _ _ Hexec) in Hperm.
    2: { intros c. rewrite (I_returned Hpc). done. }
    apply Permutation_nil_r, fmap_nil_inv in Hperm. rewrite Hperm in Hjobs.
    apply (f_equal length) in Hjobs. rewrite jobsOf_length in Hjobs.
    by destruct emails. }
  split_and!; [done| |].
  - intros checked now Hf Hc. unfold step, report. by rewrite Hf, Hc, batch_zero.
  - intros Hw Hstuck.
    destruct (made_fault_cases _ _ _ _ workers_nonneg workers_made _ _ _ Hexec)
      as [[Hf _]|[_ Hf]]; [|done].
    destruct (step_enabled emails config start t0 workers_nonneg workers_int
                ltac:(done) _ _ _ Hexec Hf) as (a & e & s' & Hstep).
    { intros Hpc. by apply Hnot. }
    by rewrite Hstuck in Hstep.
Qed.

End ZeroBatch.

(** X5. With a worker count of zero or less no address is ever verified
    or counted: at every point of every run the statistics are those
    of the start and the list of invalid entries is empty.  When
    moreover the doubled count does not wrap around (the count is at
    least -2^62) and there is an address, no step is ever enabled and
    the run never completes: a negative count panics in [make], and
    with a count of zero the driver's first send blocks for good. *)
Theorem no_workers_no_run emails config start t0 acts evs s :
  Workers config ≤ 0 →
  execution emails config start t0 acts evs s →
  verified evs = [] ∧ sent evs = [] ∧ collected evs = [] ∧
  stats s = newStats start ∧ invalidEmails s = [] ∧
  (int64_min ≤ Workers config * 2 → emails ≠ [] →
   acts = [] ∧ ¬ completed s ∧
   fault s = (if Workers config <? 0 then Some ChanSizeOutOfRange else None)).
Proof.
  intros Hw Hexec.
  destruct (quiet_execution emails config start t0 acts evs s ltac:(by left) Hexec)
    as (_ & _ & _ & Hver & Hsent & Hcol & Hstats & Hinv & _).
  split_and!; try done. intros Hmin Hne.
  unfold execution, initial, processEmails_init, makechan in Hexec.
  rewrite wrap64_small in Hexec by (unfold in_int64, int64_min, int64_max in *; lia).
  unfold maxAlloc, hchanSize, sizeof_EmailJob, sizeof_EmailResult in Hexec.
  replace (Workers config * 2 <? 0) with (Workers config <? 0) in Hexec.
  2: { destruct (Workers config <? 0) eqn:H1; symmetry; [apply Z.ltb_lt|apply Z.ltb_ge];
       bool_to_Z; lia. }
  destruct emails as [|email rest]; [done|].
  destruct (Workers config <? 0) eqn:Hneg.
  - cbn [orb] in Hexec. destruct acts as [|a acts].
    + simpl in Hexec. simplify_eq. split_and!; try done. by intros [? ?].
    + by unfold step in Hexec.
  - apply Z.ltb_ge in Hneg. replace (Workers config) with 0 in Hexec by lia.
    destruct acts as [|a acts].
    + simpl in Hexec. simplify_eq. split_and!; try done. by intros [? ?].
    + exfalso. cbn [run] in Hexec.
      destruct a; simpl in Hexec; try done.
      all: by destruct id.
Qed.

(** ** Progress lines *)

Lemma progress_snoc evs e : progress (evs ++ [e]) = progress evs ++ progress_of e.
Proof. unfold progress. rewrite omap_app. by destruct e. Qed.

Lemma Inv_collected_bound emails start evs s :
  Inv emails start evs s → (length (collected evs) ≤ length emails)%nat.
Proof.
  intros HI. inv_fields HI.
  rewrite <- (jobsOf_length emails), I_todo, I_jobs_fifo.
  rewrite !length_app, length_fmap, <- (length_fmap snd (verified evs)).
  rewrite I_holding, length_app, I_results_fifo, length_app. lia.
Qed.

Lemma count_invalid_le rs : 0 ≤ count_invalid rs ≤ Z.of_nat (length rs).
Proof. induction rs as [|r rs IH]; simpl; [lia|]. destruct (IsValid r); lia. Qed.


Section ProgressLines.

Variable emails : list string.

Variable config : Config.

Variables start t0 : Z.

Local Abbreviation total := (Z.of_nat (length emails)).

Local Abbreviation init := (initial emails config start t0).

Local Abbreviation exec := (execution emails config start t0).

Hypothesis workers_nonneg : 0 ≤ Workers config.

Hypothesis workers_fit : Workers config * 2 ≤ int64_max.

Hypothesis emails_int : Z.of_nat (length emails) ≤ int64_max.

Lemma progress_ok_mono n n' p :
  n ≤ n' → n' ≤ total → progress_ok total n p → progress_ok total n' p.
Proof. unfold progress_ok. lia. Qed.

Ltac open_progress :=
  split; unfold reported; rewrite ?collected_snoc, ?progress_snoc;
  cbn [collected_of progress_of collector set_todo set_pc set_jobs set_results
       set_worker set_wg set_collector set_aggregate panic];
  rewrite ?app_nil_r.

Lemma ProgressInv_execution acts evs s :
  exec acts evs s → ProgressInv config total evs s.
Proof.
  apply (exec_invariant emails config start t0 workers_nonneg workers_fit
           (ProgressInv config total)).
  { destruct (initial_shape emails config start t0 workers_nonneg
                (workers_in_int64 config workers_nonneg workers_fit))
      as [[_ ->]|[_ ->]]; split; simpl; try done; try constructor;
      unfold reported; simpl; lia. }
  intros evs1 s1 a e s2 HI [Hc Hok Hsort Hbatch] Hs.
  assert (HI2 : Inv emails start (evs1 ++ [e]) s2) by (by eapply Inv_step).
  pose proof (Inv_collected_bound _ _ _ _ HI) as Hle.
  pose proof (Inv_collected_bound _ _ _ _ HI2) as Hle2.
  inv_fields HI. clear HI2.
  unfold step in Hs. destruct (fault s1) eqn:Hf; [done|].
  unfold reported in Hok, Hbatch.
  destruct a.
  9: { (* ACollect *)
    destruct (collector s1) eqn:Hcol; try done.
    destruct (buf (results s1)) as [|r rest] eqn:Hres; [done|].
    unfold count in Hs. simplify_eq.
    rewrite collected_snoc in Hle2. cbn [collected_of] in Hle2.
    rewrite length_app in Hle2. cbn [length] in Hle2.
    open_progress; rewrite ?length_app; cbn [length];
      rewrite ?Z.sub_0_r in *;
      replace (Z.of_nat (length (collected evs1) + 1) - 1)
        with (Z.of_nat (length (collected evs1))) by lia; try done.
    intros c [= <-]. split; [|by destruct (collected evs1)].
    destruct (IsValid r); cbn [TotalChecked]; rewrite I_stats; cbn [TotalChecked];
      rewrite wrap64_succ; (rewrite wrap64_small; [lia|]);
      unfold in_int64, int64_min, int64_max in *; lia. }
  9: { (* AReport *)
    destruct (collector s1) as [|checked|] eqn:Hcol; try done.
    destruct (Hc _ eq_refl) as [-> Hne].
    assert (0 < Z.of_nat (length (collected evs1))) as Hpos.
    { destruct (collected evs1); [done|]. simpl. lia. }
    unfold report in Hs.
    destruct (BatchSize config =? 0) eqn:Hb.
    { simplify_eq. open_progress; by rewrite ?Hcol. }
    destruct (_ || _) eqn:Hprint; simplify_eq.
    - assert (Hnew : progress_ok total (Z.of_nat (length (collected evs1)))
        (mkProgress (Z.of_nat (length (collected evs1))) total
           (TotalInvalid (stats s1)) (now - StartTime (stats s1)))).
      { unfold progress_ok. cbn [p_checked p_total p_invalid].
        rewrite I_stats. cbn [TotalInvalid].
        pose proof (count_invalid_le (collected evs1)).
        rewrite wrap64_small by (unfold in_int64, int64_min, int64_max in *; lia).
        lia. }
      open_progress; rewrite ?Z.sub_0_r.
      + done.
      + apply Forall_app_2; [|constructor; [|done]]; [|done].
        eapply Forall_impl; [done|]. intros p Hp.
        eapply progress_ok_mono; [| |done]; lia.
      + apply StronglySorted_app_2; [|done|repeat constructor].
        intros p q Hp ->%list_elem_of_singleton. cbn [p_checked].
        rewrite Forall_forall in Hok. destruct (Hok p Hp) as [? _]. lia.
      + intros m Hm Hrem.
        destruct (decide (m = Z.of_nat (length (collected evs1)))) as [->|].
        * eexists. split; [apply elem_of_app; right; apply list_elem_of_here|done].
        * destruct (Hbatch m) as (p & ? & ?); [lia|done|].
          exists p. split; [|done]. apply elem_of_app. by left.
    - open_progress; rewrite ?Z.sub_0_r.
      + done.
      + eapply Forall_impl; [done|]. intros p Hp.
        eapply progress_ok_mono; [| |done]; lia.
      + done.
      + intros m Hm Hrem.
        destruct (decide (m = Z.of_nat (length (collected evs1)))) as [->|].
        * apply orb_false_iff in Hprint as [Hr%Z.eqb_neq _]. done.
        * apply Hbatch; [lia|done]. }
  all: repeat case_match; simplify_eq.
  all: open_progress; try done.
  all: repeat match goal with H : collector _ = _ |- _ => rewrite H in * end; done.
Qed.

End ProgressLines.

(** ** The flow of jobs and outcomes *)

Lemma verified_snoc evs e : verified (evs ++ [e]) = verified evs ++ verified_of e.
Proof. unfold verified. rewrite omap_app. by destruct e. Qed.

Lemma exited_snoc evs e : exited (evs ++ [e]) = exited evs ++ exited_of e.
Proof. unfold exited. rewrite omap_app. by destruct e. Qed.

Lemma evaluateResult_reason r :
  ((evaluateResult r).1 = true ∧ (evaluateResult r).2 = "") ∨
  ((evaluateResult r).1 = false ∧ (evaluateResult r).2 ≠ "").
Proof.
  unfold evaluateResult.
  repeat case_match; simpl; auto.
Qed.

Lemma verifyEmail_reason v email verbose : reason_ok (verifyEmail v email verbose).1.
Proof.
  unfold verifyEmail, reason_ok.
  destruct (v email) as [result|err]; simpl; [|by right].
  pose proof (evaluateResult_reason result) as H.
  destruct (evaluateResult result) as [valid reason]. by simpl in *.
Qed.

Lemma holding_length ws : (length (holding ws) ≤ length ws)%nat.
Proof.
  induction ws as [|w ws IH]; [done|].
  change (holding (w :: ws)) with (held w ++ holding ws).
  rewrite length_app. destruct w; simpl; lia.
Qed.

Section Flow.

Variable emails : list string.

Variable config : Config.

Variables start t0 : Z.

Local Abbreviation total := (Z.of_nat (length emails)).

Local Abbreviation init := (initial emails config start t0).

Local Abbreviation exec := (execution emails config start t0).

Hypothesis workers_nonneg : 0 ≤ Workers config.

Hypothesis workers_fit : Workers config * 2 ≤ int64_max.

Local Abbreviation workers_int := (workers_in_int64 config workers_nonneg workers_fit).

Lemma workers_length acts evs s :
  exec acts evs s → Z.of_nat (length (workers s)) ≤ Workers config.
Proof.
  apply (exec_invariant emails config start t0 workers_nonneg workers_fit
           (λ _ s, Z.of_nat (length (workers s)) ≤ Workers config)).
  { destruct (initial_shape emails config start t0 workers_nonneg workers_int)
      as [[_ ->]|[_ ->]]; simpl; rewrite ?length_replicate; lia. }
  intros evs1 s1 a e s2 _ IH Hs. unfold step in Hs.
  destruct (fault s1); [done|].
  destruct a; repeat case_match; simplify_eq; simpl; by rewrite ?length_insert.
Qed.

Lemma verified_reasons acts evs s :
  exec acts evs s → Forall (λ jr, reason_ok jr.2) (verified evs).
Proof.
  apply (exec_invariant emails config start t0 workers_nonneg workers_fit
           (λ evs _, Forall (λ jr, reason_ok jr.2) (verified evs))).
  { constructor. }
  intros evs1 s1 a e s2 _ IH Hs. unfold step in Hs.
  destruct (fault s1); [done|]. rewrite verified_snoc.
  destruct a; repeat case_match; simplify_eq; simpl; rewrite ?app_nil_r; try done.
  apply Forall_app_2; [done|]. constructor; [|done]. simpl.
  match goal with H : verifyEmail ?v ?e ?b = _ |- _ =>
    pose proof (verifyEmail_reason v e b) as Hr; by rewrite H in Hr end.
Qed.

(** X6. At every point of a run, every entry of the list of invalid
    addresses names an address of the input and gives a reason that is
    not empty; and every outcome the collector has counted is either
    valid with an empty reason or invalid with a reason. *)
Theorem invalid_entries_wellformed acts evs s :
  exec acts evs s →
  Forall (λ entry, ie_Email entry ∈ emails ∧ ie_Reason entry ≠ "") (invalidEmails s) ∧
  Forall reason_ok (collected evs).
Proof.
  intros Hexec.
  pose proof (Inv_execution _ _ _ _ workers_nonneg workers_int _ _ _ Hexec) as HI.
  pose proof (verified_reasons _ _ _ Hexec) as Hreasons.
  inv_fields HI.
  assert (Hcol : ∀ r, r ∈ collected evs →
            ∃ j, (j, r) ∈ verified evs ∧ job_Email j ∈ emails).
  { intros r Hr.
    assert (r ∈ (verified evs).*2) as Hv.
    { rewrite I_holding, I_results_fifo. rewrite !elem_of_app. auto. }
    apply list_elem_of_fmap in Hv as ([j r'] & -> & Hjr). exists j. split; [done|].
    rewrite <- (jobsOf_emails emails). apply list_elem_of_fmap. exists j. split; [done|].
    rewrite I_todo, I_jobs_fifo, !elem_of_app. left. left.
    apply list_elem_of_fmap. by exists (j, r'). }
  rewrite Forall_forall in Hreasons, I_email. split.
  - rewrite I_invalid. apply Forall_forall. intros entry Hin.
    unfold invalid_list in Hin. apply list_elem_of_bind in Hin as (r & Hentry & Hr).
    destruct (Hcol r Hr) as (j & Hjr & Hj).
    unfold invalid_of in Hentry. destruct (IsValid r) eqn:Hvalid.
    { by apply elem_of_nil in Hentry. }
    apply list_elem_of_singleton in Hentry as ->. simpl.
    pose proof (I_email _ Hjr) as Hemail. simpl in Hemail. rewrite Hemail.
    split; [done|].
    destruct (Hreasons _ Hjr) as [[? _]|[_ ?]]; simpl in *; congruence.
  - apply Forall_forall. intros r Hr. destruct (Hcol r Hr) as (j & Hjr & _).
    apply (Hreasons _ Hjr).
Qed.

(** X7. For a worker count that is not negative and whose double is an
    [int]: the queues are bounded by twice the worker count, the
    outcomes held by workers by the worker count, and so is the number
    of addresses between the driver's send and the collector's
    count. *)
Theorem in_flight_bound acts evs s :
  exec acts evs s →
  Z.of_nat (length (buf (jobs s))) ≤ 2 * Workers config ∧
  Z.of_nat (length (buf (results s))) ≤ 2 * Workers config ∧
  Z.of_nat (length (holding (workers s))) ≤ Workers config ∧
  Z.of_nat (length (enqueued evs)) - Z.of_nat (length (collected evs))
  = Z.of_nat (length (buf (jobs s))) + Z.of_nat (length (holding (workers s)))
    + Z.of_nat (length (buf (results s))) ∧
  Z.of_nat (length (enqueued evs)) - Z.of_nat (length (collected evs))
  ≤ 5 * Workers config.
Proof.
  intros Hexec.
  pose proof (Inv_execution _ _ _ _ workers_nonneg workers_int _ _ _ Hexec) as HI.
  pose proof (workers_length _ _ _ Hexec) as Hw.
  pose proof (holding_length (workers s)) as Hh.
  inv_fields HI.
  assert (length (enqueued evs)
          = (length (collected evs) + length (buf (results s))
             + length (holding (workers s)) + length (buf (jobs s)))%nat) as Hlen.
  { rewrite I_jobs_fifo, length_app, length_fmap, <- (length_fmap snd (verified evs)).
    rewrite I_holding, length_app, I_results_fifo, length_app. lia. }
  destruct I_jobs_cap as [Hc1 Hc2]. destruct I_results_cap as [Hc3 Hc4].
  split_and!; lia.
Qed.

(** X8. Jobs are sent and picked up in input order, and each outcome is for
    the address of its job. *)
Theorem pickup_order acts evs s :
  exec acts evs s →
  enqueued evs `prefix_of` jobsOf emails ∧
  (verified evs).*1 `prefix_of` enqueued evs ∧
  collected evs `prefix_of` sent evs ∧
  Forall (λ jr, Email jr.2 = job_Email jr.1) (verified evs) ∧
  (∀ (i : nat) j, (verified evs).*1 !! i = Some j →
     Index j = Z.of_nat i ∧ emails !! i = Some (job_Email j)).
Proof.
  intros Hexec.
  pose proof (Inv_execution _ _ _ _ workers_nonneg workers_int _ _ _ Hexec) as HI.
  inv_fields HI.
  split_and!.
  - rewrite I_todo. by apply prefix_app_r.
  - rewrite I_jobs_fifo. by apply prefix_app_r.
  - rewrite I_results_fifo. by apply prefix_app_r.
  - done.
  - intros i j Hi.
    assert (jobsOf emails !! i = Some j) as Hj.
    { rewrite I_todo, I_jobs_fifo, <- !(assoc_L (++)). by apply lookup_app_l_Some. }
    unfold jobsOf in Hj. rewrite list_lookup_imap in Hj.
    destruct (emails !! i) as [email|]; simpl in Hj; by simplify_eq.
Qed.

Lemma exited_workers acts evs s :
  exec acts evs s →
  NoDup (exited evs) ∧ ∀ id, id ∈ exited evs ↔ workers s !! id = Some WExited.
Proof.
  apply (exec_invariant emails config start t0 workers_nonneg workers_fit
    (λ evs s, NoDup (exited evs) ∧
              ∀ id, id ∈ exited evs ↔ workers s !! id = Some WExited)).
  { destruct (initial_shape emails config start t0 workers_nonneg workers_int)
      as [[_ ->]|[_ ->]]; simpl; (split; [constructor|]);
      intros id; (split; [by intros ?%elem_of_nil|]).
    - intros [[=] _]%lookup_replicate.
    - by rewrite lookup_nil. }
  intros evs1 s1 a e s2 _ [Hnd Hiff] Hs. unfold step in Hs.
  destruct (fault s1); [done|]. rewrite exited_snoc.
  assert (Hother : ∀ id id' w w',
            workers s1 !! id = Some w → w ≠ WExited → w' ≠ WExited →
            (id' ∈ exited evs1 ↔ <[id:=w']> (workers s1) !! id' = Some WExited)).
  { intros id id' w w' Hw Hne Hne'. rewrite Hiff.
    destruct (decide (id = id')) as [->|Hd].
    - rewrite list_lookup_insert_eq by (by eapply lookup_lt_Some). rewrite Hw.
      split; intros [=]; congruence.
    - by rewrite list_lookup_insert_ne. }
  destruct a; repeat case_match; simplify_eq; simpl; rewrite ?app_nil_r; try done.
  all: try (split; [done|]; intros id'; eapply Hother; done).
  split.
  - apply NoDup_app. split_and!; [done| |apply NoDup_singleton].
    intros id' Hin ->%list_elem_of_singleton. apply Hiff in Hin. congruence.
  - intros id'. rewrite elem_of_app, list_elem_of_singleton, Hiff.
    destruct (decide (id = id')) as [->|Hd].
    + rewrite list_lookup_insert_eq by (by eapply lookup_lt_Some). split; auto.
    + rewrite list_lookup_insert_ne by done. split; [intros [?|?]; [done|congruence]|auto].
Qed.

(** X9. Every worker returns at most once, and in a completed run exactly
    once. *)
Theorem workers_exit_once acts evs s :
  exec acts evs s →
  NoDup (exited evs) ∧
  (∀ id, id ∈ exited evs → Z.of_nat id < Workers config) ∧
  (completed s → exited evs ≡ₚ seq 0 (Z.to_nat (Workers config))).
Proof.
  intros Hexec. destruct (exited_workers _ _ _ Hexec) as [Hnd Hiff].
  pose proof (workers_length _ _ _ Hexec) as Hlen.
  split_and!; [done| |].
  - intros id Hin%Hiff%lookup_lt_Some. lia.
  - intros Hdone.
    destruct (completed_quiet _ _ _ _ workers_nonneg workers_int _ _ _ Hexec Hdone)
      as (_ & _ & _ & _ & Hall).
    pose proof (workers_count _ _ _ _ workers_nonneg _ _ _ Hexec (proj2 Hdone)) as Heq.
    apply NoDup_Permutation; [done|apply NoDup_seq|].
    intros id. rewrite Hiff, elem_of_seq. split.
    + intros Hin%lookup_lt_Some. lia.
    + intros [_ Hlt]. destruct (workers s !! id) as [w|] eqn:Hw.
      * f_equal. apply Hall. by eapply list_elem_of_lookup_2.
      * apply lookup_ge_None in Hw. lia.
Qed.

End Flow.

(** ** The protocol of one worker *)

Lemma tally_snoc {A} (f : A → bool) l a :
  tally f (l ++ [a]) = tally f l + (if f a then 1 else 0).
Proof. unfold tally. induction l as [|b l IH]; simpl; lia. Qed.

Lemma lookup_insert_cases (ws : list WorkerState) (i j : nat) (w w' : WorkerState) :
  ws !! i = Some w →
  (i = j ∧ <[i:=w']> ws !! j = Some w' ∧ ws !! j = Some w) ∨
  (i ≠ j ∧ <[i:=w']> ws !! j = ws !! j).
Proof.
  intros Hw. destruct (decide (i = j)) as [<-|Hne].
  - left. rewrite list_lookup_insert_eq by (by eapply lookup_lt_Some). done.
  - right. by rewrite list_lookup_insert_ne.
Qed.

(** X10. Worker [id] holds at most one outcome at a time: it has taken one
    job more than it has sent outcomes exactly while it is about to
    send one.  When the workers are rate-limited it sleeps once after
    every outcome it sends, before it takes the next job or returns;
    when they are not it never sleeps. *)
Theorem worker_protocol emails config start t0 acts evs s id :
  execution emails config start t0 acts evs s →
  tally (verified_by id) evs = tally (sent_by id) evs + sending (workers s !! id) ∧
  tally (wake_of id) acts + sleeping (workers s !! id)
  = (if 0 <? RateLimit config then tally (sent_by id) evs else 0).
Proof.
  intros Hexec.
  apply (run_invariant_acts (Z.of_nat (length emails)) config (λ acts evs s,
    tally (verified_by id) evs = tally (sent_by id) evs + sending (workers s !! id) ∧
    tally (wake_of id) acts + sleeping (workers s !! id)
    = (if 0 <? RateLimit config then tally (sent_by id) evs else 0)))
    with (acts := acts) (pre := []) (evs0 := []) (s := initial emails config start t0)
         (evs := evs) (s' := s); [| |done].
  - clear. intros acts evs s a e s' [IH1 IH2] Hs. unfold step in Hs.
    destruct (fault s); [done|]. rewrite !tally_snoc.
    destruct a; repeat case_match; simplify_eq; simpl;
      try (split; lia).
    all: try worker_at ltac:(fun H =>
      match goal with
      | |- context [<[?i:=?w']> _ !! _] =>
          destruct (lookup_insert_cases _ i id _ w' H) as [(-> & -> & Hw)|[Hne ->]]
      end).
    all: rewrite ?bool_decide_eq_true_2 by done.
    all: rewrite ?bool_decide_eq_false_2 by done.
    all: try rewrite Hw in *.
    all: simpl in *; try (split; lia).
    all: repeat match goal with H : (0 <? _) = _ |- _ => rewrite H in * end.
    all: try (split; lia).
    all: repeat match goal with
         | H : bool_decide _ = true |- _ => apply bool_decide_eq_true_1 in H
         | H : bool_decide _ = false |- _ => apply bool_decide_eq_false_1 in H
         end; try done.
    all: try (simplify_eq; rewrite ?Hw in *; simpl in *; split; lia).
  - assert (Hidle : ∀ n, sending (replicate n WIdle !! id) = 0 ∧
                         sleeping (replicate n WIdle !! id) = 0).
    { intros n. destruct (replicate n WIdle !! id) eqn:Hw; [|done].
      by apply lookup_replicate in Hw as [-> _]. }
    unfold initial, processEmails_init, makechan.
    repeat case_match; simplify_eq; simpl;
      rewrite ?(proj1 (Hidle _)), ?(proj2 (Hidle _)); done.
Qed.

(** X11. For a worker count that is not negative and whose double is an
    [int]: every progress line reports a count between 1 and the
    number of addresses, the total, and an invalid count within the
    count; the counts grow from line to line; and when the run is
    completed there is a line for every multiple of the batch size. *)
Theorem progress_lines emails config start t0 acts evs s :
  0 ≤ Workers config → Workers config * 2 ≤ int64_max →
  Z.of_nat (length emails) ≤ int64_max →
  execution emails config start t0 acts evs s →
  Forall (λ p, 1 ≤ p_checked p ≤ Z.of_nat (length emails) ∧
               p_total p = Z.of_nat (length emails) ∧
               0 ≤ p_invalid p ≤ p_checked p) (progress evs) ∧
  StronglySorted (λ p q, p_checked p < p_checked q) (progress evs) ∧
  (completed s →
   ∀ m, 1 ≤ m ≤ Z.of_nat (length emails) → Z.rem m (BatchSize config) = 0 →
        ∃ p, p ∈ progress evs ∧ p_checked p = m).
Proof.
  intros Hw0 Hw1 Hn Hexec.
  destruct (ProgressInv_execution _ _ _ _ Hw0 Hw1 Hn _ _ _ Hexec)
    as [_ Hok Hsort Hbatch].
  split_and!; [|done|].
  - eapply Forall_impl; [done|]. unfold progress_ok. intros p. simpl. lia.
  - intros Hdone m Hm Hrem. apply Hbatch; [|done].
    pose proof (workers_in_int64 config Hw0 Hw1) as Hint.
    destruct (completed_flow _ _ _ _ Hw0 Hint _ _ _ Hexec Hdone) as (Hjobs & _ & Hperm).
    pose proof (Inv_execution _ _ _ _ Hw0 Hint _ _ _ Hexec) as HI. inv_fields HI.
    destruct Hdone as [Hpc _]. unfold reported. rewrite (I_returned Hpc).
    rewrite <- Hperm, length_fmap, <- (length_fmap fst), Hjobs, jobsOf_length. lia.
Qed.

(** X12. The verdict is valid exactly when every check passes, and it gives
    a reason exactly when it is invalid. *)
Theorem verdict_valid_iff (r : Result) :
  ((evaluateResult r).1 = true ↔
   passes_basic r = true ∧ passes_smtp r = true ∧ res_Reachable r ≠ "no") ∧
  ((evaluateResult r).1 = true ↔ (evaluateResult r).2 = "").
Proof.
  split.
  - unfold evaluateResult, passes_basic, passes_smtp.
    destruct r as [[valid] disposable suggestion mx smtp reachable]. simpl.
    rewrite !eqb_empty_decide.
    destruct valid, disposable, mx; simpl;
      repeat case_bool_decide; simpl;
      try destruct smtp as [[[] [] []]|]; simpl;
      (split; [intros ?|intros (? & ? & ?)]; try done; try (split_and!; done)).
  - destruct (evaluateResult_reason r) as [[-> ->]|[-> ?]]; split; done.
Qed.

(** X13. [verifyEmail] answers for the address it was given; the outcome is
    valid only if the adapter answered and its result passes every
    check; it gives a reason exactly when it is invalid; and it logs
    one line when verbose and nothing otherwise. *)
Theorem verifyEmail_outcome (v : Verifier) (email : string) (verbose : bool) :
  Email (verifyEmail v email verbose).1 = email ∧
  (IsValid (verifyEmail v email verbose).1 = true ↔
   ∃ result, v email = VerifyOk result ∧ (evaluateResult result).1 = true) ∧
  (IsValid (verifyEmail v email verbose).1 = true ↔
   Reason (verifyEmail v email verbose).1 = "") ∧
  length (verifyEmail v email verbose).2 = (if verbose then 1 else 0)%nat ∧
  (verifyEmail v email true).1 = (verifyEmail v email false).1.
Proof.
  split_and!.
  - apply verifyEmail_Email.
  - unfold verifyEmail. destruct (v email) as [result|err]; simpl.
    + destruct (evaluateResult result) as [valid reason] eqn:He. simpl. split.
      * intros ->. exists result. by rewrite He.
      * intros (? & [= <-] & Hv). by rewrite He in Hv.
    + split; [done|]. by intros (? & [=] & _).
  - destruct (verifyEmail_reason v email verbose) as [[-> ->]|[-> ?]]; split; done.
  - unfold verifyEmail. destruct (v email) as [result|err]; simpl.
    + destruct (evaluateResult result) as [[] reason]; by destruct verbose.
    + by destruct verbose.
  - unfold verifyEmail. destruct (v email) as [result|err]; simpl; [|done].
    by destruct (evaluateResult result).
Qed.

(** ** The writer when the device fills up *)

Lemma take_len_app (p q : bytes) n :
  n ≤ len p → take (Z.to_nat n) (p ++ q) = take (Z.to_nat n) p.
Proof. intros H. apply take_app_le. unfold len in H. lia. Qed.

Lemma take_len_all (p : bytes) n : len p ≤ n → take (Z.to_nat n) p = p.
Proof. intros H. apply take_ge. unfold len in H. lia. Qed.

Lemma take_len_plus (p q : bytes) n :
  0 ≤ n → take (Z.to_nat (len p + n)) (p ++ q) = p ++ take (Z.to_nat n) q.
Proof.
  intros H. unfold len. rewrite Z2Nat.inj_add, Nat2Z.id by lia. apply take_app_add'. done.
Qed.

(** What a write to the file does, whether it fits or not. *)
Lemma file_Write_spec p f :
  0 ≤ free f →
  ∃ f' n err, file_Write p f = (f', n, err) ∧
    contents f' = contents f ++ take (Z.to_nat (free f)) p ∧
    quota f' = quota f ∧ 0 ≤ free f' ∧ n = Z.min (len p) (free f) ∧
    (len p ≤ free f → err = None) ∧ (free f < len p → err = Some ENOSPC ∧ free f' = 0).
Proof.
  intros Hfree. unfold file_Write, quota.
  destruct (len p <=? free f) eqn:Hfit; [apply Z.leb_le in Hfit|apply Z.leb_gt in Hfit].
  - eexists _, _, _. split; [done|]. cbn [contents free].
    rewrite take_len_all, len_app by done.
    split_and!; try done; try lia.
  - eexists _, _, _. split; [done|]. cbn [contents free].
    rewrite !len_app, len_take by done.
    split_and!; try done; try lia. intros _. split; [done|lia].
Qed.

Lemma Flush_kept f0 data b : kept f0 data b → kept f0 data (Flush b).1.
Proof.
  intros ((Hs & Hb & Hf) & Hq & Hd). unfold Flush.
  destruct (werr b) eqn:He; [unfold kept, shaped; cbn [fst]; by rewrite He|].
  destruct (Buffered b =? 0) eqn:Hz; [unfold kept, shaped; cbn [fst]; by rewrite He|].
  destruct (file_Write_spec (wbuf b) (wr b) Hf)
    as (f' & n & err & -> & Hc & Hq' & Hf' & Hn & Hok & Hfail).
  unfold Buffered in *. pose proof (len_nonneg (wbuf b)).
  destruct (decide (len (wbuf b) ≤ free (wr b))) as [Hfit|Hfit].
  - rewrite (Hok Hfit). replace n with (len (wbuf b)) by lia. rewrite Z.ltb_irrefl.
    unfold kept, shaped, emitted in *. cbn. change (len []) with 0.
    rewrite app_nil_r, Hc, take_len_all by done. split_and!; try done; lia.
  - apply Z.nle_gt in Hfit. destruct (Hfail Hfit) as [-> Hzero].
    unfold kept, shaped, emitted in *. cbn.
    rewrite len_drop by lia. split_and!; try done; try lia.
    + rewrite <- Hd, len_app. unfold quota in *. lia.
    + rewrite <- Hd, <- Hq. unfold quota.
      rewrite take_len_plus by done. done.
Qed.

Lemma Write_loop_done fuel p b :
  werr b ≠ None ∨ len p ≤ Available b → Write_loop fuel p b = (p, b).
Proof.
  intros H. destruct fuel; [done|]. cbn [Write_loop].
  destruct H as [H|H].
  - by rewrite (bool_decide_eq_false_2 _ H), andb_false_r.
  - by rewrite (proj2 (Z.ltb_ge _ _) H).
Qed.

Lemma Write_loop_turn fuel p b :
  werr b = None → Available b < len p →
  Write_loop (S fuel) p b = Write_loop fuel (turn p b).1 (turn p b).2.
Proof.
  intros He Hfit. cbn [Write_loop]. unfold turn.
  rewrite (proj2 (Z.ltb_lt _ _) Hfit), bool_decide_eq_true_2 by done. cbn [andb].
  destruct (Buffered b =? 0); [|done].
  by destruct (file_Write p (wr b)) as [[file n] err].
Qed.

(** After a turn either a write has failed (and the device is full), or
    the buffer is empty; a turn from an empty buffer leaves nothing of
    [p]. *)
Lemma turn_spec f0 data p b :
  kept f0 data b → werr b = None → Available b < len p →
  ∃ p0, p = p0 ++ (turn p b).1 ∧
    ((werr (turn p b).2 = None ∧ kept f0 (data ++ p0) (turn p b).2 ∧
      wbuf (turn p b).2 = [] ∧ (wbuf b = [] → (turn p b).1 = [])) ∨
     (werr (turn p b).2 ≠ None ∧ kept f0 (data ++ p) (turn p b).2)).
Proof.
  intros ((Hs & Hb & Hf) & Hq & Hd) He Hfit. rewrite He in Hd.
  pose proof (len_nonneg (wbuf b)). pose proof (len_nonneg p).
  unfold turn, Buffered, Available in *.
  destruct (len (wbuf b) =? 0) eqn:Hz.
  - apply Z.eqb_eq, len_nil_inv in Hz. unfold emitted in Hd. rewrite Hz, app_nil_r in Hd.
    destruct (file_Write_spec p (wr b) Hf)
      as (f' & n & err & -> & Hc & Hq' & Hf' & Hn & Hok & Hfail).
    cbn [fst snd]. exists (take (Z.to_nat n) p). split; [by rewrite take_drop|].
    destruct (decide (len p ≤ free (wr b))) as [Hroom|Hroom].
    + left. rewrite (Hok Hroom). replace n with (len p) by lia.
      unfold len at 1 2. rewrite Nat2Z.id, drop_all, firstn_all.
      unfold kept, shaped, emitted. cbn. rewrite Hz, app_nil_r, Hc.
      rewrite take_len_all by done. change (len []) with 0.
      split_and!; try done; try lia. by rewrite Hd, (assoc_L (++)).
    + right. apply Z.nle_gt in Hroom. destruct (Hfail Hroom) as [-> Hzero].
      unfold kept, shaped. cbn. rewrite Hz. change (len []) with 0.
      split_and!; try done; try lia.
      * rewrite (assoc_L (++)), <- Hd, len_app. unfold quota in *. lia.
      * rewrite (assoc_L (++)), <- Hd, <- Hq. unfold quota.
        by rewrite take_len_plus.
  - apply Z.eqb_neq in Hz. cbn [fst snd].
    set (n := Z.to_nat (wsize b - len (wbuf b))).
    exists (take n p). split; [by rewrite take_drop|].
    assert (Hn : len (take n p) = wsize b - len (wbuf b)).
    { unfold n. rewrite len_take by lia. lia. }
    assert (Hk : kept f0 (data ++ take n p)
                   (mkWriter (wr b) (wbuf b ++ take n p) (wsize b) None)).
    { unfold kept, shaped, emitted in *. cbn. rewrite len_app.
      split_and!; try done; try lia. by rewrite (assoc_L (++)), Hd, (assoc_L (++)). }
    apply Flush_kept in Hk. rewrite He.
    destruct (werr (Flush _).1) eqn:He'.
    + right. split; [done|].
      destruct Hk as (Hshape & Hquota & Hdata). rewrite He' in Hdata.
      destruct Hdata as (Hzero & Hlt & Hcont).
      unfold kept. rewrite He'. split_and!; try done.
      * replace (contents f0 ++ data ++ p)
          with ((contents f0 ++ data ++ take n p) ++ drop n p)
          by (by rewrite <- !(assoc_L (++)), take_drop).
        rewrite len_app. pose proof (len_nonneg (drop n p)). lia.
      * replace (contents f0 ++ data ++ p)
          with ((contents f0 ++ data ++ take n p) ++ drop n p)
          by (by rewrite <- !(assoc_L (++)), take_drop).
        rewrite take_len_app by lia. done.
    + left. split_and!; [done|done| |].
      * revert He'. unfold Flush, Buffered. cbn [werr wbuf wr wsize].
        destruct (len (wbuf b ++ take n p) =? 0) eqn:Hz'.
        { apply Z.eqb_eq in Hz'. rewrite len_app in Hz'.
          pose proof (len_nonneg (take n p)). lia. }
        destruct (file_Write _ _) as [[file m] err].
        destruct err; cbn; [done|]. by destruct (m <? _).
      * intros Hnil. rewrite Hnil in Hz. done.
Qed.

(** [Write], whatever the state of the writer and of the device. *)
Lemma Write_kept f0 data p b : kept f0 data b → kept f0 (data ++ p) (Write p b).1.
Proof.
  intros Hk. pose proof Hk as ((Hs & Hb & Hf) & Hq & Hd). unfold Write.
  pose proof (len_nonneg p).
  assert (Hfail : ∀ q b', werr b' ≠ None → kept f0 (data ++ p) b' →
    kept f0 (data ++ p)
      (let '(p, b) := (q, b') in
       match werr b with
       | Some err => (b, Some err)
       | None => (mkWriter (wr b) (wbuf b ++ p) (wsize b) None, None)
       end).1).
  { intros q b' He' Hk'. cbn. by destruct (werr b'). }
  assert (Hfits : ∀ p0 q b', p = p0 ++ q → werr b' = None → kept f0 (data ++ p0) b' →
    len q ≤ Available b' →
    kept f0 (data ++ p)
      (let '(p, b) := (q, b') in
       match werr b with
       | Some err => (b, Some err)
       | None => (mkWriter (wr b) (wbuf b ++ p) (wsize b) None, None)
       end).1).
  { intros p0 q b' -> He' ((Hs' & Hb' & Hf') & Hq' & Hd') Hav. cbn. rewrite He' in *.
    unfold kept, shaped, emitted, Available in *. cbn. rewrite len_app.
    split_and!; try done; try lia. by rewrite (assoc_L (++)), Hd', !(assoc_L (++)). }
  destruct (werr b) as [e|] eqn:He.
  { rewrite Write_loop_done by (left; congruence). apply Hfail; [congruence|].
    unfold kept in *. rewrite He in *. destruct Hd as (Hz & Hlt & Hc).
    rewrite (assoc_L (++)), len_app, take_len_app by lia.
    split_and!; try done. lia. }
  destruct (decide (len p ≤ Available b)) as [Hav|Hav].
  { rewrite Write_loop_done by (by right).
    apply (Hfits [] p b); rewrite ?app_nil_r; done. }
  apply Z.nle_gt in Hav. rewrite Write_loop_turn by done.
  destruct (turn_spec f0 data p b Hk He Hav) as (p0 & Hp & [(He1 & Hk1 & Hnil1 & Hall)|[He1 Hk1]]).
  2: { rewrite Write_loop_done by (by left). destruct (turn p b) as [q b1]. by apply Hfail. }
  destruct (turn p b) as [q b1] eqn:Hturn. cbn [fst snd] in *.
  pose proof Hk1 as ((Hs1 & Hb1 & Hf1) & _).
  destruct (decide (len q ≤ Available b1)) as [Hav1|Hav1].
  { rewrite Write_loop_done by (by right). by apply (Hfits p0 q b1). }
  apply Z.nle_gt in Hav1. rewrite Write_loop_turn by done.
  destruct (turn_spec f0 (data ++ p0) q b1 Hk1 He1 Hav1)
    as (q0 & Hq0 & [(He2 & Hk2 & Hnil2 & Hall2)|[He2 Hk2]]).
  2: { cbn [Write_loop]. destruct (turn q b1) as [q' b2].
       apply Hfail; [done|]. by rewrite Hp, (assoc_L (++)). }
  cbn [Write_loop]. specialize (Hall2 Hnil1).
  destruct (turn q b1) as [q' b2]. cbn [fst snd] in *. subst q'.
  rewrite app_nil_r in Hq0. subst q0.
  apply (Hfits p [] b2); rewrite ?app_nil_r; try done.
  - by rewrite Hp, (assoc_L (++)).
  - destruct Hk2 as ((? & ? & ?) & _). unfold Available. rewrite Hnil2.
    change (len []) with 0. lia.
Qed.

Lemma kept_new file size : 0 ≤ free file → kept file [] (NewWriterSize file size).
Proof.
  intros Hf. unfold kept, shaped, NewWriterSize, emitted. cbn. change (len []) with 0.
  rewrite app_nil_r. destruct (size <=? 0) eqn:H; [|apply Z.leb_gt in H];
    split_and!; try done; lia.
Qed.

Lemma kept_Write f0 acc b p :
  kept f0 acc b → kept f0 (acc ++ p) (ignoring_error (Write p b)).
Proof. apply Write_kept. Qed.

Lemma kept_WriteString f0 acc b s :
  kept f0 acc b → kept f0 (acc ++ bytes_of s) (ignoring_error (WriteString s b)).
Proof. apply Write_kept. Qed.

(** Two turns are all the loop of [Write] ever takes. *)
Lemma Write_loop_fuel fuel p b :
  shaped b → Write_loop (S (S fuel)) p b = Write_loop 2 p b.
Proof.
  intros Hshape.
  destruct (decide (werr b = None)) as [He|He].
  2: { by rewrite !Write_loop_done by (by left). }
  destruct (decide (len p ≤ Available b)) as [Hav|Hav].
  { by rewrite !Write_loop_done by (by right). }
  apply Z.nle_gt in Hav. rewrite !(Write_loop_turn _ p b) by done.
  assert (Hk : kept (wr b) (wbuf b) b).
  { unfold kept. by rewrite He. }
  destruct (turn_spec _ _ p b Hk He Hav)
    as (p0 & Hp & [(He1 & Hk1 & Hnil1 & _)|[He1 _]]).
  2: { by rewrite !Write_loop_done by (by left). }
  destruct (turn p b) as [q b1]. cbn [fst snd] in *.
  destruct (decide (len q ≤ Available b1)) as [Hav1|Hav1].
  { by rewrite !Write_loop_done by (by right). }
  apply Z.nle_gt in Hav1. rewrite !(Write_loop_turn _ q b1) by done.
  destruct (turn_spec _ _ q b1 Hk1 He1 Hav1)
    as (q0 & Hq0 & [(He2 & Hk2 & Hnil2 & Hall2)|[He2 _]]).
  2: { by rewrite !Write_loop_done by (by left). }
  rewrite (Hall2 Hnil1). destruct Hk2 as ((? & ? & ?) & _).
  rewrite !Write_loop_done; [done|right..].
  all: unfold Available; rewrite Hnil2; change (len []) with 0; lia.
Qed.

Lemma writeInvalidEmails_kept enc total f0 invalidEmails : ∀ i acc b,
  i + Z.of_nat (length invalidEmails) = total → kept f0 acc b →
  ∃ b', writeInvalidEmails enc total i invalidEmails b = inr b' ∧
        kept f0 (acc ++ invalidEmailLines enc invalidEmails) b'.
Proof.
  induction invalidEmails as [|email rest IH]; intros i acc b Htotal Hk.
  - exists b. by rewrite app_nil_r.
  - cbn [writeInvalidEmails invalidEmailLines] in *. unfold invalidEmailLine in *.
    cbn [Marshal] in *.
    remember (bytes_of ("{" +:+ _)) as emailJSON eqn:Hjson. clear Hjson.
    assert (Hlast : (i <? total - 1) = negb (bool_decide (rest = []))).
    { destruct rest; cbn [length] in *.
      - rewrite bool_decide_eq_true_2 by done. apply Z.ltb_ge. lia.
      - rewrite bool_decide_eq_false_2 by done. apply Z.ltb_lt. lia. }
    rewrite Hlast. clear Hlast.
    pose proof (kept_WriteString f0 acc b "    " Hk) as Hk1.
    pose proof (kept_Write f0 _ _ emailJSON Hk1) as Hk2.
    destruct (bool_decide (rest = [])); cbn [negb] in *.
    + pose proof (kept_WriteString f0 _ _ nl Hk2) as Hk3.
      destruct (IH (i + 1) _ _ ltac:(cbn [length] in Htotal; lia) Hk3) as (b' & -> & Hk').
      exists b'. split; [done|]. by rewrite <- !app_assoc in *.
    + pose proof (kept_WriteString f0 _ _ "," Hk2) as Hk3.
      pose proof (kept_WriteString f0 _ _ nl Hk3) as Hk4.
      destruct (IH (i + 1) _ _ ltac:(cbn [length] in Htotal; lia) Hk4) as (b' & -> & Hk').
      exists b'. split; [done|]. by rewrite <- !app_assoc in *.
Qed.

Lemma header_kept enc invalidEmails f0 b0 :
  kept f0 [] b0 →
  ∃ b,
    writeInvalidEmails enc (Z.of_nat (length invalidEmails)) 0 invalidEmails
      (ignoring_error (WriteString
         ("  " +:+ dq +:+ "invalid_emails" +:+ dq +:+ ": [" +:+ nl)
         (ignoring_error (WriteString ("{" +:+ nl) b0)))) = inr b ∧
    kept f0 (bytes_of ("{" +:+ nl) ++
             bytes_of ("  " +:+ dq +:+ "invalid_emails" +:+ dq +:+ ": [" +:+ nl) ++
             invalidEmailLines enc invalidEmails) b.
Proof.
  intros Hk0.
  pose proof (kept_WriteString f0 _ _ ("{" +:+ nl) Hk0) as Hk1.
  pose proof (kept_WriteString f0 _ _
    ("  " +:+ dq +:+ "invalid_emails" +:+ dq +:+ ": [" +:+ nl) Hk1) as Hk2.
  destruct (writeInvalidEmails_kept enc (Z.of_nat (length invalidEmails)) f0
              invalidEmails 0 _ _ ltac:(lia) Hk2) as (b3 & Heq & Hk3).
  exists b3. split; [exact Heq|]. cbn [app] in Hk3. by rewrite <- !app_assoc in Hk3.
Qed.

Lemma footer_kept enc times invalidEmails stats f0 acc b :
  acc = bytes_of ("{" +:+ nl) ++
        bytes_of ("  " +:+ dq +:+ "invalid_emails" +:+ dq +:+ ": [" +:+ nl) ++
        invalidEmailLines enc invalidEmails →
  kept f0 acc b →
  kept f0 (document enc times invalidEmails stats)
    (ignoring_error (WriteString ("}" +:+ nl)
    (ignoring_error (WriteString
       ("  " +:+ dq +:+ "processing_time_seconds" +:+ dq +:+ ": "
        +:+ processing_time_seconds times +:+ nl)
    (ignoring_error (WriteString
       ("  " +:+ dq +:+ "total_invalid" +:+ dq +:+ ": "
        +:+ fmt_d (TotalInvalid stats) +:+ "," +:+ nl)
    (ignoring_error (WriteString
       ("  " +:+ dq +:+ "total_valid" +:+ dq +:+ ": "
        +:+ fmt_d (TotalValid stats) +:+ "," +:+ nl)
    (ignoring_error (WriteString
       ("  " +:+ dq +:+ "total_checked" +:+ dq +:+ ": "
        +:+ fmt_d (TotalChecked stats) +:+ "," +:+ nl)
    (ignoring_error (WriteString
       ("  " +:+ dq +:+ "checked_at" +:+ dq +:+ ": "
        +:+ fmt_q (checked_at times) +:+ "," +:+ nl)
    (ignoring_error (WriteString ("  ]," +:+ nl) b)))))))))))))).
Proof.
  intros -> Hk. unfold document. rewrite !(assoc_L (++)) in Hk.
  generalize (fmt_d (TotalChecked stats)), (fmt_d (TotalValid stats)),
    (fmt_d (TotalInvalid stats)), (fmt_q (checked_at times)),
    (processing_time_seconds times).
  intros s1 s2 s3 s4 s5.
  rewrite !(assoc_L (++)).
  repeat apply kept_WriteString.
  exact Hk.
Qed.

(** The deferred [Flush]: the file ends up with as much of the data as
    the device had room for. *)
Lemma Flush_kept_file f0 data b :
  0 ≤ free f0 → kept f0 data b →
  wr (Flush b).1
  = mkOutFile (contents f0 ++ take (Z.to_nat (free f0)) data)
      (free f0 - len (take (Z.to_nat (free f0)) data)).
Proof.
  intros Hf0 Hk.
  assert (Hnil : werr (Flush b).1 = None → wbuf (Flush b).1 = []).
  { unfold Flush, Buffered. destruct (werr b) eqn:He; cbn; [by rewrite He|].
    destruct (len (wbuf b) =? 0) eqn:Hz.
    - intros _. by apply Z.eqb_eq, len_nil_inv in Hz.
    - destruct (file_Write _ _) as [[file m] err].
      destruct err; cbn; [done|]. by destruct (m <? _). }
  apply Flush_kept in Hk. destruct Hk as ((Hs & Hb & Hf) & Hq & Hd).
  destruct (wr (Flush b).1) as [c f] eqn:Hwr. unfold quota, emitted in *.
  rewrite Hwr in *. cbn [contents free] in *.
  pose proof (len_nonneg data).
  destruct (werr (Flush b).1) eqn:He.
  - destruct Hd as (-> & Hlt & ->). rewrite take_len_plus by done.
    rewrite take_len_plus, len_app in Hq by done. f_equal. lia.
  - rewrite (Hnil eq_refl), app_nil_r in Hd. subst c. rewrite len_app in Hq.
    rewrite take_len_all by lia. f_equal. lia.
Qed.

(** The writer, whatever room the device has: it returns nil, and the
    file holds as much of the document as the device had room for. *)
Lemma writeResultsStreaming_any enc file times invalidEmails stats :
  0 ≤ free file →
  writeResultsStreaming enc (Some file) times invalidEmails stats
  = (None,
     Some (mkOutFile
             (contents file
              ++ take (Z.to_nat (free file)) (document enc times invalidEmails stats))
             (free file
              - len (take (Z.to_nat (free file))
                       (document enc times invalidEmails stats))))).
Proof.
  intros Hf. unfold writeResultsStreaming.
  pose proof (kept_new file (1024 * 1024) Hf) as Hk0.
  generalize dependent (NewWriterSize file (1024 * 1024)). intros b0 Hk0.
  destruct (header_kept enc invalidEmails file b0 Hk0) as (b3 & -> & Hk3).
  f_equal. f_equal.
  exact (Flush_kept_file file _ _ Hf
           (footer_kept enc times invalidEmails stats file _ b3 eq_refl Hk3)).
Qed.

(** X14. Once the file is created the writer returns nil whatever room the
    device has: the file then holds, after what it held, the longest
    prefix of the document the device had room for, and the room left
    is less by that prefix; so the whole document is in the file
    exactly when the device had room for it. *)
Theorem writer_outcome enc file times invalidEmails stats :
  0 ≤ free file →
  let doc := document enc times invalidEmails stats in
  ∃ out,
    writeResultsStreaming enc (Some file) times invalidEmails stats = (None, Some out) ∧
    contents out = contents file ++ take (Z.to_nat (free file)) doc ∧
    free out = free file - len (take (Z.to_nat (free file)) doc) ∧
    0 ≤ free out ∧
    (contents out = contents file ++ doc ↔ len doc ≤ free file).
Proof.
  intros Hf doc. rewrite writeResultsStreaming_any by done. fold doc.
  eexists. split; [done|]. cbn [contents free].
  assert (Hlen : len (take (Z.to_nat (free file)) doc) = Z.min (free file) (len doc)).
  { unfold len. rewrite length_take. lia. }
  split_and!; [done|done|lia|]. split.
  - intros Heq. apply app_inv_head in Heq.
    apply (f_equal len) in Heq. rewrite Hlen in Heq. lia.
  - intros Hle. by rewrite take_len_all.
Qed.

(** ** The reader on flat documents *)


Lemma tokens_array vs :
  tokens (JArray vs) = TDelim LBracket :: (vs ≫= tokens) ++ [TDelim RBracket].
Proof.
  cbn [tokens]. by f_equal.
Qed.

Lemma tokens_elements es :
  (element <$> es) ≫= tokens = element_token <$> es.
Proof.
  induction es as [|[e|] es IH]; [done|..]; cbn [fmap list_fmap mbind list_bind] in *;
    by rewrite IH.
Qed.

Lemma readArray_elements es : ∀ emails rest,
  readArray emails ((element_token <$> es) ++ TDelim RBracket :: rest)
  = inr (emails ++ (default "" <$> es), TDelim RBracket :: rest).
Proof.
  induction es as [|[e|] es IH]; intros emails rest.
  - simpl. by rewrite app_nil_r.
  - cbn [fmap list_fmap app readArray More decodeString element_token].
    rewrite IH. by rewrite <- app_assoc.
  - cbn [fmap list_fmap app readArray More decodeString element_token].
    rewrite IH. by rewrite <- app_assoc.
Qed.

(** The scan up to the value of the first "emails" member, when the
    members before it are plain. *)
Lemma readEmails_upto size before v after :
  Forall plain_member before →
  readEmailsStreaming (Some (mkFile size (JObject (before ++ ("emails", v) :: after))))
  = scanForEmails []
      (TString "emails" :: tokens v ++ (after ≫= member_tokens) ++ [TDelim RBrace]).
Proof.
  intros Hplain. unfold readEmailsStreaming. cbn [file_size file_doc].
  rewrite make_strings_estimate.
  rewrite tokens_object. rewrite decide_False by (by intros []).
  rewrite bind_app, <- app_assoc, scan_plain_members by done.
  cbn [mbind list_bind]. unfold member_tokens at 1. cbn [fst snd].
  by rewrite <- !app_assoc.
Qed.

Lemma readEmails_elements size before es after :
  Forall plain_member before →
  readEmailsStreaming
    (Some (mkFile size
       (JObject (before ++ ("emails", JArray (element <$> es)) :: after))))
  = inr (default "" <$> es).
Proof.
  intros Hplain. rewrite readEmails_upto by done.
  rewrite tokens_array, tokens_elements.
  cbn [app scanForEmails More]. rewrite decide_True by done.
  rewrite decide_False by (by intros []).
  rewrite <- !app_assoc. cbn [app]. by rewrite readArray_elements.
Qed.

(** X15. On a flat document, one whose members before "emails" are
    plain (a scalar value that [Decoder.Token] returns without an
    error: no number out of the range of float64, and no string that
    reads "emails"), the reader returns the elements of the first
    "emails" array in order, a null element as the empty string, and
    ignores what follows the array; with no "emails" member it returns
    the empty list. *)
Theorem reader_flat_document size before :
  Forall plain_member before →
  (∀ es after,
     readEmailsStreaming
       (Some (mkFile size
          (JObject (before ++ ("emails", JArray (element <$> es)) :: after))))
     = inr (default "" <$> es)) ∧
  readEmailsStreaming (Some (mkFile size (JObject before))) = inr [].
Proof.
  intros Hplain. split.
  - intros es after. by apply readEmails_elements.
  - by apply readEmails_plain_absent.
Qed.


(** X17. The scan does not follow the nesting: an "emails" array inside the
    object of an earlier member is taken for the list, when the members
    the scan passes on its way to it are plain. *)
Theorem reader_nested_emails size before key inner es inner_after after :
  Forall plain_member before → key ≠ "emails" → Forall plain_member inner →
  readEmailsStreaming
    (Some (mkFile size
       (JObject (before ++
          (key, JObject (inner ++ ("emails", JArray (element <$> es)) :: inner_after))
          :: after))))
  = inr (default "" <$> es).
Proof.
  intros Hplain Hkey Hinner. unfold readEmailsStreaming. cbn [file_size file_doc].
  rewrite make_strings_estimate.
  rewrite tokens_object. rewrite decide_False by (by intros []).
  rewrite bind_app, <- app_assoc, scan_plain_members by done.
  cbn [mbind list_bind]. unfold member_tokens at 1. cbn [fst snd].
  rewrite tokens_object. cbn [app scanForEmails More].
  rewrite decide_False by congruence. rewrite decide_False by done.
  rewrite bind_app, <- !app_assoc, scan_plain_members by done.
  cbn [mbind list_bind]. unfold member_tokens at 1. cbn [fst snd].
  rewrite tokens_array, tokens_elements.
  cbn [app scanForEmails More]. rewrite decide_True by done.
  rewrite decide_False by (by intros []).
  rewrite <- !app_assoc. cbn [app]. by rewrite readArray_elements.
Qed.

(** ** Loading the .env file *)

Lemma Setenv_accepted key value env :
  Setenv key value env = if accepted key value then Some (<[key:=value]> env) else None.
Proof.
  unfold accepted, Setenv. destruct (_ || _).
  - rewrite bool_decide_eq_false_2; [done|]. by intros [? ?].
  - by rewrite bool_decide_eq_true_2.
Qed.

Lemma accepted_key key value : accepted key value = true → key ≠ "".
Proof.
  unfold accepted, Setenv. intros [x Hx]%bool_decide_eq_true ->.
  by rewrite bool_decide_eq_true_2 in Hx.
Qed.

Lemma Getenv_set_if_unset key k v env :
  Getenv key (set_if_unset k v env)
  = if decide (Getenv key env = "") then
      if bool_decide (k = key) && accepted k v then v else ""
    else Getenv key env.
Proof.
  unfold set_if_unset. rewrite Setenv_accepted.
  destruct (decide (Getenv k env = "")) as [Hk|Hk].
  - destruct (accepted k v) eqn:Hacc; simpl.
    + pose proof (accepted_key _ _ Hacc) as Hne.
      case_bool_decide as Heq; simpl.
      * subst key. rewrite Hk. rewrite decide_True by done.
        unfold Getenv. rewrite decide_False by done. by rewrite lookup_insert_eq.
      * assert (Getenv key (<[k:=v]> env) = Getenv key env) as ->.
        { unfold Getenv. case_decide; [done|]. by rewrite lookup_insert_ne. }
        by case_decide.
    + rewrite andb_false_r. by case_decide.
  - case_decide as Hkey; [|done]. case_bool_decide; [|done]. subst. done.
Qed.

Lemma gives_cons key text :
  gives key text
  = match assignment text with
    | Some (k, v) =>
        if bool_decide (k = key) && accepted k v && bool_decide (v ≠ "")
        then Some v else None
    | None => None
    end.
Proof.
  unfold gives, accepted. destruct (assignment text) as [[k v]|]; [|done].
  by destruct (bool_decide (k = key)), (bool_decide (v ≠ "")),
    (bool_decide (is_Some _)).
Qed.

Lemma loadEnvFile_Getenv key lines : ∀ env,
  Getenv key (loadEnvFile (Some lines) env)
  = if decide (Getenv key env = "") then file_value key lines else Getenv key env.
Proof.
  unfold loadEnvFile, file_value.
  induction lines as [|text lines IH]; intros env.
  - simpl. by case_decide.
  - cbn [foldl omap list_omap]. rewrite IH, gives_cons.
    destruct (assignment text) as [[k v]|]; [|done].
    rewrite Getenv_set_if_unset.
    destruct (decide (Getenv key env = "")) as [Hkey|Hkey]; [|by rewrite decide_False].
    destruct (bool_decide (k = key) && accepted k v) eqn:Hgive; simpl; [|done].
    destruct (decide (v = "")) as [Hv|Hv].
    + by rewrite bool_decide_eq_false_2 by (by intros []).
    + by rewrite bool_decide_eq_true_2.
Qed.

(** X18. The value of a variable after the file is loaded: the value it had,
    if it had one, and else the first value the file gives it; a
    variable set to the empty string counts as not set; and without a
    file nothing changes. *)
Theorem loadEnvFile_value key lines env :
  Getenv key (loadEnvFile (Some lines) env)
  = (if decide (Getenv key env = "") then file_value key lines else Getenv key env) ∧
  (Getenv key env ≠ "" → Getenv key (loadEnvFile (Some lines) env) = Getenv key env) ∧
  loadEnvFile None env = env.
Proof.
  split_and!; [apply loadEnvFile_Getenv| |done].
  intros Hset. rewrite loadEnvFile_Getenv. by rewrite decide_False.
Qed.

(** ** Integers in the environment *)

Lemma digit_char x : (x < 10)%N → digit (pretty_N_char x) = Some (Z.of_N x).
Proof.
  intros Hx.
  assert (x = 0 ∨ x = 1 ∨ x = 2 ∨ x = 3 ∨ x = 4 ∨ x = 5 ∨ x = 6 ∨ x = 7 ∨ x = 8
          ∨ x = 9)%N as Hcases by lia.
  repeat destruct Hcases as [->|Hcases]; try done. by subst.
Qed.

Lemma digits_pretty_go x :
  ∃ k, 0 ≤ k ∧ ∀ acc s,
    digits acc (pretty_N_go x s) = digits (acc * 10 ^ k + Z.of_N x) s.
Proof.
  induction (N.lt_wf_0 x) as [x _ IH].
  destruct (decide (x = 0%N)) as [->|Hx].
  - exists 0. split; [done|]. intros acc s. rewrite pretty_N_go_0. f_equal. lia.
  - assert (x `div` 10 < x)%N as Hlt by (apply N.div_lt; lia).
    destruct (IH _ Hlt) as (k & Hk & Hgo).
    exists (k + 1). split; [lia|]. intros acc s.
    rewrite pretty_N_go_step by lia. rewrite Hgo. cbn [digits].
    rewrite digit_char by (apply N.mod_lt; lia). f_equal.
    rewrite Z.pow_add_r by lia.
    pose proof (N.div_mod x 10 ltac:(lia)) as Hdm.
    apply (f_equal Z.of_N) in Hdm. rewrite N2Z.inj_add, N2Z.inj_mul in Hdm.
    change (Z.of_N 10) with 10 in Hdm. lia.
Qed.

Lemma digits_pretty_N (x : N) : digits 0 (pretty x) = Some (Z.of_N x).
Proof.
  unfold pretty, pretty_N. case_decide as Hx; [by subst|].
  destruct (digits_pretty_go x) as (k & _ & ->). cbn [digits]. by rewrite Z.mul_0_l.
Qed.

Lemma digits_signless acc c rest n :
  digits acc (String c rest) = Some n → (byte_of c =? 43)%N = false
                                       ∧ (byte_of c =? 45)%N = false.
Proof.
  cbn [digits]. unfold digit. destruct (_ && _)%N eqn:Hd; [|done]. intros _.
  apply andb_prop in Hd as [H1%N.leb_le H2%N.leb_le].
  split; apply N.eqb_neq; lia.
Qed.

Lemma Atoi_digits s n :
  s ≠ "" → digits 0 s = Some n → Atoi s = in_range n.
Proof.
  intros Hs Hd. destruct s as [|c rest]; [done|].
  destruct (digits_signless _ _ _ _ Hd) as [H1 H2].
  unfold Atoi. rewrite H1, H2, Hd. done.
Qed.

Lemma pretty_N_nonempty (x : N) : pretty x ≠ "".
Proof.
  intros Hx. pose proof (digits_pretty_N x) as Hd. rewrite Hx in Hd.
  simpl in Hd. simplify_eq. assert (x = 0%N) as -> by lia. done.
Qed.

Lemma Atoi_minus rest :
  rest ≠ "" → Atoi ("-" +:+ rest) = digits 0 rest ≫= λ n, in_range (- n).
Proof.
  intros Hrest. change ("-" +:+ rest) with (String (Ascii.ascii_of_nat 45) rest).
  unfold Atoi. change (byte_of (Ascii.ascii_of_nat 45)) with 45%N. cbn match.
  by rewrite bool_decide_eq_false_2.
Qed.

(** [strconv.Atoi] reads back what [%d] prints. *)
Lemma Atoi_fmt_d n : in_int64 n → Atoi (fmt_d n) = Some n.
Proof.
  intros [Hmin Hmax]. unfold fmt_d, pretty, pretty_Z.
  assert (Hin : ∀ z, int64_min ≤ z ≤ int64_max → in_range z = Some z).
  { intros z Hz. unfold in_range.
    rewrite (proj2 (Z.leb_le _ _) (proj1 Hz)), (proj2 (Z.leb_le _ _) (proj2 Hz)). done. }
  destruct n as [|p|p].
  - done.
  - change (pretty p) with (pretty (N.pos p)).
    rewrite (Atoi_digits _ (Z.pos p)); [by apply Hin| |].
    + apply pretty_N_nonempty.
    + apply (digits_pretty_N (N.pos p)).
  - change (pretty p) with (pretty (N.pos p)).
    rewrite Atoi_minus by apply pretty_N_nonempty.
    rewrite (digits_pretty_N (N.pos p)). cbn [mbind option_bind].
    change (- Z.of_N (N.pos p)) with (Z.neg p). by apply Hin.
Qed.

Lemma Atoi_in_range s n : Atoi s = Some n → in_int64 n.
Proof.
  assert (Hin : ∀ z, in_range z = Some n → in_int64 n).
  { intros z. unfold in_range. destruct (_ && _) eqn:H; [|done]. intros [= ->].
    apply andb_prop in H as [?%Z.leb_le ?%Z.leb_le]. done. }
  unfold Atoi. destruct s as [|c rest]; [done|].
  repeat case_match; try done.
  all: destruct (digits 0 _) as [m|]; [|done]; cbn [mbind option_bind]; apply Hin.
Qed.

(** X19. An integer variable: the value is used when it is the decimal
    rendering of an [int]; the default is used when the variable is not
    set, is empty, or does not read as an [int]; and what is returned
    is the default or within the range of an [int]. *)
Theorem getEnvInt_value key defaultValue env :
  (∀ n, in_int64 n → Getenv key env = fmt_d n → getEnvInt key defaultValue env = n) ∧
  (Getenv key env = "" → getEnvInt key defaultValue env = defaultValue) ∧
  (Atoi (Getenv key env) = None → getEnvInt key defaultValue env = defaultValue) ∧
  (getEnvInt key defaultValue env = defaultValue ∨
   in_int64 (getEnvInt key defaultValue env)).
Proof.
  unfold getEnvInt. split_and!.
  - intros n Hn Hv. rewrite Hv, (Atoi_fmt_d n Hn).
    case_decide as Hne; [done|].
    pose proof (Atoi_fmt_d n Hn) as Ha. by rewrite Hne in Ha.
  - intros ->. done.
  - intros ->. by case_decide.
  - case_decide; [|by left].
    destruct (Atoi _) as [n|] eqn:Ha; [|by left]. right. by eapply Atoi_in_range.
Qed.

(** ** The syntax of the .env file *)

Lemma visible_bounds c : visible c = true → (33 ≤ byte_of c ≤ 126)%N.
Proof. unfold visible. intros [?%N.leb_le ?%N.leb_le]%andb_prop. done. Qed.

Lemma space1_bounds c : space1 c = true → (byte_of c ≤ 32)%N.
Proof.
  unfold space1. intros [[_ ?%N.leb_le]%andb_prop|?%N.eqb_eq]%orb_prop; lia.
Qed.

Lemma trim_left_blank backwards pad l :
  blank pad → trim_left backwards (pad ++ l) = trim_left backwards l.
Proof.
  induction 1 as [|c pad Hc _ IH]; [done|]. cbn [app trim_left]. by rewrite Hc.
Qed.

(** No white space character has a visible byte in its encoding. *)
Lemma space_visible c :
  visible c = true →
  space1 c = false ∧
  (∀ x, space2 c x = false ∧ space2 x c = false) ∧
  (∀ x y, space3 c x y = false ∧ space3 x c y = false ∧ space3 x y c = false).
Proof.
  intros Hc%visible_bounds.
  assert (Hfalse : ∀ b : bool, (b = true → False) → b = false).
  { by intros []; [intros []|]. }
  split_and!; [|intros x; split|intros x y; split_and!]; apply Hfalse;
    unfold space1, space2, space3; intros H;
    repeat match goal with
           | H : (_ =? _)%N = true |- _ => apply N.eqb_eq in H
           | H : (_ <=? _)%N = true |- _ => apply N.leb_le in H
           | H : (_ || _) = true |- _ => apply orb_prop in H as [H|H]
           | H : (_ && _) = true |- _ => apply andb_prop in H as [H ?]
           end; lia.
Qed.

Lemma trim_left_visible backwards c l :
  visible c = true → trim_left backwards (c :: l) = c :: l.
Proof.
  intros (H1 & H2 & H3)%space_visible. cbn [trim_left]. rewrite H1.
  destruct l as [|c2 l]; [done|].
  destruct (H2 c2) as [-> ->].
  destruct l as [|c3 l]; [by destruct backwards|].
  destruct (H3 c2 c3) as (-> & _ & _). destruct (H3 c3 c2) as (_ & _ & ->).
  by destruct backwards.
Qed.

(** Trimming never goes past a visible character. *)
Lemma trim_left_keeps backwards h (n : nat) : ∀ r,
  (length r ≤ n)%nat → visible h = true →
  ∃ r', trim_left backwards (r ++ [h]) = r' ++ [h].
Proof.
  induction n as [|n IH]; intros r Hn Hh.
  { destruct r; [|simpl in Hn; lia]. exists []. by apply trim_left_visible. }
  destruct (space_visible h Hh) as (H1 & H2 & H3).
  destruct r as [|c1 r]; [exists []; by apply trim_left_visible|].
  cbn [app trim_left]. simpl in Hn.
  destruct (space1 c1); [apply IH; [lia|done]|].
  destruct r as [|c2 r]; cbn [app].
  { destruct (H2 c1) as [-> ->]. exists [c1]. by destruct backwards. }
  destruct (if backwards then space2 c2 c1 else space2 c1 c2).
  { apply IH; [simpl in *; lia|done]. }
  destruct r as [|c3 r]; cbn [app].
  { destruct (H3 c1 c2) as (_ & _ & ->). destruct (H3 c2 c1) as (-> & _ & _).
    exists [c1; c2]. by destruct backwards. }
  destruct (if backwards then space3 c3 c2 c1 else space3 c1 c2 c3).
  { apply IH; [simpl in *; lia|done]. }
  by exists (c1 :: c2 :: c3 :: r).
Qed.

Lemma trim_left_all_blank backwards pad : blank pad → trim_left backwards pad = [].
Proof.
  intros H. rewrite <- (app_nil_r pad). by rewrite trim_left_blank.
Qed.

Lemma blank_rev pad : blank pad → blank (rev pad).
Proof. apply Forall_rev. Qed.

Lemma blank_app pad1 pad2 : blank pad1 → blank pad2 → blank (pad1 ++ pad2).
Proof. apply Forall_app_2. Qed.

(** Trimming takes the blanks off both ends of a tight text, and
    nothing else. *)
Lemma trim_space_padded pad1 l pad2 :
  blank pad1 → blank pad2 → tight l → trim_space (pad1 ++ l ++ pad2) = l.
Proof.
  intros H1 H2 [Hhead Hlast]. unfold trim_space. rewrite trim_left_blank by done.
  destruct l as [|c l'].
  - cbn [app]. by rewrite (trim_left_all_blank false pad2).
  - cbn [app]. rewrite trim_left_visible by (by apply Hhead).
    change (c :: l' ++ pad2) with ((c :: l') ++ pad2).
    rewrite rev_app_distr, trim_left_blank by (by apply blank_rev).
    destruct (rev (c :: l')) as [|c' l''] eqn:Hrev.
    { apply (f_equal (@rev _)) in Hrev. by rewrite rev_involutive in Hrev. }
    rewrite trim_left_visible.
    + by rewrite <- Hrev, rev_involutive.
    + apply Hlast. rewrite <- (rev_involutive (c :: l')), Hrev.
      cbn [rev]. apply last_snoc.
Qed.

Lemma trim_space_blank pad : blank pad → trim_space pad = [].
Proof. intros H. unfold trim_space. by rewrite (trim_left_all_blank false pad). Qed.

Lemma trim_space_tight l : tight l → trim_space l = l.
Proof.
  intros H. pose proof (trim_space_padded [] l [] ltac:(constructor)
                          ltac:(constructor) H) as Ht.
  cbn [app] in Ht. by rewrite app_nil_r in Ht.
Qed.

Lemma TrimSpace_text l : TrimSpace (text_of l) = text_of (trim_space l).
Proof.
  unfold TrimSpace, text_of. by rewrite String.list_ascii_of_string_of_list_ascii.
Qed.

Lemma SplitN2_text before after :
  no_byte 61 before →
  SplitN2 (text_of (before ++ Ascii.ascii_of_nat 61 :: after))
  = Some (text_of before, text_of after).
Proof.
  induction 1 as [|c before Hc _ IH].
  - done.
  - unfold text_of in *. cbn [app String.string_of_list_ascii SplitN2].
    rewrite (proj2 (N.eqb_neq _ _) Hc). by rewrite IH.
Qed.

Lemma SplitN2_none l : no_byte 61 l → SplitN2 (text_of l) = None.
Proof.
  induction 1 as [|c l Hc _ IH]; [done|].
  unfold text_of in *. cbn [String.string_of_list_ascii SplitN2].
  rewrite (proj2 (N.eqb_neq _ _) Hc). by rewrite IH.
Qed.

Lemma blank_no_byte pad n : (32 < n)%N → blank pad → no_byte n pad.
Proof.
  intros Hn Hpad. eapply Forall_impl; [exact Hpad|]. intros c Hc%space1_bounds. lia.
Qed.

Lemma assignment_text l :
  assignment (text_of l)
  = if bool_decide (text_of (trim_space l) = "") || is_comment (text_of (trim_space l))
    then None
    else
      match SplitN2 (text_of (trim_space l)) with
      | Some (before, after) => Some (TrimSpace before, TrimSpace after)
      | None => None
      end.
Proof. unfold assignment. cbv zeta. by rewrite TrimSpace_text. Qed.

Lemma text_of_cons c l : text_of (c :: l) = String c (text_of l).
Proof. done. Qed.

Lemma tight_line c0 key' pad2 pad3 value :
  tight (c0 :: key') → tight value →
  tight ((c0 :: key') ++ pad2
         ++ Ascii.ascii_of_nat 61 :: (if decide (value = []) then [] else pad3 ++ value)).
Proof.
  intros [Hhead _] [_ Hlast]. split.
  - intros c' [= <-]. by apply Hhead.
  - intros c'. rewrite (assoc_L (++)), last_app_cons.
    case_decide as Hv; [by intros [= <-]|].
    change (?x :: pad3 ++ value) with ((x :: pad3) ++ value). rewrite last_app.
    destruct (last value) as [cv|] eqn:Hcv.
    + intros [= <-]. by apply Hlast.
    + by apply last_None in Hcv.
Qed.

Lemma assignment_padded pad1 c0 key' pad2 pad3 value pad4 :
  blank pad1 → blank pad2 → blank pad3 → blank pad4 →
  tight (c0 :: key') → tight value → no_byte 61 (c0 :: key') → byte_of c0 ≠ 35%N →
  assignment
    (text_of (pad1 ++ (c0 :: key') ++ pad2
              ++ Ascii.ascii_of_nat 61 :: pad3 ++ value ++ pad4))
  = Some (text_of (c0 :: key'), text_of value).
Proof.
  intros H1 H2 H3 H4 Hkey Hvalue Hno Hhash.
  pose proof (tight_line c0 key' pad2 pad3 value Hkey Hvalue) as Hline.
  set (tail := if decide (value = []) then [] else pad3 ++ value) in *.
  set (rest := if decide (value = []) then pad3 ++ pad4 else pad4).
  assert (Hrest : blank rest).
  { unfold rest. case_decide; [by apply blank_app|done]. }
  assert (Hsplit : pad3 ++ value ++ pad4 = tail ++ rest).
  { unfold tail, rest. case_decide as Hv; [by subst value|].
    by rewrite <- (assoc_L (++)). }
  assert (Htail : trim_space tail = value).
  { unfold tail. case_decide as Hv; [by subst value|].
    rewrite <- (app_nil_r value) at 1.
    apply trim_space_padded; [done|constructor|done]. }
  rewrite assignment_text, Hsplit.
  replace (pad1 ++ (c0 :: key') ++ pad2 ++ Ascii.ascii_of_nat 61 :: tail ++ rest)
    with (pad1 ++ ((c0 :: key') ++ pad2 ++ Ascii.ascii_of_nat 61 :: tail) ++ rest)
    by (by rewrite <- !(assoc_L (++))).
  rewrite trim_space_padded by done.
  replace ((c0 :: key') ++ pad2 ++ Ascii.ascii_of_nat 61 :: tail)
    with (((c0 :: key') ++ pad2) ++ Ascii.ascii_of_nat 61 :: tail)
    by (by rewrite <- (assoc_L (++))).
  rewrite SplitN2_text.
  2: { apply Forall_app_2; [done|]. by apply blank_no_byte. }
  rewrite !TrimSpace_text, Htail.
  rewrite <- (app_nil_l ((c0 :: key') ++ pad2)).
  rewrite trim_space_padded; [|constructor|done|done].
  cbn [app]. rewrite text_of_cons. cbn [is_comment].
  rewrite bool_decide_eq_false_2 by done.
  by rewrite (proj2 (N.eqb_neq _ _) Hhash).
Qed.

(** X20. The syntax of the file.  A line KEY=VALUE assigns VALUE to KEY; the
    blanks at both ends of the line and around the key and the value
    do not count; the line is cut at its first '='.  A line of blanks,
    a line whose first visible character is '#', and a line with no '='
    assign nothing. *)
Theorem assignment_syntax :
  (∀ pad1 key pad2 pad3 value pad4 c0,
     blank pad1 → blank pad2 → blank pad3 → blank pad4 →
     tight key → tight value → no_byte 61 key →
     head key = Some c0 → byte_of c0 ≠ 35%N →
     assignment
       (text_of (pad1 ++ key ++ pad2 ++ Ascii.ascii_of_nat 61 :: pad3 ++ value ++ pad4))
     = Some (text_of key, text_of value)) ∧
  (∀ pad, blank pad → assignment (text_of pad) = None) ∧
  (∀ pad rest,
     blank pad → assignment (text_of (pad ++ Ascii.ascii_of_nat 35 :: rest)) = None) ∧
  (∀ l, no_byte 61 l → tight l → assignment (text_of l) = None).
Proof.
  split_and!.
  - intros pad1 key pad2 pad3 value pad4 c0 H1 H2 H3 H4 Hkey Hvalue Hno Hc0 Hhash.
    destruct key as [|c key']; [done|]. simplify_eq/=.
    by apply assignment_padded.
  - intros pad Hpad. by rewrite assignment_text, trim_space_blank.
  - intros pad rest Hpad. rewrite assignment_text.
    unfold trim_space. rewrite trim_left_blank by done.
    rewrite trim_left_visible by done. cbn [rev].
    destruct (trim_left_keeps true (Ascii.ascii_of_nat 35) (length (rev rest))
                (rev rest) ltac:(done) ltac:(done)) as [r' ->].
    rewrite rev_app_distr. cbn [rev app]. rewrite text_of_cons. cbn [is_comment].
    by rewrite orb_true_r.
  - intros l Hno Htight. rewrite assignment_text, trim_space_tight by done.
    rewrite SplitN2_none by done. by destruct (_ || _).
Qed.

(** ** The priority of the configuration *)

(** The getters after the file is loaded. *)
Lemma getEnvString_loaded key d lines env :
  getEnvString key d (loadEnvFile (Some lines) env)
  = if decide (setting key lines env = "") then d else setting key lines env.
Proof.
  unfold getEnvString. rewrite loadEnvFile_Getenv. fold (setting key lines env).
  by repeat case_decide.
Qed.

Lemma getEnvInt_loaded key d lines env :
  getEnvInt key d (loadEnvFile (Some lines) env)
  = default d (Atoi (setting key lines env)).
Proof.
  unfold getEnvInt. rewrite loadEnvFile_Getenv. fold (setting key lines env).
  case_decide as Hv; [by destruct (Atoi _)|].
  by rewrite Hv.
Qed.

Lemma getEnvBool_loaded key d lines env :
  getEnvBool key d (loadEnvFile (Some lines) env)
  = if decide (setting key lines env = "") then d else truthy (setting key lines env).
Proof.
  unfold getEnvBool, truthy. rewrite loadEnvFile_Getenv.
  fold (setting key lines env). by repeat case_decide.
Qed.

Section Priority.

Variable NumCPU : Z.

Variable ParseDuration : string → option Duration.

Lemma getEnvDuration_loaded key d lines env :
  getEnvDuration ParseDuration key d (loadEnvFile (Some lines) env)
  = if decide (setting key lines env = "") then d
    else default d (ParseDuration (setting key lines env)).
Proof.
  unfold getEnvDuration. rewrite loadEnvFile_Getenv. fold (setting key lines env).
  repeat case_decide; try done; by destruct (ParseDuration _).
Qed.

(** The fields of the configuration, one by one. *)
Lemma parseConfig_fields env flags args :
  parseConfig NumCPU ParseDuration env flags args
  = mkConfig
      (match args with
       | input :: _ => input
       | [] => default (getEnvString "INPUT_FILE" "data/data.json" env) (flag_input flags)
       end)
      (match args with
       | _ :: output :: _ => output
       | _ => default (getEnvString "OUTPUT_FILE" "data/invalid_emails.json" env)
                (flag_output flags)
       end)
      (default (getEnvInt "WORKERS" (wrap64 (NumCPU * 2)) env) (flag_workers flags))
      (default (getEnvInt "BATCH_SIZE" 1000 env) (flag_batch flags))
      (default (getEnvDuration ParseDuration "RATE_LIMIT" (10 * 10 ^ 6) env)
         (flag_rate flags))
      (default (getEnvBool "ENABLE_SMTP" true env) (flag_smtp flags))
      (default (getEnvBool "VERBOSE" false env) (flag_verbose flags)).
Proof. by destruct args as [|a1 [|a2 args]]. Qed.

(** X21. The order of priority of the configuration: positional arguments,
    then flags, then the variables of the process, then the file, then
    the defaults.  A value that does not read as an integer or as a
    duration gives the default, also when a source of lower priority has
    a good one; a boolean that is set and is not "true", "1" or "yes" is
    false. *)
Theorem config_priority lines env flags args :
  let config :=
    parseConfig NumCPU ParseDuration (loadEnvFile (Some lines) env) flags args in
  InputFile config
  = match args, flag_input flags with
    | input :: _, _ => input
    | [], Some input => input
    | [], None =>
        if decide (setting "INPUT_FILE" lines env = "") then "data/data.json"
        else setting "INPUT_FILE" lines env
    end ∧
  OutputFile config
  = match args, flag_output flags with
    | _ :: output :: _, _ => output
    | _, Some output => output
    | _, None =>
        if decide (setting "OUTPUT_FILE" lines env = "") then "data/invalid_emails.json"
        else setting "OUTPUT_FILE" lines env
    end ∧
  Workers config
  = match flag_workers flags with
    | Some n => n
    | None => default (wrap64 (NumCPU * 2)) (Atoi (setting "WORKERS" lines env))
    end ∧
  BatchSize config
  = match flag_batch flags with
    | Some n => n
    | None => default 1000 (Atoi (setting "BATCH_SIZE" lines env))
    end ∧
  RateLimit config
  = match flag_rate flags with
    | Some d => d
    | None =>
        if decide (setting "RATE_LIMIT" lines env = "") then 10 * 10 ^ 6
        else default (10 * 10 ^ 6) (ParseDuration (setting "RATE_LIMIT" lines env))
    end ∧
  EnableSMTP config
  = match flag_smtp flags with
    | Some b => b
    | None =>
        if decide (setting "ENABLE_SMTP" lines env = "") then true
        else truthy (setting "ENABLE_SMTP" lines env)
    end ∧
  Verbose config
  = match flag_verbose flags with
    | Some b => b
    | None =>
        if decide (setting "VERBOSE" lines env = "") then false
        else truthy (setting "VERBOSE" lines env)
    end.
Proof.
  cbv zeta. rewrite parseConfig_fields.
  cbn [InputFile OutputFile Workers BatchSize RateLimit EnableSMTP Verbose].
  rewrite !getEnvInt_loaded, !getEnvBool_loaded, !getEnvString_loaded,
    getEnvDuration_loaded.
  split_and!.
  - by destruct args, (flag_input flags).
  - by destruct args as [|a1 [|a2 args]], (flag_output flags).
  - by destruct (flag_workers flags).
  - by destruct (flag_batch flags).
  - by destruct (flag_rate flags).
  - by destruct (flag_smtp flags).
  - by destruct (flag_verbose flags).
Qed.

End Priority.

(** ** The program, end to end *)


(** ** The further properties on the sample runs *)

Lemma demo_workers_fit : Workers demo_config * 2 ≤ int64_max.
Proof. by vm_compute. Qed.

Lemma demo_workers_made : Workers demo_config ≤ safe_workers.
Proof. by vm_compute. Qed.

Lemma zero_batch_execution :
  execution demo_emails zero_batch_config 0 0 zero_batch_acts
    zero_batch_run.1 zero_batch_run.2.
Proof. by vm_compute. Qed.

Lemma batch_execution :
  execution demo_emails batch_config 0 0 demo_acts batch_run.1 batch_run.2.
Proof. by vm_compute. Qed.

Lemma wrapped_execution :
  execution wrapped_emails wrapped_config 0 0 wrapped_acts wrapped_run.1
    wrapped_run.2.
Proof. by vm_compute. Qed.

Lemma demo_before_plain : Forall plain_member [("version", JNumber "1")].
Proof. repeat constructor; by vm_compute. Qed.

Lemma pipeline_step_count_witness : Z.of_nat (length demo_acts) = 31.
Proof.
  refine (proj2 (pipeline_step_count demo_emails demo_config 0 0 (proj1 demo_workers)
                   demo_workers_fit demo_acts demo_run.1 demo_run.2 demo_execution)
            demo_completed).
Defined.

Lemma pipeline_never_panics_witness :
  fault demo_run.2 = None ∧ panics demo_run.1 = [] ∧ ∀ f, EvPanic f ∉ demo_run.1.
Proof.
  refine (pipeline_never_panics demo_emails demo_config 0 0 (proj1 demo_workers)
            demo_workers_made demo_acts demo_run.1 demo_run.2 _ demo_execution).
  by vm_compute.
Defined.

Lemma pipeline_never_stuck_witness :
  ∃ a e s', step 4 demo_config a demo_before.2 = Some (e, s').
Proof.
  refine (proj1 (pipeline_never_stuck demo_emails demo_config 0 0 (proj1 demo_workers)
                   demo_workers_made _ demo_acts_before demo_before.1 demo_before.2
                   demo_execution_before) _ _).
  - intros _. by vm_compute.
  - by vm_compute.
  - intros [Hpc _]. by vm_compute in Hpc.
Defined.

Lemma zero_batch_panics_witness :
  step 4 zero_batch_config (AReport 1) zero_batch_run.2
  = Some (EvPanic IntegerDivideByZero, panic IntegerDivideByZero zero_batch_run.2).
Proof.
  refine (proj1 (proj2 (zero_batch_panics demo_emails zero_batch_config 0 0 _ _ _
                          zero_batch_acts zero_batch_run.1 zero_batch_run.2 _
                          zero_batch_execution)) 1 1 _ _);
    by vm_compute.
Defined.

Lemma no_workers_no_run_witness :
  collected wrapped_run.1 = [] ∧ stats wrapped_run.2 = newStats 0 ∧
  invalidEmails wrapped_run.2 = [].
Proof.
  pose proof (no_workers_no_run wrapped_emails wrapped_config 0 0 wrapped_acts
    wrapped_run.1 wrapped_run.2 ltac:(by vm_compute) wrapped_execution)
    as (_ & _ & Hcol & Hstats & Hinv & _).
  exact (conj Hcol (conj Hstats Hinv)).
Defined.

Lemma invalid_entries_wellformed_witness :
  Forall (λ entry, ie_Email entry ∈ demo_emails ∧ ie_Reason entry ≠ "")
    (invalidEmails demo_run.2).
Proof.
  exact (proj1 (invalid_entries_wellformed demo_emails demo_config 0 0
                  (proj1 demo_workers) demo_workers_fit demo_acts demo_run.1
                  demo_run.2 demo_execution)).
Defined.

Lemma in_flight_bound_witness :
  Z.of_nat (length (enqueued demo_before.1)) - Z.of_nat (length (collected demo_before.1))
  ≤ 5 * Workers demo_config.
Proof.
  exact (proj2 (proj2 (proj2 (proj2
    (in_flight_bound demo_emails demo_config 0 0 (proj1 demo_workers)
       demo_workers_fit demo_acts_before demo_before.1 demo_before.2
       demo_execution_before))))).
Defined.

Lemma pickup_order_witness :
  (verified demo_run.1).*1 `prefix_of` enqueued demo_run.1.
Proof.
  exact (proj1 (proj2
    (pickup_order demo_emails demo_config 0 0 (proj1 demo_workers) demo_workers_fit
       demo_acts demo_run.1 demo_run.2 demo_execution))).
Defined.

Lemma workers_exit_once_witness :
  exited demo_run.1 ≡ₚ seq 0 (Z.to_nat (Workers demo_config)).
Proof.
  exact (proj2 (proj2
    (workers_exit_once demo_emails demo_config 0 0 (proj1 demo_workers)
       demo_workers_fit demo_acts demo_run.1 demo_run.2 demo_execution))
    demo_completed).
Defined.

Lemma worker_protocol_witness :
  tally (verified_by 0) demo_before.1
  = tally (sent_by 0) demo_before.1 + sending (workers demo_before.2 !! 0%nat).
Proof.
  exact (proj1 (worker_protocol demo_emails demo_config 0 0 demo_acts_before
                  demo_before.1 demo_before.2 0%nat demo_execution_before)).
Defined.

Lemma progress_lines_witness :
  ∃ p, p ∈ progress batch_run.1 ∧ p_checked p = 4.
Proof.
  refine (proj2 (proj2
    (progress_lines demo_emails batch_config 0 0 demo_acts batch_run.1 batch_run.2
       _ _ _ batch_execution)) _ 4 _ _);
    by vm_compute.
Defined.

Lemma writer_outcome_witness :
  ∃ out,
    writeResultsStreaming fmt_q (Some nearly_full) sample_times sample_invalid
      sample_stats = (None, Some out) ∧
    contents out
    = contents nearly_full
      ++ take (Z.to_nat (free nearly_full))
           (document fmt_q sample_times sample_invalid sample_stats) ∧
    free out
    = free nearly_full
      - len (take (Z.to_nat (free nearly_full))
               (document fmt_q sample_times sample_invalid sample_stats)) ∧
    0 ≤ free out ∧
    (contents out
     = contents nearly_full ++ document fmt_q sample_times sample_invalid sample_stats
     ↔ len (document fmt_q sample_times sample_invalid sample_stats)
       ≤ free nearly_full).
Proof.
  refine (writer_outcome fmt_q nearly_full sample_times sample_invalid sample_stats _).
  by vm_compute.
Defined.

Lemma reader_flat_document_witness :
  readEmailsStreaming (Some (mkFile 120 demo_document)) = inr demo_emails.
Proof.
  exact (proj1 (reader_flat_document 120 [("version", JNumber "1")] demo_before_plain)
           demo_elements [("count", JNumber "4")]).
Defined.


Lemma reader_nested_emails_witness :
  readEmailsStreaming (Some (mkFile 200 nested_document)) = inr ["old@example.com"].
Proof.
  refine (reader_nested_emails 200 [("version", JNumber "1")] "archive"
            [("year", JNumber "2024")] [Some "old@example.com"] []
            [("emails", JArray [JString "good@example.com"])] demo_before_plain _ _).
  - done.
  - repeat constructor; by vm_compute.
Defined.

Lemma loadEnvFile_value_witness :
  Getenv "WORKERS" (loadEnvFile (Some demo_env_file) demo_env) = "2".
Proof.
  refine (proj1 (proj2 (loadEnvFile_value "WORKERS" demo_env_file demo_env)) _).
  by vm_compute.
Defined.

Lemma getEnvInt_value_witness :
  getEnvInt "WORKERS" 4 demo_env = 2.
Proof.
  refine (proj1 (getEnvInt_value "WORKERS" 4 demo_env) 2 _ _); by vm_compute.
Defined.

Lemma assignment_syntax_witness :
  assignment "  WORKERS = 8  " = Some ("WORKERS", "8").
Proof.
  refine (proj1 assignment_syntax
            (String.list_ascii_of_string "  ")
            (String.list_ascii_of_string "WORKERS")
            (String.list_ascii_of_string " ")
            (String.list_ascii_of_string " ")
            (String.list_ascii_of_string "8")
            (String.list_ascii_of_string "  ")
            (Ascii.ascii_of_nat 87) _ _ _ _ _ _ _ _ _).
  - unfold blank. cbn. by repeat constructor.
  - unfold blank. cbn. by repeat constructor.
  - unfold blank. cbn. by repeat constructor.
  - unfold blank. cbn. by repeat constructor.
  - split; cbn; by intros c [= <-].
  - split; cbn; by intros c [= <-].
  - unfold no_byte. cbn. repeat constructor; by vm_compute.
  - reflexivity.
  - by vm_compute.
Defined.

